(** * Pulsar heart monitor: beat detector and alarm state machine

    A shallow embedding of [pulse_bpm.cpp], [hr_anomaly_detector.h] and
    [heart_monitor_types.h], with the properties of the specification proved
    (or refuted) on it; and of the tasks of [heart_monitor_tasks.cpp] that
    drive the two, of the display driver [lcd2004_liquidcrystal_i2c.cpp]
    and of the event handler of [wifi_telemetry.cpp], with further
    properties of the code.

    Conventions.
    - [int] and [int64_t] values are integers of [Z].  Signed arithmetic is
      the mathematical one, but for two places where values of the input
      type reach the limits of [int]: the narrowing conversion
      [(int)(beat_ms - last_beat_ms_)] of [register_beat] is a wrap-around
      to 32 bits ([to_int]), and so are the [int] subtraction and the
      [std::abs] of [detect_rapid_change] ([int_sub], [int_abs]), the way
      two's complement hardware computes them.  Integer [/] and [%] are
      the truncating [Z.quot] and [Z.rem].
    - [float] is IEEE 754 binary32, computed bit for bit by the operations of
      [SpecFloat] at precision 24 and maximal exponent 128, every operation
      rounded on its own to nearest-even.
    - A member function becomes a function from the object's state (a record
      with the members' names) to the new state and the results; reference
      parameters ([out_bpm], [out_event]) are passed in and returned. *)

From Stdlib Require Import ZArith List Bool Lia QArith Qround.
From Stdlib Require Import Floats.SpecFloat.
From Stdlib Require Import Permutation Sorted.
Import ListNotations.

#[local] Open Scope Z_scope.

(** ** binary32 arithmetic *)

Module F32.

Definition prec : Z := 24.
Definition emax : Z := 128.

Definition f32 : Type := spec_float.

Definition add : f32 -> f32 -> f32 := SFadd prec emax.
Definition sub : f32 -> f32 -> f32 := SFsub prec emax.
Definition mul : f32 -> f32 -> f32 := SFmul prec emax.
Definition div : f32 -> f32 -> f32 := SFdiv prec emax.
Definition fabs : f32 -> f32 := SFabs.

(** [a < b], [a <= b], [a > b], [a >= b] of C++: false as soon as one side
    is a NaN. *)
Definition ltb : f32 -> f32 -> bool := SFltb.
Definition leb : f32 -> f32 -> bool := SFleb.
Definition gtb (a b : f32) : bool := SFltb b a.
Definition geb (a b : f32) : bool := SFleb b a.

(** [(float)n] for an integer [n]. *)
Definition of_int (n : Z) : f32 := binary_normalize prec emax n 0 false.

(** A decimal literal [n/d] written with suffix [f]: the binary32 number
    nearest to the quotient. *)
Definition lit (n d : Z) : f32 := div (of_int n) (of_int d).

Definition zero : f32 := S754_zero false.

(** [std::max(a, b)] is [(a < b) ? b : a]. *)
Definition fmax (a b : f32) : f32 := if ltb a b then b else a.

(** [clampf] *)
Definition clampf (v lo hi : f32) : f32 :=
  if ltb v lo then lo else if gtb v hi then hi else v.

(** The value of a finite number as a rational, for reading results. *)
Definition to_Q (x : f32) : option Q :=
  match x with
  | S754_zero _ => Some 0%Q
  | S754_finite s m e =>
      let v := (if Z.leb 0 e then inject_Z (Zpos m * 2 ^ e)
                else Qmake (Zpos m) (Z.to_pos (2 ^ (- e))))%Z in
      Some (if s then Qopp v else v)
  | _ => None
  end.

End F32.

Import F32.

(** ** Values of binary32 numbers

    What the proofs about rounding speak of: the value of a finite number as
    an integer, in units of [2^-bias], and the numbers that are zero or
    finite and canonical. *)

Module F32Spec.

Definition bias : Z := 256.

(** [m * 2^e], scaled by [2^bias] to stay an integer. *)
Definition F2Z (m e : Z) : Z := m * 2 ^ (e + bias).

Definition val (x : f32) : Z :=
  match x with
  | S754_finite s m e => cond_Zopp s (F2Z (Zpos m) e)
  | _ => 0
  end.

Definition nice (x : f32) : Prop :=
  match x with
  | S754_zero _ => True
  | S754_finite _ m e => bounded prec emax m e = true
  | _ => False
  end.

Definition dig (m : Z) : Z := Z.log2 m + 1.

Definition fx (e : Z) : Z := fexp prec emax e.

Definition canon (m e : Z) : Prop := 0 < m /\ fx (dig m + e) = e.

(** What [binary_round_aux] builds from the rounded mantissa and
    exponent. *)
Definition build (sx : bool) (m e : Z) : f32 :=
  match m with
  | Z0 => S754_zero sx
  | Zpos p => if e <=? emax - prec then S754_finite sx p e
              else S754_infinity sx
  | Zneg _ => S754_nan
  end.

End F32Spec.

(** ** heart_monitor_types.h *)

Inductive AlarmType : Type :=
| NONE
| NO_SIGNAL
| BRADYCARDIA
| TACHYCARDIA
| RAPID_CHANGE.

Definition AlarmType_eqb (a b : AlarmType) : bool :=
  match a, b with
  | NONE, NONE | NO_SIGNAL, NO_SIGNAL | BRADYCARDIA, BRADYCARDIA
  | TACHYCARDIA, TACHYCARDIA | RAPID_CHANGE, RAPID_CHANGE => true
  | _, _ => false
  end.

Record BpmReading : Type := mkBpmReading {
  bpm : Z;
  quality : f32;
  stable : bool;
  t_ms : Z
}.

Record AlarmEvent : Type := mkAlarmEvent {
  ev_type : AlarmType;
  ev_bpm : Z;
  ev_quality : f32;
  ev_t_ms : Z
}.

(** ** hr_anomaly_detector.h *)

Module HrAnomalyDetector.

Record Config : Type := mkConfig {
  brady_bpm : Z;
  tachy_bpm : Z;
  sustain_ms : Z;
  min_quality_for_bpm : f32;
  no_signal_ms : Z;
  rapid_change_delta_bpm : Z;
  rapid_change_window_ms : Z;
  clear_ms : Z
}.

(** The member initialisers of [Config]; [lit 1 4] is [0.25f]. *)
Definition default_Config : Config :=
  {| brady_bpm := 45;
     tachy_bpm := 130;
     sustain_ms := 5000;
     min_quality_for_bpm := lit 1 4;
     no_signal_ms := 3000;
     rapid_change_delta_bpm := 35;
     rapid_change_window_ms := 5000;
     clear_ms := 3000 |}.

Record Hist : Type := mkHist {
  hist_bpm : Z;
  hist_t_ms : Z
}.

Definition HIST_N : Z := 8.

Record t : Type := mkDetector {
  cfg_ : Config;
  active_alarm_ : AlarmType;
  last_t_ms_ : Z;
  no_signal_since_ms_ : Z;
  abnormal_since_ms_ : Z;
  abnormal_kind_ : AlarmType;
  clear_since_ms_ : Z;
  hist_ : list Hist;
  hist_wr_ : Z;
  hist_count_ : Z
}.

(** [HrAnomalyDetector(cfg)]: the default member initialisers. *)
Definition make (cfg : Config) : t :=
  {| cfg_ := cfg;
     active_alarm_ := NONE;
     last_t_ms_ := 0;
     no_signal_since_ms_ := 0;
     abnormal_since_ms_ := 0;
     abnormal_kind_ := NONE;
     clear_since_ms_ := 0;
     hist_ := repeat (mkHist 0 0) 8;
     hist_wr_ := 0;
     hist_count_ := 0 |}.

(** [HrAnomalyDetector()] *)
Definition init : t := make default_Config.

(** [a[i] = v] on an array held as a list; an index outside the array
    (never produced by the code below, whose indices are reduced modulo the
    capacity) leaves it as it is. *)
Fixpoint store {A : Type} (l : list A) (i : nat) (v : A) : list A :=
  match l, i with
  | [], _ => []
  | _ :: l', O => v :: l'
  | x :: l', S i' => x :: store l' i' v
  end.

Definition hist_at (d : t) (idx : Z) : Hist :=
  nth (Z.to_nat idx) (hist_ d) (mkHist 0 0).

(** The bad-reading test of the no-signal tracking:
    [r.quality < cfg_.min_quality_for_bpm || r.bpm <= 0]. *)
Definition bad_reading (cfg : Config) (r : BpmReading) : bool :=
  ltb (quality r) (min_quality_for_bpm cfg) || (bpm r <=? 0).

(** [usable]: [(r.quality >= cfg_.min_quality_for_bpm) && (r.stable)]. *)
Definition usable (cfg : Config) (r : BpmReading) : bool :=
  geb (quality r) (min_quality_for_bpm cfg) && stable r.

(** Lines 35-42 of [update]: the time of the tick and the no-signal onset. *)
Definition track_no_signal (d : t) (r : BpmReading) : t :=
  {| cfg_ := cfg_ d;
     active_alarm_ := active_alarm_ d;
     last_t_ms_ := t_ms r;
     no_signal_since_ms_ :=
       if bad_reading (cfg_ d) r
       then (if no_signal_since_ms_ d =? 0 then t_ms r
             else no_signal_since_ms_ d)
       else 0;
     abnormal_since_ms_ := abnormal_since_ms_ d;
     abnormal_kind_ := abnormal_kind_ d;
     clear_since_ms_ := clear_since_ms_ d;
     hist_ := hist_ d;
     hist_wr_ := hist_wr_ d;
     hist_count_ := hist_count_ d |}.

Definition push_hist (d : t) (r : BpmReading) : t :=
  {| cfg_ := cfg_ d;
     active_alarm_ := active_alarm_ d;
     last_t_ms_ := last_t_ms_ d;
     no_signal_since_ms_ := no_signal_since_ms_ d;
     abnormal_since_ms_ := abnormal_since_ms_ d;
     abnormal_kind_ := abnormal_kind_ d;
     clear_since_ms_ := clear_since_ms_ d;
     hist_ := store (hist_ d) (Z.to_nat (hist_wr_ d)) (mkHist (bpm r) (t_ms r));
     hist_wr_ := Z.rem (hist_wr_ d + 1) HIST_N;
     hist_count_ :=
       if hist_count_ d <? HIST_N then hist_count_ d + 1 else hist_count_ d |}.

(** [int] arithmetic of [detect_rapid_change]: [newest.bpm - old.bpm] and
    [std::abs] of it are computed on 32 bits.  A difference outside the
    range of [int] wraps around, and so does [std::abs(INT_MIN)], which
    stays [INT_MIN]. *)
Definition wrap_int (z : Z) : Z := (z + 2 ^ 31) mod 2 ^ 32 - 2 ^ 31.

Definition int_sub (a b : Z) : Z := wrap_int (a - b).

Definition int_abs (a : Z) : Z := wrap_int (Z.abs a).

(** The [for] loop of [detect_rapid_change], [n] iterations left, loop
    variable [i]. *)
Fixpoint rapid_loop (d : t) (newest : Hist) (n : nat) (i : Z) : bool :=
  match n with
  | O => false
  | S n' =>
      let idx := Z.rem (hist_wr_ d + HIST_N - 1 - i) HIST_N in
      let old := hist_at d idx in
      let dt := hist_t_ms newest - hist_t_ms old in
      if dt <=? 0 then rapid_loop d newest n' (i + 1)
      else if dt >? rapid_change_window_ms (cfg_ d) then false
      else
        let dbpm := int_abs (int_sub (hist_bpm newest) (hist_bpm old)) in
        if dbpm >=? rapid_change_delta_bpm (cfg_ d) then true
        else rapid_loop d newest n' (i + 1)
  end.

Definition detect_rapid_change (d : t) : bool :=
  if hist_count_ d <? 2 then false
  else
    let newest_idx := Z.rem (hist_wr_ d + HIST_N - 1) HIST_N in
    let newest := hist_at d newest_idx in
    rapid_loop d newest (Z.to_nat (hist_count_ d - 1)) 1.

Definition set_abnormal (d : t) (since : Z) (kind : AlarmType) : t :=
  {| cfg_ := cfg_ d;
     active_alarm_ := active_alarm_ d;
     last_t_ms_ := last_t_ms_ d;
     no_signal_since_ms_ := no_signal_since_ms_ d;
     abnormal_since_ms_ := since;
     abnormal_kind_ := kind;
     clear_since_ms_ := clear_since_ms_ d;
     hist_ := hist_ d;
     hist_wr_ := hist_wr_ d;
     hist_count_ := hist_count_ d |}.

(** The test [no_signal_since_ms_ != 0 &&
    (r.t_ms - no_signal_since_ms_) >= cfg_.no_signal_ms]. *)
Definition no_signal_sustained (d : t) (r : BpmReading) : bool :=
  negb (no_signal_since_ms_ d =? 0)
  && (t_ms r - no_signal_since_ms_ d >=? no_signal_ms (cfg_ d)).

(** The onset tracking of one abnormal kind (the two symmetric branches of
    step 2): restart the onset when none is pending or the kind changes. *)
Definition track_abnormal (d : t) (r : BpmReading) (kind : AlarmType) : t :=
  if (abnormal_since_ms_ d =? 0)
     || negb (AlarmType_eqb (abnormal_kind_ d) kind)
  then set_abnormal d (t_ms r) kind
  else d.

Definition sustained (d : t) (r : BpmReading) : bool :=
  t_ms r - abnormal_since_ms_ d >=? sustain_ms (cfg_ d).

(** Step 2 of [update] on a usable reading: the state with the abnormal
    onset updated, and the sustained bradycardia or tachycardia candidate. *)
Definition brady_tachy (d : t) (r : BpmReading) : t * AlarmType :=
  if (bpm r >? 0) && (bpm r <? brady_bpm (cfg_ d)) then
    let d1 := track_abnormal d r BRADYCARDIA in
    (d1, if sustained d1 r then BRADYCARDIA else NONE)
  else if bpm r >? tachy_bpm (cfg_ d) then
    let d1 := track_abnormal d r TACHYCARDIA in
    (d1, if sustained d1 r then TACHYCARDIA else NONE)
  else (set_abnormal d 0 NONE, NONE).

(** Lines 46-88 of [update], on the state after [push_hist]: the candidate
    of this tick before the clear hysteresis. *)
Definition classify (d : t) (r : BpmReading) : t * AlarmType :=
  if no_signal_sustained d r then (d, NO_SIGNAL)
  else if usable (cfg_ d) r then
    let '(d1, candidate) := brady_tachy d r in
    match candidate with
    | NONE => (d1, if detect_rapid_change d1 then RAPID_CHANGE else NONE)
    | _ => (d1, candidate)
    end
  else (set_abnormal d 0 NONE, NONE).

Definition set_clear_since (d : t) (v : Z) : t :=
  {| cfg_ := cfg_ d;
     active_alarm_ := active_alarm_ d;
     last_t_ms_ := last_t_ms_ d;
     no_signal_since_ms_ := no_signal_since_ms_ d;
     abnormal_since_ms_ := abnormal_since_ms_ d;
     abnormal_kind_ := abnormal_kind_ d;
     clear_since_ms_ := v;
     hist_ := hist_ d;
     hist_wr_ := hist_wr_ d;
     hist_count_ := hist_count_ d |}.

(** Lines 90-100 of [update]: the clear hysteresis. *)
Definition hysteresis (d : t) (r : BpmReading) (candidate : AlarmType)
  : t * AlarmType :=
  if negb (AlarmType_eqb (active_alarm_ d) NONE)
     && AlarmType_eqb candidate NONE
  then
    let d1 := if clear_since_ms_ d =? 0 then set_clear_since d (t_ms r)
              else d in
    if t_ms r - clear_since_ms_ d1 <? clear_ms (cfg_ d1)
    then (d1, active_alarm_ d1)
    else (set_clear_since d1 0, candidate)
  else (set_clear_since d 0, candidate).

Definition set_active_alarm (d : t) (a : AlarmType) : t :=
  {| cfg_ := cfg_ d;
     active_alarm_ := a;
     last_t_ms_ := last_t_ms_ d;
     no_signal_since_ms_ := no_signal_since_ms_ d;
     abnormal_since_ms_ := abnormal_since_ms_ d;
     abnormal_kind_ := abnormal_kind_ d;
     clear_since_ms_ := clear_since_ms_ d;
     hist_ := hist_ d;
     hist_wr_ := hist_wr_ d;
     hist_count_ := hist_count_ d |}.

(** Lines 102-112 of [update]: the state transition.  [Some ev] stands for
    [out_event] filled and [true] returned, [None] for [false]. *)
Definition transition (d : t) (r : BpmReading) (candidate : AlarmType)
  : t * option AlarmEvent :=
  if negb (AlarmType_eqb candidate (active_alarm_ d))
  then (set_active_alarm d candidate,
        Some (mkAlarmEvent candidate (bpm r) (quality r) (t_ms r)))
  else (d, None).

(** The candidate of a tick before the hysteresis, with the state at that
    point, and after it. *)
Definition raw_candidate (d : t) (r : BpmReading) : t * AlarmType :=
  classify (push_hist (track_no_signal d r) r) r.

Definition held_candidate (d : t) (r : BpmReading) : t * AlarmType :=
  let '(d1, candidate) := raw_candidate d r in
  hysteresis d1 r candidate.

Definition update (d : t) (r : BpmReading) : t * option AlarmEvent :=
  let '(d1, candidate) := held_candidate d r in
  transition d1 r candidate.

(** A detector driven by a sequence of readings: the final state and the
    result of every call, oldest first. *)
Fixpoint run (d : t) (rs : list BpmReading) : t * list (option AlarmEvent) :=
  match rs with
  | [] => (d, [])
  | r :: rs' =>
      let '(d1, ev) := update d r in
      let '(d2, evs) := run d1 rs' in
      (d2, ev :: evs)
  end.

End HrAnomalyDetector.

(** ** pulse_bpm.h, pulse_bpm.cpp *)

Module PulseBpm.

Inductive Result : Type :=
| NONE
| PROVISIONAL
| STABLE.

Definition Result_eqb (a b : Result) : bool :=
  match a, b with
  | NONE, NONE | PROVISIONAL, PROVISIONAL | STABLE, STABLE => true
  | _, _ => false
  end.

Definition IBI_BUF : Z := 5.

Definition BPM_MIN : Z := 40.
Definition BPM_MAX : Z := 180.
Definition IBI_MIN_MS : Z := Z.quot 60000 BPM_MAX.
Definition IBI_MAX_MS : Z := Z.quot 60000 BPM_MIN.

Definition LLONG_MAX : Z := 2 ^ 63 - 1.

(** The conversion of an [int64_t] to [int]: the value modulo [2^32] in the
    range of [int]. *)
Definition to_int (z : Z) : Z := (z + 2 ^ 31) mod 2 ^ 32 - 2 ^ 31.

Record t : Type := mkPulse {
  baseline_ : f32;
  lp_ : f32;
  env_inited_ : bool;
  env_min_ : f32;
  env_max_ : f32;
  last_beat_ms_ : Z;
  have_prev_ : bool;
  prev_filt_ : f32;
  prev_t_ms_ : Z;
  diff_prev_ : f32;
  ibi_buf_ : list Z;
  ibi_count_ : Z;
  p2p_ema_ : f32;
  noise_ema_ : f32;
  last_p2p_ : f32
}.

(** [reset] assigns every member, so the object it is called on does not
    matter. *)
Definition reset (initial_raw : Z) : t :=
  {| baseline_ := of_int initial_raw;
     lp_ := zero;
     env_inited_ := false;
     env_min_ := zero;
     env_max_ := zero;
     last_beat_ms_ := 0;
     have_prev_ := false;
     prev_filt_ := zero;
     prev_t_ms_ := 0;
     diff_prev_ := zero;
     ibi_buf_ := repeat 0 5;
     ibi_count_ := 0;
     p2p_ema_ := zero;
     noise_ema_ := zero;
     last_p2p_ := zero |}.

(** [v += alpha * (x - v)] *)
Definition ema (alpha v x : f32) : f32 := add v (mul alpha (sub x v)).

Definition decay : f32 := lit 1 100.

(** The new [env_min_] and [env_max_] of the tracking branch of
    [update_envelope]. *)
Definition track_min (env_min x : f32) : f32 :=
  if ltb x env_min then x else ema decay env_min x.

Definition track_max (env_max x : f32) : f32 :=
  if gtb x env_max then x else ema decay env_max x.

Definition set_envelope (p : t) (inited : bool) (lo hi : f32) : t :=
  {| baseline_ := baseline_ p;
     lp_ := lp_ p;
     env_inited_ := inited;
     env_min_ := lo;
     env_max_ := hi;
     last_beat_ms_ := last_beat_ms_ p;
     have_prev_ := have_prev_ p;
     prev_filt_ := prev_filt_ p;
     prev_t_ms_ := prev_t_ms_ p;
     diff_prev_ := diff_prev_ p;
     ibi_buf_ := ibi_buf_ p;
     ibi_count_ := ibi_count_ p;
     p2p_ema_ := p2p_ema_ p;
     noise_ema_ := noise_ema_ p;
     last_p2p_ := last_p2p_ p |}.

Definition update_envelope (p : t) (x : f32) : t :=
  if negb (env_inited_ p) then set_envelope p true x x
  else set_envelope p true (track_min (env_min_ p) x) (track_max (env_max_ p) x).

Fixpoint store (l : list Z) (i : nat) (v : Z) : list Z :=
  match l, i with
  | [], _ => []
  | _ :: l', O => v :: l'
  | x :: l', S i' => x :: store l' i' v
  end.

Definition set_ibi (p : t) (buf : list Z) (count : Z) : t :=
  {| baseline_ := baseline_ p;
     lp_ := lp_ p;
     env_inited_ := env_inited_ p;
     env_min_ := env_min_ p;
     env_max_ := env_max_ p;
     last_beat_ms_ := last_beat_ms_ p;
     have_prev_ := have_prev_ p;
     prev_filt_ := prev_filt_ p;
     prev_t_ms_ := prev_t_ms_ p;
     diff_prev_ := diff_prev_ p;
     ibi_buf_ := buf;
     ibi_count_ := count;
     p2p_ema_ := p2p_ema_ p;
     noise_ema_ := noise_ema_ p;
     last_p2p_ := last_p2p_ p |}.

Definition push_ibi (p : t) (ibi : Z) : t :=
  set_ibi p
    (store (ibi_buf_ p) (Z.to_nat (Z.rem (ibi_count_ p) IBI_BUF)) ibi)
    (ibi_count_ p + 1).

(** The first [n] slots of the ring, [n = min(ibi_count_, IBI_BUF)]: what
    the loops of [average_ibi] and [median_ibi] read. *)
Definition ibi_window (p : t) : list Z :=
  firstn (Z.to_nat (Z.min (ibi_count_ p) IBI_BUF)) (ibi_buf_ p).

Definition sum_Z (l : list Z) : Z := fold_left Z.add l 0.

Definition average_ibi (p : t) : Z :=
  let n := Z.min (ibi_count_ p) IBI_BUF in
  if n <=? 0 then 0
  else Z.quot (sum_Z (ibi_window p)) n.

(** [std::sort] on integers: the sorted arrangement, here by insertion. *)
Fixpoint insert_sorted (x : Z) (l : list Z) : list Z :=
  match l with
  | [] => [x]
  | y :: l' => if x <=? y then x :: l else y :: insert_sorted x l'
  end.

Fixpoint sort (l : list Z) : list Z :=
  match l with
  | [] => []
  | x :: l' => insert_sorted x (sort l')
  end.

Definition median_ibi (p : t) : Z :=
  let n := Z.min (ibi_count_ p) IBI_BUF in
  if n <=? 0 then 0
  else nth (Z.to_nat (Z.quot n 2)) (sort (ibi_window p)) 0.

Definition set_last_beat (p : t) (beat_ms : Z) : t :=
  {| baseline_ := baseline_ p;
     lp_ := lp_ p;
     env_inited_ := env_inited_ p;
     env_min_ := env_min_ p;
     env_max_ := env_max_ p;
     last_beat_ms_ := beat_ms;
     have_prev_ := have_prev_ p;
     prev_filt_ := prev_filt_ p;
     prev_t_ms_ := prev_t_ms_ p;
     diff_prev_ := diff_prev_ p;
     ibi_buf_ := ibi_buf_ p;
     ibi_count_ := ibi_count_ p;
     p2p_ema_ := p2p_ema_ p;
     noise_ema_ := noise_ema_ p;
     last_p2p_ := last_p2p_ p |}.

(** [ibi < IBI_MIN_MS || ibi > IBI_MAX_MS] *)
Definition out_of_range (ibi : Z) : bool :=
  (ibi <? IBI_MIN_MS) || (ibi >? IBI_MAX_MS).

(** The consistency gate: with three intervals on record and a positive
    median, [ratio < 0.85f || ratio > 1.20f] for
    [ratio = (float)ibi / (float)med]. *)
Definition ratio_rejected (ibi med : Z) : bool :=
  let ratio := div (of_int ibi) (of_int med) in
  ltb ratio (lit 85 100) || gtb ratio (lit 120 100).

Definition inconsistent (p : t) (ibi : Z) : bool :=
  (ibi_count_ p >=? 3)
  && (median_ibi p >? 0)
  && ratio_rejected ibi (median_ibi p).

(** [register_beat(beat_ms, out_bpm)]: the new state, the result and the
    value of [out_bpm] after the call. *)
Definition register_beat (p : t) (beat_ms : Z) (out_bpm : Z)
  : t * Result * Z :=
  if negb (last_beat_ms_ p =? 0) then
    let ibi := to_int (beat_ms - last_beat_ms_ p) in
    if out_of_range ibi then (set_last_beat p beat_ms, NONE, out_bpm)
    else if inconsistent p ibi then (set_last_beat p beat_ms, NONE, out_bpm)
    else
      let p1 := push_ibi p ibi in
      let avg := average_ibi p1 in
      if avg >? 0 then
        (set_last_beat p1 beat_ms,
         if ibi_count_ p1 <? 3 then PROVISIONAL else STABLE,
         Z.quot 60000 avg)
      else (set_last_beat p1 beat_ms, NONE, out_bpm)
  else (set_last_beat p beat_ms, NONE, out_bpm).

Definition alpha_base : f32 := lit 1 100.
Definition alpha_lp : f32 := lit 18 100.
Definition alpha_noise : f32 := lit 6 100.
Definition alpha_p2p : f32 := lit 4 100.
Definition THR_MIN : f32 := of_int 22.

Definition set_filters (p : t) (baseline lp : f32) : t :=
  {| baseline_ := baseline;
     lp_ := lp;
     env_inited_ := env_inited_ p;
     env_min_ := env_min_ p;
     env_max_ := env_max_ p;
     last_beat_ms_ := last_beat_ms_ p;
     have_prev_ := have_prev_ p;
     prev_filt_ := prev_filt_ p;
     prev_t_ms_ := prev_t_ms_ p;
     diff_prev_ := diff_prev_ p;
     ibi_buf_ := ibi_buf_ p;
     ibi_count_ := ibi_count_ p;
     p2p_ema_ := p2p_ema_ p;
     noise_ema_ := noise_ema_ p;
     last_p2p_ := last_p2p_ p |}.

Definition set_stats (p : t) (p2p_ema noise_ema last_p2p : f32) : t :=
  {| baseline_ := baseline_ p;
     lp_ := lp_ p;
     env_inited_ := env_inited_ p;
     env_min_ := env_min_ p;
     env_max_ := env_max_ p;
     last_beat_ms_ := last_beat_ms_ p;
     have_prev_ := have_prev_ p;
     prev_filt_ := prev_filt_ p;
     prev_t_ms_ := prev_t_ms_ p;
     diff_prev_ := diff_prev_ p;
     ibi_buf_ := ibi_buf_ p;
     ibi_count_ := ibi_count_ p;
     p2p_ema_ := p2p_ema;
     noise_ema_ := noise_ema;
     last_p2p_ := last_p2p |}.

Definition set_prev (p : t) (have : bool) (filt : f32) (t_ms : Z)
  (diff : f32) : t :=
  {| baseline_ := baseline_ p;
     lp_ := lp_ p;
     env_inited_ := env_inited_ p;
     env_min_ := env_min_ p;
     env_max_ := env_max_ p;
     last_beat_ms_ := last_beat_ms_ p;
     have_prev_ := have;
     prev_filt_ := filt;
     prev_t_ms_ := t_ms;
     diff_prev_ := diff;
     ibi_buf_ := ibi_buf_ p;
     ibi_count_ := ibi_count_ p;
     p2p_ema_ := p2p_ema_ p;
     noise_ema_ := noise_ema_ p;
     last_p2p_ := last_p2p_ p |}.

(** Steps 1 and 2 of [update]: baseline removal and low-pass.  The filtered
    sample [filt] is the new [lp_]. *)
Definition low_pass (p : t) (raw : Z) : t :=
  let baseline := ema alpha_base (baseline_ p) (of_int raw) in
  let ac := sub (of_int raw) baseline in
  set_filters p baseline (ema alpha_lp (lp_ p) ac).

(** Steps 1 to 5 of [update]: the filters, the envelope, the noise estimate
    and the smoothed amplitude. *)
Definition condition (p : t) (raw : Z) : t :=
  let p0 := low_pass p raw in
  let lp := lp_ p0 in
  let p1 := update_envelope p0 lp in
  let p2p := sub (env_max_ p1) (env_min_ p1) in
  let noise :=
    if have_prev_ p1
    then ema alpha_noise (noise_ema_ p1) (fabs (sub lp (prev_filt_ p1)))
    else noise_ema_ p1 in
  let p2p_ema :=
    if leb (p2p_ema_ p1) zero then p2p
    else ema alpha_p2p (p2p_ema_ p1) p2p in
  set_stats p1 p2p_ema noise p2p.

(** Step 6: the adaptive minimum amplitude. *)
Definition p2p_min_adapt (p : t) : f32 :=
  clampf (fmax (of_int 18) (mul (of_int 8) (noise_ema_ p)))
         (of_int 18) (of_int 80).

(** Step 7: the adaptive threshold. *)
Definition thr (p : t) : f32 :=
  fmax THR_MIN
       (fmax (mul (lit 26 100) (p2p_ema_ p)) (mul (of_int 6) (noise_ema_ p))).

(** Step 8: the quality score. *)
Definition quality_score (p : t) : f32 :=
  let q_amp := clampf (div (p2p_ema_ p) (of_int 140)) zero (of_int 1) in
  let q_noise :=
    clampf (sub (of_int 1) (div (noise_ema_ p) (of_int 25))) zero (of_int 1) in
  let q_stb :=
    clampf (div (of_int (Z.min (ibi_count_ p) 5)) (of_int 5))
           zero (of_int 1) in
  clampf (add (add (mul (lit 55 100) q_amp) (mul (lit 30 100) q_noise))
              (mul (lit 15 100) q_stb))
         zero (of_int 1).

(** The gates of step 9, on the state after [condition] and the new
    filtered sample. *)
Definition slope_was_up (p : t) : bool := gtb (diff_prev_ p) zero.

Definition slope_now_down (p : t) (filt : f32) : bool :=
  leb (sub filt (prev_filt_ p)) zero.

Definition since_last (p : t) : Z :=
  if last_beat_ms_ p =? 0 then LLONG_MAX
  else prev_t_ms_ p - last_beat_ms_ p.

Definition refractory_ok (p : t) : bool := since_last p >=? IBI_MIN_MS.

Definition above_threshold (p : t) : bool := gtb (prev_filt_ p) (thr p).

Definition prominent_enough (p : t) : bool :=
  gtb (sub (prev_filt_ p) (env_min_ p)) (mul (lit 50 100) (p2p_ema_ p)).

(** The local [beat] of [update]. *)
Definition beat (p : t) (filt : f32) : bool :=
  if refractory_ok p && slope_was_up p && slope_now_down p filt
  then above_threshold p && prominent_enough p
  else false.

(** [update(raw, t_ms, out_bpm, out_quality)]: the new state, the result,
    and the values of [out_bpm] and [out_quality] after the call. *)
Definition update (p : t) (raw t_ms : Z) (out_bpm : Z) (out_quality : f32)
  : t * Result * Z * f32 :=
  let p1 := condition p raw in
  let filt := lp_ p1 in
  let q := quality_score p1 in
  if negb (env_inited_ p1) || ltb (p2p_ema_ p1) (p2p_min_adapt p1) then
    (set_prev p1 false (prev_filt_ p1) (prev_t_ms_ p1) (diff_prev_ p1),
     NONE, out_bpm, q)
  else if negb (have_prev_ p1) then
    (set_prev p1 true filt t_ms zero, NONE, out_bpm, q)
  else
    let b := beat p1 filt in
    let p2 := set_prev p1 (have_prev_ p1) filt t_ms
                       (sub filt (prev_filt_ p1)) in
    if negb b then (p2, NONE, out_bpm, q)
    else
      let '(p3, res, bpm') := register_beat p2 (prev_t_ms_ p2) out_bpm in
      (p3, res, bpm', q).

(** One acquisition: a raw sample and its time. *)
Record Sample : Type := mkSample {
  s_raw : Z;
  s_t_ms : Z
}.

(** The estimator driven by a sequence of samples the way [sampler_task]
    does, each call with [bpm = 0] and [q = 0.0f] passed in: the final state
    and the result and [out_bpm] of every call, oldest first. *)
Fixpoint run (p : t) (ss : list Sample) : t * list (Result * Z) :=
  match ss with
  | [] => (p, [])
  | s :: ss' =>
      let '(p1, res, bpm', _) := update p (s_raw s) (s_t_ms s) 0 zero in
      let '(p2, out) := run p1 ss' in
      (p2, (res, bpm') :: out)
  end.

End PulseBpm.

(** ** Notions used to state the properties *)

Module DetectorSpec.

Import HrAnomalyDetector.

(** The kinds of the events a run returned, oldest first. *)
Definition event_kinds (evs : list (option AlarmEvent)) : list AlarmType :=
  flat_map (fun o => match o with
                     | Some ev => [ev_type ev]
                     | None => []
                     end) evs.

(** Every kind of the list differs from the one before it, the first from
    [a]: no event repeats the state it follows. *)
Fixpoint changes_each_time (a : AlarmType) (ks : list AlarmType) : Prop :=
  match ks with
  | [] => True
  | k :: ks' => k <> a /\ changes_each_time k ks'
  end.

(** The entry of the history ring [i] steps behind the newest one, its age
    and its bpm difference relative to the newest entry: [jump] as
    [detect_rapid_change] computes it, on 32 bits, and [true_jump], the
    difference of the two numbers. *)
Definition entry (d : t) (i : Z) : Hist :=
  hist_at d (Z.rem (hist_wr_ d + HIST_N - 1 - i) HIST_N).

Definition age (d : t) (i : Z) : Z :=
  hist_t_ms (entry d 0) - hist_t_ms (entry d i).

Definition jump (d : t) (i : Z) : Z :=
  int_abs (int_sub (hist_bpm (entry d 0)) (hist_bpm (entry d i))).

Definition true_jump (d : t) (i : Z) : Z :=
  Z.abs (hist_bpm (entry d 0) - hist_bpm (entry d i)).

(** The backward scan finds a rapid change at step [i]: entry [i] is
    strictly older than the newest, within the 5000 ms window, differs by 35
    bpm or more as the code computes the difference, and no entry scanned
    before it lies outside the window. *)
Definition scan_hit (d : t) (i : Z) : Prop :=
  1 <= i < hist_count_ d /\
  0 < age d i <= 5000 /\
  35 <= jump d i /\
  forall j, 1 <= j < i -> age d j <= 5000.


(** The state whose history ring [classify] scans on reading [r]. *)
Definition pushed (d : t) (r : BpmReading) : t :=
  push_hist (track_no_signal d r) r.


(** A reading that feeds the no-signal tracking, under the default
    configuration: [quality < 0.25f] or [bpm <= 0]. *)
Definition bad (r : BpmReading) : Prop := bad_reading default_Config r = true.

(** The no-signal rule as the specification words it: bad readings from
    [r1] to [r], at least 3000 ms apart, make the candidate at [r]
    [NO_SIGNAL], whatever was read before. *)
Definition no_signal_rule_as_specified : Prop :=
  forall (pre rest : list BpmReading) (r1 r : BpmReading),
    Forall bad (r1 :: rest ++ [r]) ->
    3000 <= t_ms r - t_ms r1 ->
    snd (raw_candidate (fst (run init (pre ++ r1 :: rest))) r) = NO_SIGNAL.

(** Readings arrive with times that never decrease, none before [t0]. *)
Fixpoint times_from (t0 : Z) (rs : list BpmReading) : Prop :=
  match rs with
  | [] => True
  | r :: rs' => t0 <= t_ms r /\ times_from (t_ms r) rs'
  end.

(** The time of the last reading of [rs], [t0] when there is none. *)
Fixpoint last_time (t0 : Z) (rs : list BpmReading) : Z :=
  match rs with
  | [] => t0
  | r :: rs' => last_time (t_ms r) rs'
  end.

(** The candidate before hysteresis is [NONE] at every reading of [rs],
    the detector starting in [d]. *)
Fixpoint quiet (d : t) (rs : list BpmReading) : Prop :=
  match rs with
  | [] => True
  | r :: rs' =>
      snd (raw_candidate d r) = NONE /\ quiet (fst (update d r)) rs'
  end.

(** What holds of a default-configured detector fed readings with
    non-negative, non-decreasing times: the ring is well formed, the stored
    times are non-negative, and an alarm can be active only after a reading
    with a positive time. *)
Record time_inv (d : t) : Prop := mkTimeInv {
  inv_cfg : cfg_ d = default_Config;
  inv_len : length (hist_ d) = 8%nat;
  inv_wr : 0 <= hist_wr_ d < 8;
  inv_last : 0 <= last_t_ms_ d;
  inv_no_signal : 0 <= no_signal_since_ms_ d;
  inv_abnormal : 0 <= abnormal_since_ms_ d;
  inv_hist : Forall (fun h => 0 <= hist_t_ms h) (hist_ d);
  inv_active : active_alarm_ d <> NONE -> 0 < last_t_ms_ d
}.

End DetectorSpec.

Module PulseSpec.

Import PulseBpm.

(** [update] gets past the validity gate and the first-sample arming and
    its local [beat] is set: the call goes on to [register_beat]. *)
Definition registers_beat (p : t) (raw : Z) : bool :=
  let p1 := condition p raw in
  negb (negb (env_inited_ p1) || ltb (p2p_ema_ p1) (p2p_min_adapt p1))
  && have_prev_ p1
  && beat p1 (lp_ p1).

(** The state [register_beat] is called on: [condition] done and the
    previous-sample members updated. *)
Definition at_peak (p : t) (raw t_ms : Z) : t :=
  let p1 := condition p raw in
  set_prev p1 (have_prev_ p1) (lp_ p1) t_ms (sub (lp_ p1) (prev_filt_ p1)).

(** The members [register_beat] reads and writes are those of [p]. *)
Definition same_beat_state (p p' : t) : Prop :=
  last_beat_ms_ p' = last_beat_ms_ p /\
  ibi_buf_ p' = ibi_buf_ p /\
  ibi_count_ p' = ibi_count_ p.

Definition in_range (ibi : Z) : Prop := 333 <= ibi <= 1500.

(** The ring has its five slots and the intervals on record, the slots
    [average_ibi] and [median_ibi] read, are physiological. *)
Definition intervals_valid (p : t) : Prop :=
  length (ibi_buf_ p) = 5%nat /\ Forall in_range (ibi_window p).

(** The rejection rule as the specification words it, on the time elapsed
    between the two beats: [update] has a beat to register at time [t_ms],
    a beat was registered before and the ring holds intervals of
    [[333, 1500]]; if the time since the last beat is outside [[333, 1500]]
    or, with three intervals on record, its ratio to the median is outside
    [[0.85, 1.20]], the beat is rejected. *)
Definition rejection_as_specified : Prop :=
  forall (p : t) (raw t_ms out_bpm : Z) (out_quality : f32),
    registers_beat p raw = true ->
    last_beat_ms_ p <> 0 ->
    intervals_valid p ->
    let ibi := t_ms - last_beat_ms_ p in
    let out := update p raw t_ms out_bpm out_quality in
    ibi < 333 \/ 1500 < ibi \/
    (3 <= ibi_count_ p /\
     (ltb (div (of_int ibi) (of_int (median_ibi p))) (lit 85 100)
      || gtb (div (of_int ibi) (of_int (median_ibi p))) (lit 120 100)) = true)
    ->
    snd (fst (fst out)) = NONE /\
    ibi_buf_ (fst (fst (fst out))) = ibi_buf_ p /\
    ibi_count_ (fst (fst (fst out))) = ibi_count_ p /\
    last_beat_ms_ (fst (fst (fst out))) = t_ms.

(** The intervals [update] accepted over the samples [ss], newest first,
    added to [acc]: a call that returns [PROVISIONAL] or [STABLE] at time
    [t] accepts the interval from the last beat to [t], as the [int] it is
    converted to. *)
Definition step_accepted (p : t) (s : Sample) (acc : list Z) : list Z :=
  match snd (fst (fst (update p (s_raw s) (s_t_ms s) 0 zero))) with
  | NONE => acc
  | _ => to_int (s_t_ms s - last_beat_ms_ p) :: acc
  end.

Fixpoint accepted (p : t) (ss : list Sample) (acc : list Z) : list Z :=
  match ss with
  | [] => acc
  | s :: ss' =>
      accepted (fst (fst (fst (update p (s_raw s) (s_t_ms s) 0 zero)))) ss'
               (step_accepted p s acc)
  end.

(** The bpm of the specification: 60000 over the average of the intervals,
    rounded to the nearest integer. *)
Definition average (w : list Z) : Q :=
  (inject_Z (sum_Z w) / inject_Z (Z.of_nat (length w)))%Q.

Definition round (q : Q) : Z := Qfloor (q + (1 # 2))%Q.

Definition bpm_rounded (w : list Z) : Z :=
  round (inject_Z 60000 / average w)%Q.

(** The bpm of an accepted beat as the specification words it, [w] being
    the last five (or fewer) intervals accepted since [reset]. *)
Definition bpm_as_specified : Prop :=
  forall (initial_raw : Z) (ss : list Sample) (s : Sample),
    let p := fst (run (reset initial_raw) ss) in
    let out := update p (s_raw s) (s_t_ms s) 0 zero in
    let w := firstn 5 (accepted (reset initial_raw) (ss ++ [s]) []) in
    snd (fst (fst out)) <> NONE ->
    snd (fst out) = bpm_rounded w /\ Forall in_range w.

(** The slot of the ring written after [n] accepted intervals. *)
Definition slot (n : nat) : nat := Z.to_nat (Z.rem (Z.of_nat n) IBI_BUF).

(** The ring against the accepted intervals [acc], newest first: filled in
    order from slot 0 until it is full, then the last five in order of
    arrival, rotated so that the oldest sits in the slot written next. *)
Definition rot (k : nat) (l : list Z) : list Z :=
  skipn (5 - k) l ++ firstn (5 - k) l.

Definition ring_rel (buf acc : list Z) : Prop :=
  match acc with
  | e :: d :: c :: b :: a :: _ => buf = rot (slot (length acc)) [a; b; c; d; e]
  | _ => buf = rev acc ++ repeat 0 (5 - length acc)
  end.

Record ibi_inv (p : t) (acc : list Z) : Prop := mkIbiInv {
  inv_count : ibi_count_ p = Z.of_nat (length acc);
  inv_range : Forall in_range acc;
  inv_ring : ring_rel (ibi_buf_ p) acc
}.

(** A raw sample is an [int]. *)
Definition int_range (n : Z) : Prop := - 2 ^ 31 <= n < 2 ^ 31.

(** The binary32 number [2^k], for [k] between -126 and 127. *)
Definition pow2 (k : Z) : f32 := S754_finite false 8388608 (k - 23).

(** [x] is zero or finite and canonical, of magnitude at most that of
    [b]. *)
Definition within (b x : f32) : Prop :=
  F32Spec.nice x /\ Z.abs (F32Spec.val x) <= F32Spec.val b.

(** The filters of a state reached from [reset] on [int] samples stay
    finite: the baseline within [2^31], the low-pass value and the envelope
    within [2^32]. *)
Record filter_inv (p : t) : Prop := mkFilterInv {
  inv_baseline : within (pow2 31) (baseline_ p);
  inv_lp : within (pow2 32) (lp_ p);
  inv_env_min : within (pow2 32) (env_min_ p);
  inv_env_max : within (pow2 32) (env_max_ p)
}.

(** A triangular pulse wave around 2000: period [P] ms, height [A], rising
    for a quarter of the period; and its first [n] samples, 10 ms apart
    from 10 ms on. *)
Definition tri (P A t : Z) : Z :=
  let ph := t mod P in
  if ph <? P / 4 then 2000 + (A * ph) / (P / 4)
  else 2000 + A - (A * (ph - P / 4)) / (3 * P / 4).

Definition wave (P A : Z) (n : nat) : list Sample :=
  map (fun k => let t := 10 * Z.of_nat k + 10 in mkSample (tri P A t) t)
      (seq 0 n).

End PulseSpec.

(** ** Notions used to state the further properties *)

Module EstimatorSpec.

Import PulseBpm.

(** The calls of a run that reported a beat: result [PROVISIONAL] or
    [STABLE]. *)
Definition beats_reported (outs : list (Result * Z)) : nat :=
  length (filter (fun o => negb (Result_eqb (fst o) NONE)) outs).

(** How many entries of [l] are below, and above, [m]. *)
Definition count_lt (m : Z) (l : list Z) : nat :=
  length (filter (fun x => x <? m) l).

Definition count_gt (m : Z) (l : list Z) : nat :=
  length (filter (fun x => m <? x) l).

End EstimatorSpec.

Module FloatClass.

(** Classes of binary32 numbers. *)
Definition is_nan (x : f32) : bool :=
  match x with S754_nan => true | _ => false end.

Definition finite (x : f32) : bool :=
  match x with S754_zero _ | S754_finite _ _ _ => true | _ => false end.

(** A zero, a positive number or plus infinity. *)
Definition nonneg (x : f32) : Prop :=
  match x with
  | S754_zero _ | S754_finite false _ _ | S754_infinity false => True
  | _ => False
  end.

End FloatClass.

Module SignalSpec.

Import PulseBpm PulseSpec.

(** [x] is within [b] and not negative. *)
Definition nonneg_within (b x : f32) : Prop :=
  within b x /\ 0 <= F32Spec.val x.

(** The float members of a state reached from [reset] on [int] samples:
    the filters as in [filter_inv], the previous sample within [2^32], its
    slope within [2^33], the amplitude and noise estimates within [2^33]
    and not negative, and the envelope minimum not above the maximum. *)
Record signal_inv (p : t) : Prop := mkSignalInv {
  inv_filter : filter_inv p;
  inv_prev_filt : within (pow2 32) (prev_filt_ p);
  inv_diff_prev : within (pow2 33) (diff_prev_ p);
  inv_p2p_ema : nonneg_within (pow2 33) (p2p_ema_ p);
  inv_noise_ema : nonneg_within (pow2 33) (noise_ema_ p);
  inv_last_p2p : nonneg_within (pow2 33) (last_p2p_ p);
  inv_env_order : F32Spec.val (env_min_ p) <= F32Spec.val (env_max_ p)
}.

End SignalSpec.

Module AlarmSpec.

Import HrAnomalyDetector DetectorSpec.

(** The history ring has its eight slots and a write index inside it. *)
Definition ring_wf (d : t) : Prop :=
  length (hist_ d) = 8%nat /\ 0 <= hist_wr_ d < 8 /\ 0 <= hist_count_ d <= 8.

(** What [push_hist] stores of a reading. *)
Definition hist_of (r : BpmReading) : Hist := mkHist (bpm r) (t_ms r).

(** A reading that feeds the onset of [k], under the default configuration:
    usable, and of a positive bpm below 45 for [BRADYCARDIA], of a bpm above
    130 for [TACHYCARDIA]. *)
Definition abnormal_reading (k : AlarmType) (r : BpmReading) : Prop :=
  usable default_Config r = true /\
  match k with
  | BRADYCARDIA => 0 < bpm r < 45
  | TACHYCARDIA => 130 < bpm r
  | _ => False
  end.

(** A usable reading of a rate in [[45, 130]]. *)
Definition normal_reading (r : BpmReading) : Prop :=
  usable default_Config r = true /\ 45 <= bpm r <= 130.

(** A default-configured detector with no alarm active whose history
    entries all have a bpm in [[lo, lo + 35)]. *)
Definition steady (lo : Z) (d : t) : Prop :=
  cfg_ d = default_Config /\ active_alarm_ d = NONE /\ ring_wf d /\
  forall i, 0 <= i < hist_count_ d -> lo <= hist_bpm (entry d i) < lo + 35.

End AlarmSpec.

(** ** heart_monitor_tasks.cpp

    The pure helpers of the file and the loops of the sampler and detector
    tasks, one iteration at a time: what the iteration reads from the
    outside (the converter, the clock, a queue) is an argument, what it
    writes to a queue a result. *)

Module HeartMonitorTasks.

Definition SAMPLE_PERIOD_MS : Z := 10.
Definition WARMUP_MS : Z := 1500.
Definition SETTLING_TIME_MS : Z := 1500.
Definition RAW_NEAR_ZERO : Z := 50.
Definition STEP_TRANSIENT : Z := 600.

(** [median5]: the middle of the five values sorted. *)
Definition median5 (a b c d e : Z) : Z :=
  nth 2 (PulseBpm.sort [a; b; c; d; e]) 0.

Definition is_critical_alarm (t : AlarmType) : bool :=
  negb (AlarmType_eqb t NONE) && negb (AlarmType_eqb t NO_SIGNAL).

(** *** sampler_task

    The locals of the task that live across iterations, and one iteration
    of its loop on the raw value [read_adc_median5()] returned and the time
    [now_ms()] returned; [Some r] stands for the reading written to the
    queue. *)
Inductive RunState : Type :=
| BOOT_WARMUP
| SETTLING
| RUNNING.

Record Sampler : Type := mkSampler {
  estimator : PulseBpm.t;
  state : RunState;
  warmup_until : Z;
  settling_until : Z;
  last_raw : Z
}.

(** The task up to its loop: [raw0] is the first raw value read and [now]
    the time. *)
Definition sampler_init (raw0 now : Z) : Sampler :=
  {| estimator := PulseBpm.reset raw0;
     state := BOOT_WARMUP;
     warmup_until := now + WARMUP_MS;
     settling_until := 0;
     last_raw := raw0 |}.

Definition contact_transient (s : Sampler) (raw : Z) : bool :=
  (raw <? RAW_NEAR_ZERO) || (Z.abs (raw - last_raw s) >? STEP_TRANSIENT).

Definition settle (s : Sampler) (raw t : Z) : Sampler :=
  {| estimator := estimator s;
     state := SETTLING;
     warmup_until := warmup_until s;
     settling_until := t + SETTLING_TIME_MS;
     last_raw := raw |}.

Definition set_last_raw (s : Sampler) (raw : Z) : Sampler :=
  {| estimator := estimator s;
     state := state s;
     warmup_until := warmup_until s;
     settling_until := settling_until s;
     last_raw := raw |}.

Definition set_estimator (s : Sampler) (e : PulseBpm.t) (st : RunState)
  : Sampler :=
  {| estimator := e;
     state := st;
     warmup_until := warmup_until s;
     settling_until := settling_until s;
     last_raw := last_raw s |}.

Definition sampler_step (s : Sampler) (raw t : Z)
  : Sampler * option BpmReading :=
  let transient := contact_transient s raw in
  match state s with
  | BOOT_WARMUP =>
      if t >=? warmup_until s then (settle s raw t, None)
      else (set_last_raw s raw, None)
  | _ =>
      let s1 := if transient then settle s raw t else set_last_raw s raw in
      match state s1 with
      | SETTLING =>
          if t >=? settling_until s1
          then (set_estimator s1 (PulseBpm.reset raw) RUNNING, None)
          else (s1, None)
      | _ =>
          let '(e, res, bpm, q) :=
            PulseBpm.update (estimator s1) raw t 0 zero in
          (set_estimator s1 e (state s1),
           match res with
           | PulseBpm.NONE => None
           | _ => Some (mkBpmReading bpm q
                          (PulseBpm.Result_eqb res PulseBpm.STABLE) t)
           end)
      end
  end.

(** The loop over a sequence of acquisitions: the final locals and what
    each iteration wrote to the queue. *)
Fixpoint sampler_run (s : Sampler) (ss : list PulseBpm.Sample)
  : Sampler * list (option BpmReading) :=
  match ss with
  | [] => (s, [])
  | x :: ss' =>
      let '(s1, o) := sampler_step s (PulseBpm.s_raw x) (PulseBpm.s_t_ms x) in
      let '(s2, os) := sampler_run s1 ss' in
      (s2, o :: os)
  end.

(** *** detector_task

    The locals of the task and one iteration of its loop at time [tnow],
    [peek] being what [xQueuePeek] found in the queue of readings;
    [Some ev] stands for the event written to the alarm queue. *)
Record DetectorTask : Type := mkDetectorTask {
  detector : HrAnomalyDetector.t;
  last : BpmReading;
  have_last : bool
}.

Definition detector_task_init : DetectorTask :=
  {| detector := HrAnomalyDetector.init;
     last := mkBpmReading 0 zero false 0;
     have_last := false |}.

(** The reading [in] the detector is ticked with. *)
Definition tick_input (have : bool) (l : BpmReading) (tnow : Z)
  : BpmReading :=
  if negb have then mkBpmReading 0 zero false tnow
  else if tnow - t_ms l >? 3000 then mkBpmReading 0 zero false tnow
  else mkBpmReading (bpm l) (quality l) (stable l) tnow.

Definition latest (s : DetectorTask) (peek : option BpmReading)
  : BpmReading * bool :=
  match peek with
  | Some r => (r, true)
  | None => (last s, have_last s)
  end.

Definition detector_step (s : DetectorTask) (tnow : Z)
  (peek : option BpmReading) : DetectorTask * option AlarmEvent :=
  let '(l, have) := latest s peek in
  let '(d, ev) :=
    HrAnomalyDetector.update (detector s) (tick_input have l tnow) in
  ({| detector := d; last := l; have_last := have |}, ev).

Fixpoint detector_run (s : DetectorTask)
  (ticks : list (Z * option BpmReading))
  : DetectorTask * list (option AlarmEvent) :=
  match ticks with
  | [] => (s, [])
  | (tnow, peek) :: ticks' =>
      let '(s1, ev) := detector_step s tnow peek in
      let '(s2, evs) := detector_run s1 ticks' in
      (s2, ev :: evs)
  end.

End HeartMonitorTasks.

Module TasksSpec.

Import HeartMonitorTasks.

(** How many of the entries of [l] lie in [[lo, hi]]. *)
Definition count_in (lo hi : Z) (l : list Z) : nat :=
  length (filter (fun x => (lo <=? x) && (x <=? hi)) l).

(** The estimator of the task is in a state that [reset] and [update]
    lead to: its ring matches some history of accepted intervals and its
    float members are within their bounds. *)
Definition sampler_ok (s : Sampler) : Prop :=
  (exists acc, PulseSpec.ibi_inv (estimator s) acc) /\
  SignalSpec.signal_inv (estimator s).

(** Nothing is written to the queue before time [T]: what holds of the
    locals of the task for that, [t0] being a lower bound of the times to
    come. *)
Definition quiet_before (T t0 : Z) (s : Sampler) : Prop :=
  match state s with
  | BOOT_WARMUP => T <= warmup_until s + SETTLING_TIME_MS
  | SETTLING => T <= settling_until s /\ T <= t0 + SETTLING_TIME_MS
  | RUNNING => T <= t0
  end.

(** Every reading of [os] has a time of [T] or later. *)
Definition none_before (T : Z) (os : list (option BpmReading)) : Prop :=
  Forall (fun o => forall rd, o = Some rd -> T <= t_ms rd) os.

(** The samples [ss], each [dt] later. *)
Definition later (dt : Z) (ss : list PulseBpm.Sample) : list PulseBpm.Sample :=
  map (fun x => PulseBpm.mkSample (PulseBpm.s_raw x) (PulseBpm.s_t_ms x + dt))
      ss.

(** The acquisitions of the instances below: one at 1500 ms that ends the
    warm-up, one at 3000 ms that ends the settling, then the first 93
    samples of the 700 ms triangular wave. *)
Definition boot_then_wave : list PulseBpm.Sample :=
  PulseBpm.mkSample 2000 1500 :: PulseBpm.mkSample 2000 3000
  :: later 3000 (PulseSpec.wave 700 400 93).

(** The reading a tick with nothing fresh is given. *)
Definition no_reading (tnow : Z) : BpmReading := mkBpmReading 0 zero false tnow.

(** Acquisition times never decrease, none before [t0]. *)
Fixpoint ascending (t0 : Z) (ss : list PulseBpm.Sample) : Prop :=
  match ss with
  | [] => True
  | x :: ss' => t0 <= PulseBpm.s_t_ms x /\ ascending (PulseBpm.s_t_ms x) ss'
  end.

(** The reading of a tick is missing or more than 3000 ms old, at every
    tick of [ticks], the task starting in [s]. *)
Fixpoint all_stale (s : DetectorTask) (ticks : list (Z * option BpmReading))
  : Prop :=
  match ticks with
  | [] => True
  | (tnow, peek) :: ticks' =>
      (snd (latest s peek) = false \/ 3000 < tnow - t_ms (fst (latest s peek)))
      /\ all_stale (fst (detector_step s tnow peek)) ticks'
  end.

End TasksSpec.

(** ** lcd2004_liquidcrystal_i2c.h, lcd2004_liquidcrystal_i2c.cpp

    The driver of the display behind a PCF8574 expander, from
    [expander_write] up; [init] and the destructor, which set up and tear
    down the I2C master, are left out.  The I2C master is the world the
    driver acts on: the bytes handed to [i2c_master_transmit], in order,
    and the result of every transmission, which the driver does not
    control.  A member function is a computation on the object and that
    world. *)

Module Lcd2004.

Definition esp_err_t : Type := Z.
Definition ESP_OK : esp_err_t := 0.

Definition MASK_RS : Z := 1.
Definition MASK_RW : Z := 2.
Definition MASK_EN : Z := 4.
Definition MASK_BL : Z := 8.

Definition LCD_CLEARDISPLAY : Z := 1.
Definition LCD_SETCGRAMADDR : Z := 64.
Definition LCD_SETDDRAMADDR : Z := 128.

(** [(uint8_t)x] *)
Definition u8 (x : Z) : Z := x mod 256.

Record t : Type := mkLcd {
  addr_ : Z;
  cols_ : Z;
  rows_ : Z;
  backlight_ : bool;
  tx_byte_ : Z
}.

(** [Lcd2004LiquidCrystalI2c(addr, cols, rows)] *)
Definition make (addr cols rows : Z) : t :=
  {| addr_ := addr; cols_ := cols; rows_ := rows;
     backlight_ := true; tx_byte_ := 0 |}.

Record I2c : Type := mkI2c {
  sent : list Z;
  result : nat -> esp_err_t
}.

Definition M (A : Type) : Type := t * I2c -> A * (t * I2c).

Definition ret {A : Type} (a : A) : M A := fun s => (a, s).

Definition bind {A B : Type} (m : M A) (f : A -> M B) : M B :=
  fun s => let '(a, s') := m s in f a s'.

(** [err = m; if (err != ESP_OK) return err; k] *)
Definition and_then (m k : M esp_err_t) : M esp_err_t :=
  bind m (fun err => if err =? ESP_OK then k else ret err).

Notation "m ;; k" := (and_then m k) (at level 61, right associativity).

(** [i2c_master_transmit(dev_, &tx_byte_, 1, 200)]: one byte handed to the
    bus; the result is that of the transmission of this rank. *)
Definition i2c_master_transmit : M esp_err_t :=
  fun '(l, w) =>
    (result w (length (sent w)),
     (l, {| sent := sent w ++ [tx_byte_ l]; result := result w |})).

Definition set_tx_byte (data : Z) : M unit :=
  fun '(l, w) =>
    (tt, ({| addr_ := addr_ l; cols_ := cols_ l; rows_ := rows_ l;
             backlight_ := backlight_ l; tx_byte_ := data |}, w)).

Definition set_backlight (on : bool) : M unit :=
  fun '(l, w) =>
    (tt, ({| addr_ := addr_ l; cols_ := cols_ l; rows_ := rows_ l;
             backlight_ := on; tx_byte_ := tx_byte_ l |}, w)).

Definition expander_write (data : Z) : M esp_err_t :=
  fun '(l, w) =>
    let data1 := Z.land data (u8 (Z.lnot MASK_RW)) in
    let data2 := if backlight_ l then Z.lor data1 MASK_BL
                 else Z.land data1 (u8 (Z.lnot MASK_BL)) in
    bind (set_tx_byte data2) (fun _ => i2c_master_transmit) (l, w).

Definition pulseEnable (value : Z) : M esp_err_t :=
  expander_write (u8 (Z.lor value MASK_EN)) ;;
  expander_write (u8 (Z.land value (u8 (Z.lnot MASK_EN)))) ;;
  ret ESP_OK.

Definition write4bits (value : Z) : M esp_err_t :=
  expander_write value ;; pulseEnable value.

Definition send (value mode : Z) : M esp_err_t :=
  let high := u8 (Z.land value 240) in
  let low := u8 (Z.land (Z.shiftl value 4) 240) in
  write4bits (u8 (Z.lor high mode)) ;; write4bits (u8 (Z.lor low mode)).

Definition command (value : Z) : M esp_err_t := send value 0.
Definition write (value : Z) : M esp_err_t := send value MASK_RS.

Definition backlight (on : bool) : M unit :=
  bind (set_backlight on) (fun _ => bind (expander_write 0) (fun _ => ret tt)).

Definition clear : M esp_err_t := command LCD_CLEARDISPLAY.

(** [std::clamp(v, lo, hi)] *)
Definition clamp (v lo hi : Z) : Z :=
  if v <? lo then lo else if hi <? v then hi else v.

Definition row_offsets : list Z := [0; 64; 20; 84].

(** An index past the four offsets reads outside the array; the model
    gives 0 there, and the properties below are stated for at most four
    rows. *)
Definition setCursor (col row : Z) : M esp_err_t :=
  fun '(l, w) =>
    let row := clamp row 0 (rows_ l - 1) in
    let col := clamp col 0 (cols_ l - 1) in
    command (u8 (Z.lor LCD_SETDDRAMADDR
                       (nth (Z.to_nat row) row_offsets 0 + col))) (l, w).

(** A C string is the list of its characters, as [uint8_t] values, without
    the terminating zero; [None] is the null pointer. *)
Fixpoint print_chars (s : list Z) : M esp_err_t :=
  match s with
  | [] => ret ESP_OK
  | c :: s' => write c ;; print_chars s'
  end.

Definition print (s : option (list Z)) : M esp_err_t :=
  match s with
  | None => ret ESP_OK
  | Some cs => print_chars cs
  end.

(** The buffer of [printLine]: twenty spaces, the first
    [min(20, strlen(s))] of them overwritten with the characters of [s]. *)
Definition line_buf (s : option (list Z)) : list Z :=
  match s with
  | None => repeat 32 20
  | Some cs =>
      let n := Nat.min 20 (length cs) in
      firstn n cs ++ skipn n (repeat 32 20)
  end.

Definition printLine (row : Z) (s : option (list Z)) : M esp_err_t :=
  setCursor 0 row ;; print (Some (line_buf s)).

Definition createChar (location : Z) (charmap : list Z) : M esp_err_t :=
  let location := Z.land location 7 in
  command (u8 (Z.lor LCD_SETCGRAMADDR (Z.shiftl location 3))) ;;
  print_chars (firstn 8 charmap).

Definition writeChar (ch : Z) : M esp_err_t := write ch.

End Lcd2004.

Module LcdSpec.

Import Lcd2004.

(** The display controller behind the expander (RS on P0, RW on P1, EN on
    P2, backlight on P3, D4..D7 on P4..P7) latches RS and the four data
    lines on the falling edge of EN.  [latched prev bytes]: what it latches
    over the bytes written to the expander, [prev] being the byte written
    before them. *)
Fixpoint latched (prev : Z) (bytes : list Z) : list (bool * Z) :=
  match bytes with
  | [] => []
  | b :: bs =>
      if Z.testbit prev 2 && negb (Z.testbit b 2)
      then (Z.testbit prev 0, Z.shiftr prev 4) :: latched b bs
      else latched b bs
  end.

(** In 4-bit mode two nibbles make a byte, the high one first. *)
Fixpoint bytes_of (ns : list (bool * Z)) : list (bool * Z) :=
  match ns with
  | (rs, hi) :: (_, lo) :: ns' => (rs, 16 * hi + lo) :: bytes_of ns'
  | _ => []
  end.

(** What the display receives over [bytes], EN being low before: commands
    ([false]) and data ([true]). *)
Definition received (bytes : list Z) : list (bool * Z) :=
  bytes_of (latched 0 bytes).

(** The display is at a byte boundary after the traffic [bytes]: it has
    latched an even number of nibbles, and EN is low. *)
Definition in_phase (bytes : list Z) : Prop :=
  Nat.even (length (latched 0 bytes)) = true /\
  Z.testbit (last bytes 0) 2 = false.

(** [ESP_FAIL] *)
Definition ESP_FAIL : esp_err_t := -1.

(** A bus on which the transmission of rank [k] fails and the others
    succeed, [bytes] having been sent so far. *)
Definition fails_at (k : nat) (bytes : list Z) : I2c :=
  {| sent := bytes;
     result := fun n => if Nat.eqb n k then ESP_FAIL else ESP_OK |}.

(** The byte [expander_write] puts on the bus. *)
Definition wire (bl : bool) (data : Z) : Z :=
  let data1 := Z.land data (u8 (Z.lnot MASK_RW)) in
  if bl then Z.lor data1 MASK_BL else Z.land data1 (u8 (Z.lnot MASK_BL)).

(** The bytes of a complete [write4bits], [send], [print] and
    [setCursor]. *)
Definition frame (bl : bool) (v : Z) : list Z :=
  [wire bl v; wire bl (u8 (Z.lor v MASK_EN));
   wire bl (u8 (Z.land v (u8 (Z.lnot MASK_EN))))].

Definition send_bytes (bl : bool) (value mode : Z) : list Z :=
  frame bl (u8 (Z.lor (u8 (Z.land value 240)) mode))
  ++ frame bl (u8 (Z.lor (u8 (Z.land (Z.shiftl value 4) 240)) mode)).

Definition print_bytes (bl : bool) (cs : list Z) : list Z :=
  flat_map (fun c => send_bytes bl c MASK_RS) cs.

(** The DDRAM address [setCursor] selects. *)
Definition ddram (l : t) (col row : Z) : Z :=
  nth (Z.to_nat (clamp row 0 (rows_ l - 1))) row_offsets 0
  + clamp col 0 (cols_ l - 1).

Definition cursor_bytes (l : t) (col row : Z) : list Z :=
  send_bytes (backlight_ l) (u8 (Z.lor LCD_SETDDRAMADDR (ddram l col row))) 0.

(** [l'] is [l] but for its transmit buffer. *)
Definition same_setup (l l' : t) : Prop :=
  addr_ l' = addr_ l /\ cols_ l' = cols_ l /\ rows_ l' = rows_ l /\
  backlight_ l' = backlight_ l.

(** The transmissions of rank [n] to [n + k - 1] succeed. *)
Definition all_ok (w : I2c) (n k : nat) : Prop :=
  forall i, (i < k)%nat -> result w (n + i) = ESP_OK.

(** The result of the last of [n] transmissions, [ESP_OK] when none is
    made. *)
Definition outcome (w : I2c) (n : nat) : esp_err_t :=
  match n with
  | O => ESP_OK
  | S k => result w (length (sent w) + k)
  end.

(** [m], run on the object [l], sends the bytes [bs] and stops at the first
    transmission that fails: it hands the bus the first [n] bytes of [bs];
    all transmissions but the last one succeed; it returns the result of
    the last one; and it stops before the end of [bs] only if that result
    is not [ESP_OK]. *)
Definition sends (m : M esp_err_t) (l : t) (bs : list Z) : Prop :=
  forall (l0 : t) (w : I2c),
    same_setup l l0 ->
    exists (n : nat) (l' : t) (w' : I2c),
      m (l0, w) = (outcome w n, (l', w')) /\
      same_setup l l' /\
      (n <= length bs)%nat /\
      sent w' = sent w ++ firstn n bs /\
      result w' = result w /\
      all_ok w (length (sent w)) (n - 1) /\
      ((n < length bs)%nat -> outcome w n <> ESP_OK).



End LcdSpec.

(** ** wifi_telemetry.cpp *)

Module WifiTelemetry.

Definition WIFI_MAX_RETRY : Z := 10.

(** The events the handler tells apart, by [event_base] and [event_id];
    [OTHER] is any other pair. *)
Inductive Event : Type :=
| WIFI_EVENT_STA_START
| WIFI_EVENT_STA_DISCONNECTED
| IP_EVENT_STA_GOT_IP
| OTHER.

(** What the handler does to the outside: [esp_wifi_connect()] and
    [xEventGroupSetBits] with one of the two bits. *)
Inductive Action : Type :=
| CONNECT
| SET_CONNECTED_BIT
| SET_FAIL_BIT.

(** [wifi_event_handler] on the static [s_retry_num]: its new value and the
    calls made. *)
Definition wifi_event_handler (s_retry_num : Z) (e : Event)
  : Z * list Action :=
  match e with
  | WIFI_EVENT_STA_START => (s_retry_num, [CONNECT])
  | WIFI_EVENT_STA_DISCONNECTED =>
      if s_retry_num <? WIFI_MAX_RETRY then (s_retry_num + 1, [CONNECT])
      else (s_retry_num, [SET_FAIL_BIT])
  | IP_EVENT_STA_GOT_IP => (0, [SET_CONNECTED_BIT])
  | OTHER => (s_retry_num, [])
  end.

(** The handler over a sequence of events. *)
Fixpoint handle_all (s_retry_num : Z) (es : list Event) : Z * list Action :=
  match es with
  | [] => (s_retry_num, [])
  | e :: es' =>
      let '(n1, a1) := wifi_event_handler s_retry_num e in
      let '(n2, a2) := handle_all n1 es' in
      (n2, a1 ++ a2)
  end.

End WifiTelemetry.

Module WifiSpec.

Import WifiTelemetry.

Definition is_disconnect (e : Event) : bool :=
  match e with WIFI_EVENT_STA_DISCONNECTED => true | _ => false end.

Definition is_start (e : Event) : bool :=
  match e with WIFI_EVENT_STA_START => true | _ => false end.

Definition is_connect (a : Action) : bool :=
  match a with CONNECT => true | _ => false end.

Definition is_fail (a : Action) : bool :=
  match a with SET_FAIL_BIT => true | _ => false end.

Definition count {A : Type} (f : A -> bool) (l : list A) : Z :=
  Z.of_nat (length (filter f l)).

End WifiSpec.

(** ** Tactics *)

(** Case analysis on every test of the goal. *)
Ltac split_ifs :=
  repeat match goal with
         | |- context [if ?c then _ else _] => destruct c
         end.

(** [Pos.to_nat] of a numeral, which [cbn] leaves alone. *)
Ltac eval_pos_to_nat :=
  repeat match goal with
         | |- context [Pos.to_nat ?n] =>
             let v := eval vm_compute in (Pos.to_nat n) in
             change (Pos.to_nat n) with v
         end.

(** ** Properties of binary32 arithmetic

    Rounding to nearest, as [SpecFloat] computes it, is bracketed by the
    canonical numbers around the exact value; so an exponential moving
    average step lands between its old value and its input. *)

Module F32Facts.

Import F32Spec.

Lemma digits2_pos_log2 (p : positive) :
  Zpos (digits2_pos p) = Z.log2 (Zpos p) + 1.
Proof.
  assert (forall q, digits2_pos q = Pos.size q) as H
    by (induction q; simpl; congruence).
  rewrite H. destruct p; simpl; lia.
Qed.

Lemma Zdigits2_dig (m : Z) : 0 < m -> Zdigits2 m = dig m.
Proof.
  destruct m; try lia. intros _. simpl. apply digits2_pos_log2.
Qed.

Lemma dig_bounds (m : Z) : 0 < m -> 2 ^ (dig m - 1) <= m < 2 ^ dig m.
Proof.
  intros H. unfold dig. replace (Z.log2 m + 1 - 1) with (Z.log2 m) by lia.
  pose proof (Z.log2_spec m H). unfold Z.succ in *. lia.
Qed.

Lemma dig_pos (m : Z) : 0 < m -> 1 <= dig m.
Proof. intros H. unfold dig. pose proof (Z.log2_nonneg m). lia. Qed.

Lemma dig_unique (m k : Z) : 2 ^ (k - 1) <= m < 2 ^ k -> 1 <= k -> dig m = k.
Proof.
  intros H Hk. unfold dig.
  rewrite (Z.log2_unique m (k - 1)); [lia|lia|].
  unfold Z.succ. replace (k - 1 + 1) with k by lia. exact H.
Qed.

Lemma dig_le (a b : Z) : 0 < a -> a <= b -> dig a <= dig b.
Proof. intros H1 H2. unfold dig. pose proof (Z.log2_le_mono a b H2). lia. Qed.

Lemma dig_shift (m n : Z) :
  0 <= n -> 0 < m / 2 ^ n -> dig (m / 2 ^ n) = dig m - n.
Proof.
  intros Hn Hq.
  assert (0 < 2 ^ n) as Hp by (apply Z.pow_pos_nonneg; lia).
  assert (0 < m) as Hm.
  { destruct (Z.lt_trichotomy m 0) as [H|[H|H]]; [|subst; rewrite Z.div_0_l in Hq; lia|exact H].
    pose proof (Z.div_lt_upper_bound m (2^n) 0 Hp ltac:(lia)). lia. }
  pose proof (dig_bounds m Hm) as [B1 B2].
  pose proof (dig_pos _ Hq) as D1.
  pose proof (dig_bounds _ Hq) as [C1 C2].
  (* m / 2^n >= 1 so m >= 2^n so dig m > n *)
  assert (2 ^ n <= m) as Hge.
  { pose proof (Z.mul_div_le m (2 ^ n) Hp). nia. }
  assert (n < dig m) as Hnd.
  { destruct (Z_lt_le_dec n (dig m)) as [|Hle]; [assumption|].
    pose proof (Z.pow_le_mono_r 2 (dig m) n ltac:(lia) Hle). lia. }
  apply dig_unique; [|lia].
  split.
  - apply Z.div_le_lower_bound; [exact Hp|].
    rewrite <- Z.pow_add_r by lia.
    replace (n + (dig m - n - 1)) with (dig m - 1) by lia. exact B1.
  - apply Z.div_lt_upper_bound; [exact Hp|].
    rewrite <- Z.pow_add_r by lia.
    replace (n + (dig m - n)) with (dig m) by lia. exact B2.
Qed.

Lemma fx_mono (a b : Z) : a <= b -> fx a <= fx b.
Proof. unfold fx, fexp, emin, prec, emax. lia. Qed.

Lemma fx_eq (a : Z) : fx a = Z.max (a - 24) (-149).
Proof. reflexivity. Qed.

Lemma F2Z_pos (m e : Z) : 0 < m -> 0 <= e + bias -> 0 < F2Z m e.
Proof.
  intros Hm He. unfold F2Z.
  pose proof (Z.pow_pos_nonneg 2 (e + bias) ltac:(lia) He). nia.
Qed.

(** Magnitudes are ordered like values. *)
Lemma F2Z_le_mag (m1 e1 m2 e2 : Z) :
  0 < m1 -> 0 < m2 -> 0 <= e1 + bias -> 0 <= e2 + bias ->
  F2Z m1 e1 <= F2Z m2 e2 -> dig m1 + e1 <= dig m2 + e2.
Proof.
  intros H1 H2 E1 E2 Hle. unfold F2Z in Hle.
  pose proof (dig_bounds m1 H1) as [A1 _].
  pose proof (dig_bounds m2 H2) as [_ B2].
  pose proof (dig_pos m1 H1). pose proof (dig_pos m2 H2).
  destruct (Z_le_gt_dec (dig m1 + e1) (dig m2 + e2)) as [|Hgt]; [assumption|].
  exfalso.
  assert (2 ^ dig m2 * 2 ^ (e2 + bias) <= 2 ^ (dig m1 - 1) * 2 ^ (e1 + bias))
    as Hp.
  { rewrite <- !Z.pow_add_r by lia. apply Z.pow_le_mono_r; lia. }
  pose proof (Z.pow_pos_nonneg 2 (e1 + bias) ltac:(lia) E1).
  pose proof (Z.pow_pos_nonneg 2 (e2 + bias) ltac:(lia) E2).
  nia.
Qed.

Lemma canon_exp (m e : Z) : canon m e -> -149 <= e /\ 0 <= e + bias.
Proof.
  intros [_ H]. rewrite fx_eq in H. unfold bias. lia.
Qed.

Lemma F2Z_shift (m e n : Z) :
  0 <= n -> 0 <= e + bias -> F2Z m (e + n) * 1 = F2Z (m * 2 ^ n) e.
Proof.
  intros Hn He. unfold F2Z.
  replace (e + n + bias) with (n + (e + bias)) by lia.
  rewrite Z.pow_add_r by lia. ring.
Qed.

(** The grid of [w] is coarser than or equal to the grid of any canonical
    [y] above it: rounding [w] up on its grid does not pass [y]. *)
Lemma grid_up (mw ew my ey : Z) :
  0 < mw -> 0 <= ew + bias -> canon my ey ->
  let E := fx (dig mw + ew) in
  let n := E - ew in
  0 <= n ->
  F2Z mw ew <= F2Z my ey ->
  forall c, (c <= mw / 2 ^ n \/ (c <= mw / 2 ^ n + 1 /\ mw mod 2 ^ n <> 0)) ->
  F2Z c E <= F2Z my ey.
Proof.
  intros Hw Hew Hy E n Hn Hle c Hc.
  destruct (canon_exp _ _ Hy) as [Hey1 Hey2]. destruct Hy as [Hmy Hfy].
  pose proof (F2Z_le_mag _ _ _ _ Hw Hmy Hew Hey2 Hle) as Hmag.
  pose proof (fx_mono _ _ Hmag) as HE. fold E in HE. rewrite Hfy in HE.
  assert (0 < 2 ^ n) as Hp by (apply Z.pow_pos_nonneg; lia).
  assert (0 < 2 ^ (ew + bias)) as Hq by (apply Z.pow_pos_nonneg; lia).
  assert (0 < 2 ^ (ey - E)) as Hr by (apply Z.pow_pos_nonneg; lia).
  assert (F2Z my ey = my * 2 ^ (ey - E) * 2 ^ n * 2 ^ (ew + bias)) as Ey.
  { unfold F2Z. replace (ey + bias) with ((ey - E) + (n + (ew + bias)))
      by (unfold n; lia).
    rewrite !Z.pow_add_r by lia. ring. }
  assert (F2Z c E = c * 2 ^ n * 2 ^ (ew + bias)) as Ec.
  { unfold F2Z. replace (E + bias) with (n + (ew + bias)) by (unfold n; lia).
    rewrite Z.pow_add_r by lia. ring. }
  rewrite Ey in Hle |- *. rewrite Ec.
  assert (F2Z mw ew = mw * 2 ^ (ew + bias)) as Ew by reflexivity.
  rewrite Ew in Hle.
  set (Y := my * 2 ^ (ey - E)) in *.
  assert (mw <= Y * 2 ^ n) as Hmw by nia.
  pose proof (Z.div_mod mw (2 ^ n) ltac:(lia)) as Hdm.
  pose proof (Z.mod_pos_bound mw (2 ^ n) Hp) as Hmod.
  assert (c <= Y) as HcY.
  { destruct Hc as [Hc|[Hc Hne]].
    - assert (mw / 2 ^ n <= Y); [|lia].
      apply Z.div_le_upper_bound; [exact Hp|]. lia.
    - assert (mw / 2 ^ n < Y); [|lia].
      apply Z.div_lt_upper_bound; [exact Hp|].
      destruct (Z.eq_dec mw (Y * 2 ^ n)) as [Heq|]; [|lia].
      rewrite Heq, Z.mod_mul in Hne by lia. congruence. }
  apply Z.mul_le_mono_nonneg_r; [lia|].
  apply Z.mul_le_mono_nonneg_r; lia.
Qed.

(** Rounding [w] down on its grid does not pass any canonical [y] below. *)
Lemma grid_down (mw ew my ey : Z) :
  0 < mw -> 0 <= ew + bias -> canon my ey ->
  let E := fx (dig mw + ew) in
  let n := E - ew in
  0 <= n ->
  F2Z my ey <= F2Z mw ew ->
  F2Z my ey <= F2Z (mw / 2 ^ n) E.
Proof.
  intros Hw Hew Hy E n Hn Hle.
  destruct (canon_exp _ _ Hy) as [Hey1 Hey2]. pose proof Hy as [Hmy Hfy].
  pose proof (F2Z_le_mag _ _ _ _ Hmy Hw Hey2 Hew Hle) as Hmag.
  pose proof (fx_mono _ _ Hmag) as HE. fold E in HE. rewrite Hfy in HE.
  assert (0 < 2 ^ n) as Hp by (apply Z.pow_pos_nonneg; lia).
  assert (0 < 2 ^ (ew + bias)) as Hq by (apply Z.pow_pos_nonneg; lia).
  assert (F2Z (mw / 2 ^ n) E = mw / 2 ^ n * 2 ^ n * 2 ^ (ew + bias)) as Eq.
  { unfold F2Z. replace (E + bias) with (n + (ew + bias)) by (unfold n; lia).
    rewrite Z.pow_add_r by lia. ring. }
  destruct (Z.eq_dec ey E) as [Heq|Hne].
  - (* same grid *)
    rewrite Eq.
    assert (F2Z my ey = my * 2 ^ n * 2 ^ (ew + bias)) as Ey.
    { unfold F2Z. rewrite Heq.
      replace (E + bias) with (n + (ew + bias)) by (unfold n; lia).
      rewrite Z.pow_add_r by lia. ring. }
    rewrite Ey in Hle |- *.
    assert (F2Z mw ew = mw * 2 ^ (ew + bias)) as Ew by reflexivity.
    rewrite Ew in Hle.
    assert (my * 2 ^ n <= mw) as H1 by nia.
    assert (my <= mw / 2 ^ n) as H2
      by (apply Z.div_le_lower_bound; [exact Hp|lia]).
    nia.
  - (* [y] lies in a lower binade *)
    assert (ey < E) as Hlt by lia.
    assert (E = dig mw + ew - 24) as HEw
      by (unfold E in *; rewrite fx_eq in *; lia).
    assert (dig my + ey < dig mw + ew) as Hmlt.
    { destruct (Z_lt_le_dec (dig my + ey) (dig mw + ew)) as [|Hge];
        [assumption|].
      pose proof (fx_mono _ _ Hge) as H. fold E in H. lia. }
    pose proof (dig_bounds my Hmy) as [_ B2].
    pose proof (dig_bounds mw Hw) as [A1 _].
    pose proof (dig_pos my Hmy). pose proof (dig_pos mw Hw).
    assert (n = dig mw - 24) as Hn' by (unfold n; lia).
    assert (2 ^ 23 <= mw / 2 ^ n) as Hq23.
    { apply Z.div_le_lower_bound; [exact Hp|].
      rewrite <- Z.pow_add_r by lia.
      replace (n + 23) with (dig mw - 1) by lia. exact A1. }
    assert (F2Z my ey < 2 ^ (dig my + (ey + bias))) as Hy1.
    { unfold F2Z. rewrite (Z.pow_add_r 2 (dig my) (ey + bias)) by lia.
      pose proof (Z.pow_pos_nonneg 2 (ey + bias) ltac:(lia) Hey2). nia. }
    assert (2 ^ (dig my + (ey + bias)) <= 2 ^ (23 + (E + bias))) as Hy2
      by (apply Z.pow_le_mono_r; lia).
    assert (2 ^ (23 + (E + bias)) <= F2Z (mw / 2 ^ n) E) as Hy3.
    { unfold F2Z. rewrite (Z.pow_add_r 2 23 (E + bias)) by lia.
      apply Z.mul_le_mono_nonneg_r; [|exact Hq23].
      apply Z.pow_nonneg; lia. }
    lia.
Qed.

(** *** Shifting right with sticky bits *)

Lemma iter_pos_nat {A : Type} (f : A -> A) (p : positive) : forall x,
  iter_pos f p x = Nat.iter (Pos.to_nat p) f x.
Proof.
  assert (forall n m (x : A), Nat.iter n f (Nat.iter m f x)
                              = Nat.iter (n + m) f x) as Hadd
    by (intros n m x; now rewrite Nat.iter_add).
  induction p as [p IH|p IH|]; intros x; simpl iter_pos.
  - rewrite !IH, Hadd, Pos2Nat.inj_xI.
    replace (S (2 * Pos.to_nat p))%nat
      with (S (Pos.to_nat p + Pos.to_nat p))%nat by lia.
    rewrite Nat.iter_succ_r. reflexivity.
  - rewrite !IH, Hadd, Pos2Nat.inj_xO. f_equal. lia.
  - reflexivity.
Qed.

Lemma shr_1_spec (m : Z) (r s : bool) :
  0 <= m ->
  shr_1 (Build_shr_record m r s) =
  Build_shr_record (m / 2) (Z.odd m) (r || s).
Proof.
  intros Hm. destruct m as [|p|p]; [reflexivity| |lia].
  destruct p as [p|p|]; simpl shr_1.
  - f_equal. rewrite Pos2Z.inj_xI.
    replace (2 * Z.pos p + 1) with (1 + Z.pos p * 2) by lia.
    rewrite Z.div_add by lia. reflexivity.
  - f_equal. rewrite Pos2Z.inj_xO.
    replace (2 * Z.pos p) with (Z.pos p * 2) by lia.
    now rewrite Z.div_mul by lia.
  - reflexivity.
Qed.

Lemma shr_iter (m : Z) (k : nat) :
  0 <= m ->
  let mrs := Nat.iter k shr_1 (Build_shr_record m false false) in
  shr_m mrs = m / 2 ^ Z.of_nat k /\
  (shr_r mrs || shr_s mrs = true -> m mod 2 ^ Z.of_nat k <> 0).
Proof.
  intros Hm. induction k as [|k IH]; cbv zeta.
  - simpl. rewrite Z.div_1_r. split; [reflexivity|discriminate].
  - rewrite Nat.iter_succ. cbv zeta in IH.
    destruct (Nat.iter k shr_1 (Build_shr_record m false false))
      as [mk rk sk]. cbn [shr_m shr_r shr_s] in IH. destruct IH as [IH1 IH2].
    assert (0 < 2 ^ Z.of_nat k) as Hp by (apply Z.pow_pos_nonneg; lia).
    assert (0 <= mk) as Hmk by (rewrite IH1; apply Z.div_pos; lia).
    rewrite shr_1_spec by exact Hmk. cbn [shr_m shr_r shr_s].
    rewrite Nat2Z.inj_succ, Z.pow_succ_r by lia.
    split.
    + rewrite IH1, Z.div_div by lia. f_equal. lia.
    + intros Hin Hmod.
      assert (m mod 2 ^ Z.of_nat k = 0) as Hmod'.
      { apply Z.mod_divide in Hmod; [|lia]. apply Z.mod_divide; [lia|].
        destruct Hmod as [q Hq]. exists (q * 2). lia. }
      apply orb_prop in Hin. destruct Hin as [Hodd|Hrs].
      * apply Z.mod_divide in Hmod; [|lia]. destruct Hmod as [q Hq].
        rewrite IH1, Hq in Hodd.
        replace (q * (2 * 2 ^ Z.of_nat k)) with (q * 2 * 2 ^ Z.of_nat k)
          in Hodd by ring.
        rewrite Z.div_mul in Hodd by lia.
        rewrite Z.odd_mul in Hodd. simpl in Hodd.
        now rewrite andb_false_r in Hodd.
      * apply IH2; assumption.
Qed.

Lemma shr_spec (m e n : Z) :
  0 <= m ->
  let res := shr (Build_shr_record m false false) e n in
  (n <= 0 -> res = (Build_shr_record m false false, e)) /\
  (0 < n ->
   shr_m (fst res) = m / 2 ^ n /\ snd res = e + n /\
   (shr_r (fst res) || shr_s (fst res) = true -> m mod 2 ^ n <> 0)).
Proof.
  intros Hm res. split; intros Hn.
  - unfold res, shr. destruct n; try reflexivity. lia.
  - unfold res, shr. destruct n as [|p|p]; try lia. cbn [fst snd].
    rewrite iter_pos_nat.
    pose proof (shr_iter m (Pos.to_nat p) Hm) as H. cbv zeta in H.
    rewrite positive_nat_Z in H. destruct H as [H1 H2].
    repeat split; assumption.
Qed.

Lemma round_nearest_even_spec (m : Z) (mrs : shr_record) :
  shr_m mrs = m ->
  let m2 := round_nearest_even (shr_m mrs) (loc_of_shr_record mrs) in
  m2 = m \/ (m2 = m + 1 /\ shr_r mrs || shr_s mrs = true).
Proof.
  intros <-. destruct mrs as [m r s]. cbn [shr_m shr_r shr_s].
  destruct r, s; simpl; auto.
  destruct (Z.even m); auto.
Qed.

(** *** Rounding a positive value given by mantissa and exponent *)

Lemma shr_fexp_spec (m e : Z) :
  0 <= m ->
  let n := fx (Zdigits2 m + e) - e in
  0 <= n ->
  let res := shr_fexp prec emax m e loc_Exact in
  shr_m (fst res) = m / 2 ^ n /\ snd res = e + n /\
  (shr_r (fst res) || shr_s (fst res) = true -> m mod 2 ^ n <> 0).
Proof.
  intros Hm n Hn res. unfold res, shr_fexp. cbn [shr_record_of_loc].
  fold (fx (Zdigits2 m + e)). fold n.
  destruct (shr_spec m e n Hm) as [H0 H1].
  destruct (Z.eq_dec n 0) as [E|E].
  - rewrite H0 by lia. rewrite E. cbn [fst snd shr_m shr_r shr_s].
    rewrite Z.pow_0_r, Z.div_1_r. repeat split; [lia|discriminate].
  - apply H1. lia.
Qed.

Lemma binary_round_aux_spec (sx : bool) (mx ex : Z) :
  0 < mx -> 0 <= ex + bias ->
  let E := fx (dig mx + ex) in
  let n := E - ex in
  0 <= n ->
  exists m3 e3,
    binary_round_aux prec emax sx mx ex loc_Exact = build sx m3 e3 /\
    0 <= m3 /\ (0 < m3 -> canon m3 e3) /\ 0 <= e3 + bias /\ E <= e3 /\
    F2Z (mx / 2 ^ n) E <= F2Z m3 e3 /\
    (F2Z m3 e3 <= F2Z (mx / 2 ^ n) E \/
     (mx mod 2 ^ n <> 0 /\ F2Z m3 e3 <= F2Z (mx / 2 ^ n + 1) E)).
Proof.
  intros Hmx Hex E n Hn.
  assert (0 < 2 ^ n) as Hp by (apply Z.pow_pos_nonneg; lia).
  pose proof (shr_fexp_spec mx ex ltac:(lia)) as S1. cbv zeta in S1.
  rewrite Zdigits2_dig in S1 by exact Hmx. fold E n in S1.
  specialize (S1 Hn). destruct S1 as (S1m & S1e & S1x).
  unfold binary_round_aux.
  destruct (shr_fexp prec emax mx ex loc_Exact) as [mrs1 e1].
  cbn [fst snd] in S1m, S1e, S1x.
  set (m1 := mx / 2 ^ n) in *.
  assert (0 <= m1) as Hm1 by (apply Z.div_pos; lia).
  assert (e1 = E) as -> by (unfold n in S1e; lia).
  pose proof (round_nearest_even_spec m1 mrs1 S1m) as R. cbv zeta in R.
  set (m2 := round_nearest_even (shr_m mrs1) (loc_of_shr_record mrs1)) in *.
  assert (m1 <= m2 <= m1 + 1) as Hm2 by (destruct R as [->|[-> _]]; lia).
  assert (m2 = m1 \/ (m2 = m1 + 1 /\ mx mod 2 ^ n <> 0)) as R'.
  { destruct R as [R|[R Hx]]; [now left|right; split; [exact R|auto]]. }
  assert (-149 <= E) as HE149 by (unfold E; rewrite fx_eq; lia).
  assert (0 <= E + bias) as HEb by lia.
  (* the grid of [m1] *)
  assert (0 < m1 -> canon m1 E) as Hc1.
  { intros H. split; [exact H|]. unfold m1. rewrite dig_shift by assumption.
    replace (dig mx - n + E) with (dig mx + ex) by (unfold n; lia).
    reflexivity. }
  assert (m1 = 0 -> E = -149) as Hsub.
  { intros H0. unfold m1 in H0.
    assert (mx < 2 ^ n) as Hlt.
    { destruct (Z_lt_le_dec mx (2 ^ n)) as [|Hge]; [assumption|].
      pose proof (Z.div_le_lower_bound mx (2 ^ n) 1 Hp ltac:(lia)). lia. }
    pose proof (dig_bounds mx Hmx) as [B1 _]. pose proof (dig_pos mx Hmx).
    assert (dig mx - 1 < n) as Hd.
    { destruct (Z_lt_le_dec (dig mx - 1) n) as [|Hge]; [assumption|].
      pose proof (Z.pow_le_mono_r 2 n (dig mx - 1) ltac:(lia) Hge). lia. }
    unfold n, E in Hd. unfold E. rewrite fx_eq in *. lia. }
  destruct (Z.eq_dec m2 0) as [Hz|Hnz].
  { (* rounded to zero *)
    assert (m1 = 0) as Hm10 by lia.
    pose proof (shr_fexp_spec m2 E ltac:(lia)) as S2. cbv zeta in S2.
    assert (0 <= fx (Zdigits2 m2 + E) - E) as Hn2
      by (rewrite Hz; simpl Zdigits2; rewrite (Hsub Hm10), fx_eq; lia).
    specialize (S2 Hn2). destruct S2 as (S2m & S2e & _).
    destruct (shr_fexp prec emax m2 E loc_Exact) as [mrs2 e2].
    cbn [fst snd] in S2m, S2e. rewrite Hz in S2m, S2e, Hn2.
    rewrite Z.div_0_l in S2m by (apply Z.pow_nonzero; [lia|exact Hn2]).
    exists 0, e2. rewrite S2m. cbn [build].
    split; [reflexivity|]. split; [lia|]. split; [lia|].
    split; [rewrite S2e; simpl Zdigits2; rewrite fx_eq; unfold bias; lia|].
    split; [rewrite S2e; lia|].
    rewrite Hm10. unfold F2Z. split; [lia|left; lia]. }
  assert (0 < m2) as Hm2pos by lia.
  pose proof (shr_fexp_spec m2 E ltac:(lia)) as S2. cbv zeta in S2.
  rewrite Zdigits2_dig in S2 by exact Hm2pos.
  set (E2 := fx (dig m2 + E)) in *.
  assert (0 <= E2 - E) as Hn2.
  { destruct (Z.eq_dec m1 0) as [H0|H0].
    - rewrite (Hsub H0). unfold E2. rewrite fx_eq. lia.
    - assert (0 < m1) as H1 by lia. destruct (Hc1 H1) as [_ Hf].
      pose proof (dig_le m1 m2 H1 ltac:(lia)) as Hd.
      pose proof (fx_mono (dig m1 + E) (dig m2 + E) ltac:(lia)) as Hmn.
      rewrite Hf in Hmn. fold E2 in Hmn. lia. }
  specialize (S2 Hn2). destruct S2 as (S2m & S2e & _).
  destruct (shr_fexp prec emax m2 E loc_Exact) as [mrs2 e2].
  cbn [fst snd] in S2m, S2e.
  assert (e2 = E2) as -> by lia.
  set (m3 := m2 / 2 ^ (E2 - E)) in *.
  assert (0 < 2 ^ (E2 - E)) as Hp2 by (apply Z.pow_pos_nonneg; lia).
  assert (0 <= m3) as Hm3 by (apply Z.div_pos; lia).
  assert (-149 <= E2) as HE2 by (unfold E2; rewrite fx_eq; lia).
  exists m3, E2. rewrite S2m.
  split; [unfold build; destruct m3; try reflexivity; lia|].
  split; [exact Hm3|].
  split.
  { intros H. split; [exact H|]. unfold m3. rewrite dig_shift by assumption.
    replace (dig m2 - (E2 - E) + E2) with (dig m2 + E) by lia. reflexivity. }
  split; [unfold bias; lia|].
  split; [lia|].
  assert (F2Z m3 E2 <= F2Z m2 E) as Hfloor.
  { unfold F2Z. replace (E2 + bias) with ((E2 - E) + (E + bias)) by lia.
    rewrite Z.pow_add_r by lia.
    pose proof (Z.mul_div_le m2 (2 ^ (E2 - E)) Hp2).
    pose proof (Z.pow_pos_nonneg 2 (E + bias) ltac:(lia) HEb).
    unfold m3. nia. }
  assert (forall a b, a <= b -> F2Z a E <= F2Z b E) as Hmono.
  { intros a b Hab. unfold F2Z.
    apply Z.mul_le_mono_nonneg_r; [apply Z.pow_nonneg; lia|exact Hab]. }
  split.
  - destruct (Z.eq_dec m1 0) as [H0|H0].
    + rewrite H0. unfold F2Z at 1. rewrite Z.mul_0_l.
      unfold F2Z. apply Z.mul_nonneg_nonneg; [lia|apply Z.pow_nonneg; lia].
    + assert (0 < m1) as H1 by lia.
      apply (grid_down m2 E m1 E Hm2pos HEb (Hc1 H1) Hn2).
      apply Hmono. lia.
  - destruct R' as [Eq|[Eq Hx]].
    + left. rewrite <- Eq. exact Hfloor.
    + right. split; [exact Hx|]. rewrite <- Eq. exact Hfloor.
Qed.

(** *** Values and order of binary32 numbers *)

Lemma nice_finite (s : bool) (m : positive) (e : Z) :
  nice (S754_finite s m e) <-> canon (Zpos m) e /\ e <= 104.
Proof.
  unfold nice, bounded, canonical_mantissa, canon.
  rewrite andb_true_iff, Z.eqb_eq, Z.leb_le.
  fold (fx (Zpos (digits2_pos m) + e)). rewrite digits2_pos_log2.
  fold (dig (Zpos m)). unfold emax, prec. intuition lia.
Qed.

Lemma canon_dig (m e : Z) : canon m e -> dig m <= 24.
Proof. intros [_ H]. rewrite fx_eq in H. lia. Qed.

Lemma canon_lt (m1 e1 m2 e2 : Z) :
  canon m1 e1 -> canon m2 e2 -> e1 < e2 -> F2Z m1 e1 < F2Z m2 e2.
Proof.
  intros H1 H2 Hlt.
  pose proof (canon_dig _ _ H1) as D1.
  destruct (canon_exp _ _ H1) as [X1 Y1].
  destruct (canon_exp _ _ H2) as [X2 Y2].
  destruct H1 as [P1 F1], H2 as [P2 F2].
  assert (dig m2 = 24) as D2 by (rewrite fx_eq in F2; lia).
  pose proof (dig_bounds m1 P1) as [_ B1].
  pose proof (dig_bounds m2 P2) as [B2 _]. rewrite D2 in B2.
  pose proof (dig_pos m1 P1).
  assert (2 ^ dig m1 <= 2 ^ 24) as B1' by (apply Z.pow_le_mono_r; lia).
  unfold F2Z.
  replace (e2 + bias) with ((e2 - e1 - 1) + 1 + (e1 + bias)) by lia.
  rewrite (Z.pow_add_r 2 (e2 - e1 - 1 + 1) (e1 + bias)) by lia.
  rewrite (Z.pow_add_r 2 (e2 - e1 - 1) 1) by lia.
  pose proof (Z.pow_pos_nonneg 2 (e1 + bias) ltac:(lia) Y1).
  pose proof (Z.pow_pos_nonneg 2 (e2 - e1 - 1) ltac:(lia) ltac:(lia)).
  change (2 ^ (24 - 1)) with 8388608 in B2.
  change (2 ^ 24) with 16777216 in B1'. change (2 ^ 1) with 2.
  assert (m1 < m2 * (2 ^ (e2 - e1 - 1) * 2)) as Hm by nia.
  rewrite Z.mul_assoc. apply Zmult_lt_compat_r; assumption.
Qed.

Lemma canon_compare (m1 e1 m2 e2 : Z) :
  canon m1 e1 -> canon m2 e2 ->
  (F2Z m1 e1 ?= F2Z m2 e2) =
  match e1 ?= e2 with
  | Eq => m1 ?= m2
  | c => c
  end.
Proof.
  intros H1 H2. destruct (Z.compare_spec e1 e2) as [E|E|E].
  - subst e2. destruct (canon_exp _ _ H1) as [_ Y1]. unfold F2Z.
    pose proof (Z.pow_pos_nonneg 2 (e1 + bias) ltac:(lia) Y1).
    destruct (Z.compare_spec m1 m2) as [M|M|M].
    + subst. apply Z.compare_refl.
    + apply Z.compare_lt_iff. nia.
    + apply Z.compare_gt_iff. nia.
  - apply Z.compare_lt_iff. now apply canon_lt.
  - apply Z.compare_gt_iff. now apply canon_lt.
Qed.

Lemma nice_val_pos (s : bool) (m : positive) (e : Z) :
  nice (S754_finite s m e) -> 0 < F2Z (Zpos m) e.
Proof.
  intros H. apply nice_finite in H. destruct H as [H _].
  apply F2Z_pos; [lia|]. apply (canon_exp _ _ H).
Qed.

Lemma SFcompare_val (x y : f32) :
  nice x -> nice y -> SFcompare x y = Some (val x ?= val y).
Proof.
  intros Hx Hy.
  destruct x as [sx|sx| |sx mx ex], y as [sy|sy| |sy my ey];
    try contradiction; cbn [SFcompare val].
  - reflexivity.
  - pose proof (nice_val_pos _ _ _ Hy) as P.
    destruct sy; cbn [cond_Zopp]; f_equal; symmetry;
      [apply Z.compare_gt_iff|apply Z.compare_lt_iff]; lia.
  - pose proof (nice_val_pos _ _ _ Hx) as P.
    destruct sx; cbn [cond_Zopp]; f_equal; symmetry;
      [apply Z.compare_lt_iff|apply Z.compare_gt_iff]; lia.
  - pose proof (nice_val_pos _ _ _ Hx) as Px.
    pose proof (nice_val_pos _ _ _ Hy) as Py.
    apply nice_finite in Hx, Hy. destruct Hx as [Cx _], Hy as [Cy _].
    pose proof (canon_compare _ _ _ _ Cx Cy) as Hc.
    pose proof (canon_compare _ _ _ _ Cy Cx) as Hc'.
    destruct sx, sy; cbn [cond_Zopp]; f_equal.
    + rewrite Z.compare_opp, Hc', (Z.compare_antisym ex ey).
      destruct (ex ?= ey); simpl; try reflexivity.
      exact (Pos.compare_cont_antisym mx my Eq).
    + symmetry. apply Z.compare_lt_iff. lia.
    + symmetry. apply Z.compare_gt_iff. lia.
    + rewrite Hc. reflexivity.
Qed.

Lemma leb_val (x y : f32) :
  nice x -> nice y -> (SFleb x y = true <-> val x <= val y).
Proof.
  intros Hx Hy. unfold SFleb. rewrite SFcompare_val by assumption.
  destruct (Z.compare_spec (val x) (val y)); split; intros; try lia;
    try reflexivity; discriminate.
Qed.

Lemma ltb_val (x y : f32) :
  nice x -> nice y -> (SFltb x y = true <-> val x < val y).
Proof.
  intros Hx Hy. unfold SFltb. rewrite SFcompare_val by assumption.
  destruct (Z.compare_spec (val x) (val y)); split; intros; try lia;
    try reflexivity; discriminate.
Qed.

(** *** Rounding brackets *)

Lemma build_val (sx : bool) (m3 e3 : Z) :
  0 <= m3 -> (0 < m3 -> canon m3 e3) ->
  nice (build sx m3 e3) <-> (m3 = 0 \/ e3 <= 104).
Proof.
  intros H0 Hc. unfold build. destruct m3 as [|p|p]; try lia.
  - simpl. intuition.
  - change (emax - prec) with 104.
    destruct (Z.leb_spec e3 104) as [Hle|Hgt].
    + rewrite nice_finite. specialize (Hc ltac:(lia)). intuition lia.
    + simpl. intuition lia.
Qed.

Lemma build_nice_val (sx : bool) (m3 e3 : Z) :
  0 <= m3 -> nice (build sx m3 e3) ->
  val (build sx m3 e3) = cond_Zopp sx (F2Z m3 e3).
Proof.
  intros H0 Hn. unfold build in *. destruct m3 as [|p|p]; try lia.
  - simpl. unfold F2Z. destruct sx; reflexivity.
  - change (emax - prec) with 104 in *.
    destruct (e3 <=? 104); [reflexivity|contradiction].
Qed.

Lemma F2Z_mono (a b e : Z) : 0 <= e + bias -> a <= b -> F2Z a e <= F2Z b e.
Proof.
  intros He Hab. unfold F2Z.
  apply Z.mul_le_mono_nonneg_r; [apply Z.pow_nonneg; lia|exact Hab].
Qed.

Lemma F2Z_floor (m e n : Z) :
  0 <= m -> 0 <= n -> 0 <= e + bias -> F2Z (m / 2 ^ n) (e + n) <= F2Z m e.
Proof.
  intros Hm Hn He. unfold F2Z.
  replace (e + n + bias) with (n + (e + bias)) by lia.
  rewrite Z.pow_add_r by lia.
  assert (0 < 2 ^ n) as Hp by (apply Z.pow_pos_nonneg; lia).
  pose proof (Z.mul_div_le m (2 ^ n) Hp).
  pose proof (Z.pow_pos_nonneg 2 (e + bias) ltac:(lia) He). nia.
Qed.

Lemma nice_pos_finite (y : f32) :
  nice y -> 0 < val y ->
  exists my ey, y = S754_finite false my ey /\ canon (Zpos my) ey /\
                ey <= 104 /\ val y = F2Z (Zpos my) ey.
Proof.
  intros Hn Hp. destruct y as [s|s| |s m e]; try contradiction;
    try (simpl in Hp; lia).
  pose proof (nice_val_pos _ _ _ Hn) as Hv.
  destruct s; [cbn [val cond_Zopp] in Hp; lia|].
  apply nice_finite in Hn. destruct Hn as [Hc He].
  exists m, e. split; [reflexivity|]. split; [exact Hc|].
  split; [exact He|reflexivity].
Qed.

Section RoundPositive.

Variables mx ex : Z.
Hypothesis Hmx : 0 < mx.
Hypothesis Hex : 0 <= ex + bias.
Hypothesis Hn : ex <= fx (dig mx + ex).

Let r : f32 := binary_round_aux prec emax false mx ex loc_Exact.
Let v : Z := F2Z mx ex.

Lemma round_pos_upper (y : f32) :
  nice y -> v <= val y -> nice r /\ 0 <= val r <= val y.
Proof.
  intros Hy Hle.
  destruct (binary_round_aux_spec false mx ex Hmx Hex ltac:(lia))
    as (m3 & e3 & Hr & H0 & Hc & He3 & HE & Hlo & Hhi).
  fold r in Hr.
  assert (0 < v) as Hv by (apply F2Z_pos; assumption).
  destruct (nice_pos_finite y Hy ltac:(lia)) as (my & ey & -> & Cy & Ey & Vy).
  rewrite Vy in *.
  assert (F2Z m3 e3 <= F2Z (Zpos my) ey) as Hm3.
  { destruct Hhi as [Hhi|[Hx Hhi]].
    - etransitivity; [exact Hhi|].
      apply (grid_up mx ex (Zpos my) ey Hmx Hex Cy ltac:(lia) Hle).
      left. lia.
    - etransitivity; [exact Hhi|].
      apply (grid_up mx ex (Zpos my) ey Hmx Hex Cy ltac:(lia) Hle).
      right. split; [lia|exact Hx]. }
  assert (m3 = 0 \/ e3 <= 104) as Hb.
  { destruct (Z.eq_dec m3 0) as [|Hnz]; [now left|right].
    destruct (Z_le_gt_dec e3 ey) as [|Hgt]; [lia|].
    pose proof (canon_lt _ _ _ _ Cy (Hc ltac:(lia)) ltac:(lia)). lia. }
  assert (nice r) as Hnr by (rewrite Hr; apply build_val; assumption).
  split; [exact Hnr|].
  rewrite Hr, build_nice_val by (try rewrite <- Hr; assumption).
  cbn [cond_Zopp]. split; [|exact Hm3].
  unfold F2Z. apply Z.mul_nonneg_nonneg; [lia|apply Z.pow_nonneg; lia].
Qed.

Lemma round_pos_lower (y : f32) :
  nice y -> val y <= v -> nice r -> val y <= val r.
Proof.
  intros Hy Hle Hnr.
  destruct (binary_round_aux_spec false mx ex Hmx Hex ltac:(lia))
    as (m3 & e3 & Hr & H0 & Hc & He3 & HE & Hlo & Hhi).
  fold r in Hr.
  assert (val r = F2Z m3 e3) as Vr.
  { rewrite Hr, build_nice_val by (try rewrite <- Hr; assumption).
    reflexivity. }
  assert (0 <= F2Z m3 e3) as Hpos
    by (unfold F2Z; apply Z.mul_nonneg_nonneg;
        [lia|apply Z.pow_nonneg; lia]).
  destruct (Z_le_gt_dec (val y) 0) as [|Hp]; [lia|].
  destruct (nice_pos_finite y Hy ltac:(lia)) as (my & ey & -> & Cy & Ey & Vy).
  rewrite Vy in *. rewrite Vr.
  etransitivity; [|exact Hlo].
  apply (grid_down mx ex (Zpos my) ey Hmx Hex Cy ltac:(lia) Hle).
Qed.

(** A canonical number below the exact value and at least half the rounded
    one. *)
Lemma round_pos_half :
  -149 <= ex -> nice r ->
  exists y', nice y' /\ 0 <= val y' <= v /\ val r <= 2 * val y'.
Proof.
  intros Hemin Hnr.
  destruct (binary_round_aux_spec false mx ex Hmx Hex ltac:(lia))
    as (m3 & e3 & Hr & H0 & Hc & He3 & HE & Hlo & Hhi).
  fold r in Hr.
  assert (val r = F2Z m3 e3) as Vr.
  { rewrite Hr, build_nice_val by (try rewrite <- Hr; assumption).
    reflexivity. }
  set (E := fx (dig mx + ex)) in *. set (n := E - ex) in *.
  assert (0 <= n) as Hn0 by (unfold n; lia).
  assert (0 < 2 ^ n) as Hp by (apply Z.pow_pos_nonneg; lia).
  pose proof (dig_bounds mx Hmx) as [B1 _]. pose proof (dig_pos mx Hmx).
  assert (1 <= mx / 2 ^ n) as Hm1.
  { apply Z.div_le_lower_bound; [exact Hp|]. rewrite Z.mul_1_r.
    destruct (Z.eq_dec E (-149)) as [HE149|HE149].
    - assert (n = 0) as -> by (unfold n; lia). simpl. lia.
    - assert (n = dig mx - 24) as Hn24
        by (unfold n, E in *; rewrite fx_eq in *; lia).
      etransitivity; [|exact B1]. apply Z.pow_le_mono_r; lia. }
  set (m1 := mx / 2 ^ n) in *.
  assert (canon m1 E) as Cm1.
  { split; [lia|]. unfold m1. rewrite dig_shift by (fold m1; lia).
    replace (dig mx - n + E) with (dig mx + ex) by (unfold n; lia).
    reflexivity. }
  assert (0 <= E + bias) as HEb by (apply (canon_exp _ _ Cm1)).
  assert (0 < F2Z m1 E) as Pm1 by (apply F2Z_pos; lia).
  assert (0 < m3) as Hm3.
  { destruct (Z.eq_dec m3 0) as [Hz|]; [|lia].
    rewrite Hz in Hlo. unfold F2Z at 2 in Hlo. lia. }
  assert (e3 <= 104) as He104.
  { rewrite Hr in Hnr. apply build_val in Hnr; [lia|lia|exact Hc]. }
  destruct m1 as [|p1|p1] eqn:Em1; try lia.
  exists (S754_finite false p1 E).
  split; [apply nice_finite; split; [exact Cm1|lia]|].
  cbn [val cond_Zopp]. split; [split; [lia|]|].
  - unfold v. replace E with (ex + n) by (unfold n; lia).
    rewrite <- Em1. unfold m1. apply F2Z_floor; lia.
  - rewrite Vr. destruct Hhi as [Hhi|[_ Hhi]]; [lia|].
    etransitivity; [exact Hhi|]. unfold F2Z in *.
    pose proof (Z.pow_pos_nonneg 2 (E + bias) ltac:(lia) HEb). nia.
Qed.

End RoundPositive.

(** *** Signs *)

Lemma binary_round_aux_opp (mx ex : Z) (lx : location) :
  binary_round_aux prec emax true mx ex lx =
  SFopp (binary_round_aux prec emax false mx ex lx).
Proof.
  unfold binary_round_aux.
  destruct (shr_fexp prec emax mx ex lx) as [mrs1 e1].
  destruct (shr_fexp prec emax _ e1 loc_Exact) as [mrs2 e2].
  destruct (shr_m mrs2); try reflexivity.
  destruct (e2 <=? emax - prec); reflexivity.
Qed.

Lemma nice_opp (x : f32) : nice (SFopp x) <-> nice x.
Proof. destruct x; simpl; tauto. Qed.

Lemma val_opp (x : f32) : val (SFopp x) = - val x.
Proof.
  destruct x as [s|s| |s m e]; try reflexivity.
  cbn [SFopp val]. destruct s; cbn [negb cond_Zopp]; lia.
Qed.

(** *** [binary_round] and [binary_normalize] *)

Lemma dig_shl (m k : Z) : 0 < m -> 0 <= k -> dig (m * 2 ^ k) = dig m + k.
Proof.
  intros Hm Hk. pose proof (dig_bounds m Hm) as [B1 B2].
  pose proof (dig_pos m Hm).
  assert (0 < 2 ^ k) as Hp by (apply Z.pow_pos_nonneg; lia).
  apply dig_unique; [|lia]. split.
  - replace (dig m + k - 1) with ((dig m - 1) + k) by lia.
    rewrite Z.pow_add_r by lia. nia.
  - rewrite Z.pow_add_r by lia. nia.
Qed.

Lemma shl_align_spec (mx : positive) (ex ex' : Z) :
  let mz := fst (shl_align mx ex ex') in
  let ez := snd (shl_align mx ex ex') in
  ez = Z.min ex ex' /\ Zpos mz = Zpos mx * 2 ^ (ex - ez).
Proof.
  unfold shl_align. destruct (ex' - ex) as [|d|d] eqn:E; cbn [fst snd].
  - split; [lia|]. rewrite Z.sub_diag. simpl. lia.
  - split; [lia|]. rewrite Z.sub_diag. simpl. lia.
  - split; [lia|].
    change (Pos.iter xO mx d) with (shift_pos d mx).
    rewrite shift_pos_correct, Z.pow_pos_fold.
    replace (ex - ex') with (Zpos d) by lia. lia.
Qed.

Lemma binary_round_aligned (sx : bool) (mx : positive) (ex : Z) :
  -149 <= ex ->
  exists mz ez,
    binary_round prec emax sx mx ex =
    binary_round_aux prec emax sx (Zpos mz) ez loc_Exact /\
    F2Z (Zpos mz) ez = F2Z (Zpos mx) ex /\
    -149 <= ez /\ ez <= fx (dig (Zpos mz) + ez).
Proof.
  intros Hex. unfold binary_round.
  rewrite digits2_pos_log2. fold (dig (Zpos mx)). fold (fx (dig (Zpos mx) + ex)).
  pose proof (shl_align_spec mx ex (fx (dig (Zpos mx) + ex))) as H.
  cbv zeta in H.
  destruct (shl_align mx ex (fx (dig (Zpos mx) + ex))) as [mz ez].
  cbn [fst snd] in H. destruct H as [Hez Hmz].
  exists mz, ez. split; [reflexivity|].
  assert (-149 <= fx (dig (Zpos mx) + ex)) as HE by (rewrite fx_eq; lia).
  assert (0 <= ex - ez) as Hk by lia.
  assert (dig (Zpos mz) + ez = dig (Zpos mx) + ex) as Hmag.
  { rewrite Hmz, dig_shl by lia. lia. }
  split; [|split; [lia|rewrite Hmag; lia]].
  unfold F2Z. rewrite Hmz.
  replace (ex + bias) with ((ex - ez) + (ez + bias)) by lia.
  rewrite (Z.pow_add_r 2 (ex - ez) (ez + bias)) by (unfold bias; lia). ring.
Qed.

Lemma normalize_bracket (s ez : Z) (lo hi : f32) :
  -149 <= ez ->
  nice lo -> nice hi ->
  val lo <= F2Z s ez <= val hi ->
  let r := binary_normalize prec emax s ez false in
  nice r /\ val lo <= val r <= val hi.
Proof.
  intros Hez Hlo Hhi Hb r. unfold r, binary_normalize.
  destruct s as [|p|p].
  - simpl. unfold F2Z in Hb. split; [exact I|lia].
  - destruct (binary_round_aligned false p ez Hez)
      as (mz & ez' & -> & Hv & He & Hn).
    rewrite <- Hv in Hb.
    assert (0 <= ez' + bias) as Hb' by (unfold bias; lia).
    destruct (round_pos_upper (Zpos mz) ez' ltac:(lia) Hb' Hn hi Hhi
                ltac:(lia)) as [N [P U]].
    pose proof (round_pos_lower (Zpos mz) ez' ltac:(lia) Hb' Hn lo Hlo
                  ltac:(lia) N) as L.
    split; [exact N|lia].
  - destruct (binary_round_aligned true p ez Hez)
      as (mz & ez' & -> & Hv & He & Hn).
    rewrite binary_round_aux_opp, nice_opp, val_opp.
    assert (F2Z (Z.neg p) ez = - F2Z (Zpos p) ez) as Hneg
      by (unfold F2Z; lia).
    rewrite Hneg, <- Hv in Hb.
    assert (0 <= ez' + bias) as Hb' by (unfold bias; lia).
    destruct (round_pos_upper (Zpos mz) ez' ltac:(lia) Hb' Hn (SFopp lo)
                ltac:(now apply nice_opp)
                ltac:(rewrite val_opp; lia)) as [N [P U]].
    pose proof (round_pos_lower (Zpos mz) ez' ltac:(lia) Hb' Hn (SFopp hi)
                  ltac:(now apply nice_opp)
                  ltac:(rewrite val_opp; lia) N) as L.
    rewrite val_opp in U, L. split; [exact N|lia].
Qed.

(** A canonical number between zero and the exact value, at least half the
    rounded one in magnitude. *)
Lemma normalize_half (s ez : Z) :
  -149 <= ez -> s <> 0 ->
  let r := binary_normalize prec emax s ez false in
  nice r ->
  exists y', nice y' /\
    (0 < s -> 0 <= val y' <= F2Z s ez /\ val r <= 2 * val y') /\
    (s < 0 -> F2Z s ez <= val y' <= 0 /\ 2 * val y' <= val r).
Proof.
  intros Hez Hs r. unfold r, binary_normalize.
  destruct s as [|p|p]; [lia| |].
  - destruct (binary_round_aligned false p ez Hez)
      as (mz & ez' & -> & Hv & He & Hn). intros N.
    assert (0 <= ez' + bias) as Hb' by (unfold bias; lia).
    destruct (round_pos_half (Zpos mz) ez' ltac:(lia) Hb' Hn He N)
      as (y' & Ny & By & Hy).
    exists y'. split; [exact Ny|]. split; [|lia].
    intros _. rewrite <- Hv. split; assumption.
  - destruct (binary_round_aligned true p ez Hez)
      as (mz & ez' & -> & Hv & He & Hn).
    rewrite binary_round_aux_opp, nice_opp, val_opp. intros N.
    assert (0 <= ez' + bias) as Hb' by (unfold bias; lia).
    destruct (round_pos_half (Zpos mz) ez' ltac:(lia) Hb' Hn He N)
      as (y' & Ny & By & Hy).
    exists (SFopp y'). split; [now apply nice_opp|]. split; [lia|].
    intros _. rewrite val_opp.
    assert (F2Z (Z.neg p) ez = - F2Z (Zpos p) ez) as Hneg
      by (unfold F2Z; lia).
    rewrite Hneg, <- Hv. lia.
Qed.

(** *** Addition and subtraction *)

Lemma aligned_val (s : bool) (m : positive) (e ez : Z) :
  ez <= e -> -149 <= ez ->
  F2Z (cond_Zopp s (Zpos (fst (shl_align m e ez)))) ez =
  cond_Zopp s (F2Z (Zpos m) e).
Proof.
  intros Hle Hez. destruct (shl_align_spec m e ez) as [H1 H2].
  rewrite H2, H1. replace (Z.min e ez) with ez by lia.
  assert (F2Z (Zpos m * 2 ^ (e - ez)) ez = F2Z (Zpos m) e) as E.
  { unfold F2Z. replace (e + bias) with ((e - ez) + (ez + bias)) by lia.
    rewrite (Z.pow_add_r 2 (e - ez) (ez + bias)) by (unfold bias; lia).
    ring. }
  destruct s; cbn [cond_Zopp]; [|exact E].
  rewrite <- E. unfold F2Z. ring.
Qed.

Lemma F2Z_add (a b e : Z) : F2Z (a + b) e = F2Z a e + F2Z b e.
Proof. unfold F2Z. ring. Qed.

Lemma F2Z_sub (a b e : Z) : F2Z (a - b) e = F2Z a e - F2Z b e.
Proof. unfold F2Z. ring. Qed.

Lemma nice_exp (s : bool) (m : positive) (e : Z) :
  nice (S754_finite s m e) -> -149 <= e.
Proof.
  intros H. apply nice_finite in H. destruct H as [H _].
  apply (canon_exp _ _ H).
Qed.

Lemma sub_finite (sx sy : bool) (mx my : positive) (ex ey : Z) :
  nice (S754_finite sx mx ex) -> nice (S754_finite sy my ey) ->
  exists s ez,
    SFsub prec emax (S754_finite sx mx ex) (S754_finite sy my ey) =
    binary_normalize prec emax s ez false /\
    -149 <= ez /\
    F2Z s ez = val (S754_finite sx mx ex) - val (S754_finite sy my ey).
Proof.
  intros Hx Hy. pose proof (nice_exp _ _ _ Hx). pose proof (nice_exp _ _ _ Hy).
  eexists. exists (Z.min ex ey). split; [reflexivity|]. split; [lia|].
  rewrite F2Z_sub, !aligned_val by lia. reflexivity.
Qed.

Lemma add_finite (sx sy : bool) (mx my : positive) (ex ey : Z) :
  nice (S754_finite sx mx ex) -> nice (S754_finite sy my ey) ->
  exists s ez,
    SFadd prec emax (S754_finite sx mx ex) (S754_finite sy my ey) =
    binary_normalize prec emax s ez false /\
    -149 <= ez /\
    F2Z s ez = val (S754_finite sx mx ex) + val (S754_finite sy my ey).
Proof.
  intros Hx Hy. pose proof (nice_exp _ _ _ Hx). pose proof (nice_exp _ _ _ Hy).
  eexists. exists (Z.min ex ey). split; [reflexivity|]. split; [lia|].
  rewrite F2Z_add, !aligned_val by lia. reflexivity.
Qed.

Lemma sub_bracket (x y lo hi : f32) :
  nice x -> nice y -> nice lo -> nice hi ->
  val lo <= val x - val y <= val hi ->
  nice (SFsub prec emax x y) /\
  val lo <= val (SFsub prec emax x y) <= val hi.
Proof.
  intros Hx Hy Hlo Hhi Hb.
  destruct x as [sx|sx| |sx mx ex], y as [sy|sy| |sy my ey];
    try contradiction.
  - assert (val (SFsub prec emax (S754_zero sx) (S754_zero sy)) = 0 /\
            nice (SFsub prec emax (S754_zero sx) (S754_zero sy))) as [E N]
      by (destruct sx, sy; simpl; auto).
    rewrite E. simpl in Hb. split; [exact N|lia].
  - cbn [SFsub]. split; [exact Hy|].
    cbn [val] in *. destruct sy; cbn [negb cond_Zopp] in *; lia.
  - cbn [SFsub]. split; [exact Hx|]. cbn [val] in *. lia.
  - destruct (sub_finite sx sy mx my ex ey Hx Hy) as (s & ez & -> & He & Hv).
    rewrite <- Hv in Hb. now apply normalize_bracket.
Qed.

Lemma add_bracket (x y lo hi : f32) :
  nice x -> nice y -> nice lo -> nice hi ->
  val lo <= val x + val y <= val hi ->
  nice (SFadd prec emax x y) /\
  val lo <= val (SFadd prec emax x y) <= val hi.
Proof.
  intros Hx Hy Hlo Hhi Hb.
  destruct x as [sx|sx| |sx mx ex], y as [sy|sy| |sy my ey];
    try contradiction.
  - assert (val (SFadd prec emax (S754_zero sx) (S754_zero sy)) = 0 /\
            nice (SFadd prec emax (S754_zero sx) (S754_zero sy))) as [E N]
      by (destruct sx, sy; simpl; auto).
    rewrite E. simpl in Hb. split; [exact N|lia].
  - cbn [SFadd]. split; [exact Hy|]. cbn [val] in *. lia.
  - cbn [SFadd]. split; [exact Hx|]. cbn [val] in *. lia.
  - destruct (add_finite sx sy mx my ex ey Hx Hy) as (s & ez & -> & He & Hv).
    rewrite <- Hv in Hb. now apply normalize_bracket.
Qed.

Lemma F2Z_sign (s e : Z) :
  0 <= e + bias -> (0 < F2Z s e <-> 0 < s) /\ (F2Z s e < 0 <-> s < 0).
Proof.
  intros He. unfold F2Z.
  pose proof (Z.pow_pos_nonneg 2 (e + bias) ltac:(lia) He). nia.
Qed.

Lemma sub_half (x y : f32) :
  nice x -> nice y -> nice (SFsub prec emax x y) ->
  val x <> val y ->
  exists y', nice y' /\
    (val y < val x ->
     0 <= val y' <= val x - val y /\
     val (SFsub prec emax x y) <= 2 * val y') /\
    (val x < val y ->
     val x - val y <= val y' <= 0 /\
     2 * val y' <= val (SFsub prec emax x y)).
Proof.
  intros Hx Hy Hr Hne.
  destruct x as [sx|sx| |sx mx ex], y as [sy|sy| |sy my ey];
    try contradiction; try (simpl in Hne; lia).
  - exists (S754_finite (negb sy) my ey). cbn [SFsub] in *.
    split; [exact Hr|]. cbn [val].
    destruct sy; cbn [negb cond_Zopp]; lia.
  - exists (S754_finite sx mx ex). cbn [SFsub] in *.
    split; [exact Hr|]. cbn [val]. lia.
  - destruct (sub_finite sx sy mx my ex ey Hx Hy) as (s & ez & E & He & Hv).
    rewrite E in *.
    assert (0 <= ez + bias) as Hb by (unfold bias; lia).
    destruct (F2Z_sign s ez Hb) as [S1 S2].
    destruct (normalize_half s ez He ltac:(rewrite Hv in *; lia) Hr)
      as (y' & Ny & Hp & Hn).
    exists y'. split; [exact Ny|]. rewrite <- Hv. split; intros H.
    + apply Hp. apply S1. lia.
    + apply Hn. apply S2. lia.
Qed.

(** *** Multiplication by a normal constant of at most one half *)

Section Gain.

Variable ma : positive.
Variable ea : Z.
Hypothesis Hdig : dig (Zpos ma) = 24.
Hypothesis Hea : -100 <= ea <= 0.
Hypothesis Hhalf : 2 * Zpos ma <= 2 ^ (- ea).

Let alpha : f32 := S754_finite false ma ea.

Lemma gain_exact (md : positive) (ed : Z) :
  -149 <= ed ->
  0 < F2Z (Zpos ma * Zpos md) (ea + ed) /\
  2 * F2Z (Zpos ma * Zpos md) (ea + ed) <= F2Z (Zpos md) ed /\
  ea + ed <= fx (dig (Zpos ma * Zpos md) + (ea + ed)).
Proof.
  intros Hed.
  assert (0 <= ea + ed + bias) as Hb by (unfold bias; lia).
  split; [apply F2Z_pos; lia|]. split.
  - unfold F2Z.
    replace (ed + bias) with (- ea + (ea + ed + bias)) by lia.
    rewrite (Z.pow_add_r 2 (- ea) (ea + ed + bias)) by lia.
    pose proof (Z.pow_pos_nonneg 2 (ea + ed + bias) ltac:(lia) Hb).
    assert (2 * Z.pos ma * Z.pos md <= 2 ^ (- ea) * Z.pos md) by nia.
    nia.
  - assert (24 <= dig (Zpos ma * Zpos md)) as Hd.
    { rewrite <- Hdig. apply dig_le; nia. }
    rewrite fx_eq. lia.
Qed.

Lemma gain_bracket (d y : f32) :
  nice d -> nice y ->
  (0 <= val d <= 2 * val y ->
   nice (SFmul prec emax alpha d) /\
   0 <= val (SFmul prec emax alpha d) <= val y) /\
  (2 * val y <= val d <= 0 ->
   nice (SFmul prec emax alpha d) /\
   val y <= val (SFmul prec emax alpha d) <= 0).
Proof.
  intros Hd Hy.
  destruct d as [sd|sd| |sd md ed]; try contradiction.
  - cbn [SFmul alpha val]. split; intros H; (split; [exact I|lia]).
  - pose proof (nice_exp _ _ _ Hd) as Hed.
    destruct (gain_exact md ed Hed) as (Gp & Gh & Gn).
    assert (0 <= ea + ed + bias) as Hb by (unfold bias; lia).
    pose proof (nice_val_pos _ _ _ Hd) as Pd.
    unfold alpha. cbn [SFmul xorb]. change (Z.pos (ma * md))
      with (Zpos ma * Zpos md).
    destruct sd; cbn [val cond_Zopp]; split; intros H; try lia.
    + rewrite binary_round_aux_opp, nice_opp, val_opp.
      destruct (round_pos_upper (Zpos ma * Zpos md) (ea + ed) ltac:(lia) Hb
                  Gn (SFopp y) ltac:(now apply nice_opp)
                  ltac:(rewrite val_opp; lia)) as [N U].
      rewrite val_opp in U. split; [exact N|lia].
    + destruct (round_pos_upper (Zpos ma * Zpos md) (ea + ed) ltac:(lia) Hb
                  Gn y Hy ltac:(lia)) as [N U].
      split; [exact N|lia].
Qed.

(** [v += alpha * (x - v)] lands between [v] and [x]. *)
Lemma ema_between (v x h : f32) :
  nice v -> nice x -> nice h ->
  Z.abs (val x - val v) <= val h ->
  let r := SFadd prec emax v (SFmul prec emax alpha (SFsub prec emax x v)) in
  nice r /\
  (val v <= val x -> val v <= val r <= val x) /\
  (val x <= val v -> val x <= val r <= val v).
Proof.
  intros Hv Hx Hh Hb r. unfold r.
  destruct (sub_bracket x v (SFopp h) h Hx Hv ltac:(now apply nice_opp) Hh
              ltac:(rewrite val_opp; lia)) as [Nd _].
  set (d := SFsub prec emax x v) in *.
  destruct (Z.lt_trichotomy (val v) (val x)) as [Hlt|[Heq|Hgt]].
  - destruct (sub_bracket x v (S754_zero false) h Hx Hv I Hh
                ltac:(simpl val; lia)) as [_ [D0 _]]. fold d in D0.
    change (val (S754_zero false)) with 0 in D0.
    destruct (sub_half x v Hx Hv Nd ltac:(lia)) as (y' & Ny & Hp & _).
    destruct (Hp Hlt) as [[Y0 Y1] Y2]. fold d in Y2.
    destruct (gain_bracket d y' Nd Ny) as [G _].
    destruct (G ltac:(lia)) as [Np [P0 P1]].
    destruct (add_bracket v _ v x Hv Np Hv Hx ltac:(lia)) as [Nr Br].
    split; [exact Nr|]. split; intros; lia.
  - destruct (sub_bracket x v (S754_zero false) (S754_zero false) Hx Hv I I
                ltac:(simpl val; lia)) as [_ D0]. fold d in D0.
    change (val (S754_zero false)) with 0 in D0.
    destruct (gain_bracket d (S754_zero false) Nd I) as [G _].
    destruct (G ltac:(simpl val; lia)) as [Np P0]. change (val (S754_zero false)) with 0 in P0.
    destruct (add_bracket v _ v v Hv Np Hv Hv ltac:(lia)) as [Nr Br].
    split; [exact Nr|]. split; intros; lia.
  - destruct (sub_bracket x v (SFopp h) (S754_zero false) Hx Hv
                ltac:(now apply nice_opp) I
                ltac:(rewrite val_opp; simpl val; lia)) as [_ [_ D0]].
    fold d in D0. change (val (S754_zero false)) with 0 in D0.
    destruct (sub_half x v Hx Hv Nd ltac:(lia)) as (y' & Ny & _ & Hn).
    destruct (Hn Hgt) as [[Y0 Y1] Y2]. fold d in Y2.
    destruct (gain_bracket d y' Nd Ny) as [_ G].
    destruct (G ltac:(lia)) as [Np [P0 P1]].
    destruct (add_bracket v _ x v Hv Np Hx Hv ltac:(lia)) as [Nr Br].
    split; [exact Nr|]. split; intros; lia.
Qed.

End Gain.

End F32Facts.

(** ** Properties of the alarm state machine *)

Module DetectorFacts.

Import HrAnomalyDetector DetectorSpec.

Lemma AlarmType_eqb_eq (a b : AlarmType) : AlarmType_eqb a b = true <-> a = b.
Proof. destruct a, b; simpl; split; congruence. Qed.

Lemma AlarmType_eqb_neq (a b : AlarmType) :
  AlarmType_eqb a b = false <-> a <> b.
Proof. destruct a, b; simpl; split; congruence. Qed.

Lemma update_unfold (d : t) (r : BpmReading) :
  update d r =
  transition (fst (held_candidate d r)) r (snd (held_candidate d r)).
Proof. unfold update. destruct (held_candidate d r); reflexivity. Qed.

Lemma held_candidate_unfold (d : t) (r : BpmReading) :
  held_candidate d r =
  hysteresis (fst (raw_candidate d r)) r (snd (raw_candidate d r)).
Proof. unfold held_candidate. destruct (raw_candidate d r); reflexivity. Qed.

Lemma brady_tachy_active (d : t) (r : BpmReading) :
  active_alarm_ (fst (brady_tachy d r)) = active_alarm_ d.
Proof.
  unfold brady_tachy, track_abnormal.
  split_ifs;
    reflexivity.
Qed.

Lemma classify_active (d : t) (r : BpmReading) :
  active_alarm_ (fst (classify d r)) = active_alarm_ d.
Proof.
  unfold classify.
  destruct (no_signal_sustained d r); [reflexivity|].
  destruct (usable (cfg_ d) r); [|reflexivity].
  pose proof (brady_tachy_active d r) as H.
  destruct (brady_tachy d r) as [d1 c]; simpl in H.
  destruct c; simpl; assumption.
Qed.

Lemma raw_candidate_active (d : t) (r : BpmReading) :
  active_alarm_ (fst (raw_candidate d r)) = active_alarm_ d.
Proof. unfold raw_candidate. now rewrite classify_active. Qed.

Lemma hysteresis_active (d : t) (r : BpmReading) (c : AlarmType) :
  active_alarm_ (fst (hysteresis d r c)) = active_alarm_ d.
Proof.
  unfold hysteresis.
  split_ifs;
    reflexivity.
Qed.

Lemma held_candidate_active (d : t) (r : BpmReading) :
  active_alarm_ (fst (held_candidate d r)) = active_alarm_ d.
Proof.
  rewrite held_candidate_unfold, hysteresis_active.
  apply raw_candidate_active.
Qed.

(** One call of [update]: what is returned and the active alarm afterwards,
    by comparison of the candidate with the active alarm before the call. *)
Lemma update_edge (d : t) (r : BpmReading) :
  let candidate := snd (held_candidate d r) in
  match snd (update d r) with
  | Some ev =>
      candidate <> active_alarm_ d /\
      ev = mkAlarmEvent candidate (bpm r) (quality r) (t_ms r) /\
      active_alarm_ (fst (update d r)) = candidate
  | None =>
      candidate = active_alarm_ d /\
      active_alarm_ (fst (update d r)) = active_alarm_ d
  end.
Proof.
  intros candidate. rewrite update_unfold. unfold transition.
  rewrite held_candidate_active. fold candidate.
  destruct (AlarmType_eqb candidate (active_alarm_ d)) eqn:E; simpl.
  - apply AlarmType_eqb_eq in E. rewrite held_candidate_active. auto.
  - apply AlarmType_eqb_neq in E. auto.
Qed.

Lemma run_cons (d : t) (r : BpmReading) (rs : list BpmReading) :
  run d (r :: rs) =
  (fst (run (fst (update d r)) rs),
   snd (update d r) :: snd (run (fst (update d r)) rs)).
Proof.
  simpl. destruct (update d r) as [d1 ev]; simpl.
  destruct (run d1 rs); reflexivity.
Qed.

Lemma run_no_repeat (rs : list BpmReading) : forall d,
  changes_each_time (active_alarm_ d) (event_kinds (snd (run d rs))).
Proof.
  induction rs as [|r rs IH]; intros d; [exact I|].
  rewrite run_cons. cbn [snd event_kinds flat_map].
  pose proof (update_edge d r) as H. cbv zeta in H.
  specialize (IH (fst (update d r))).
  destruct (snd (update d r)) as [ev|].
  - destruct H as (Hne & Hev & Hact). subst ev. cbn [ev_type app].
    simpl. split; [exact Hne|]. rewrite <- Hact. exact IH.
  - destruct H as (_ & Hact). simpl. rewrite <- Hact. exact IH.
Qed.

(** C2. [update] returns an event exactly when the candidate of the tick,
    after the clear hysteresis, differs from the stored active alarm; the
    event carries that candidate and the reading's bpm, quality and time,
    and the candidate becomes the active alarm.  When the candidate equals
    the active alarm nothing is returned and the active alarm stays.  Along
    any run the kind of every event differs from the kind of the event
    before it (and the first from the initial active alarm): no event is
    repeated while a state persists. *)
Theorem update_event_iff_candidate_differs :
  (forall (d : t) (r : BpmReading),
     ((exists ev, snd (update d r) = Some ev) <->
      snd (held_candidate d r) <> active_alarm_ d) /\
     (forall ev, snd (update d r) = Some ev ->
        ev = mkAlarmEvent (snd (held_candidate d r))
                          (bpm r) (quality r) (t_ms r) /\
        active_alarm_ (fst (update d r)) = snd (held_candidate d r)) /\
     (snd (update d r) = None ->
        snd (held_candidate d r) = active_alarm_ d /\
        active_alarm_ (fst (update d r)) = active_alarm_ d)) /\
  (forall (d : t) (rs : list BpmReading),
     changes_each_time (active_alarm_ d) (event_kinds (snd (run d rs)))).
Proof.
  split; [|intros d rs; apply run_no_repeat].
  intros d r. pose proof (update_edge d r) as H. cbv zeta in H.
  destruct (snd (update d r)) as [ev|].
  - destruct H as (Hne & Hev & Hact).
    split; [split; [intros _; exact Hne | intros _; now exists ev]|].
    split; [|discriminate].
    intros ev' E. injection E as <-. split; assumption.
  - destruct H as (Heq & Hact).
    split; [split; [intros [ev E]; discriminate | intros Hne; contradiction]|].
    split; [intros ev E; discriminate|].
    intros _. split; assumption.
Qed.

(** *** The rapid-change scan *)

Lemma rapid_loop_spec (d : t) (n : nat) : forall i,
  rapid_loop d (entry d 0) n i = true <->
  exists k, i <= k < i + Z.of_nat n /\
    0 < age d k <= rapid_change_window_ms (cfg_ d) /\
    rapid_change_delta_bpm (cfg_ d) <= jump d k /\
    forall j, i <= j < k -> age d j <= rapid_change_window_ms (cfg_ d).
Proof.
  induction n as [|n IH]; intros i.
  - simpl. split; [discriminate|]. intros (k & Hk & _). lia.
  - cbn [rapid_loop]. fold (entry d i). fold (age d i). fold (jump d i).
    destruct (age d i <=? 0) eqn:E0.
    { apply Z.leb_le in E0. rewrite IH. split.
      - intros (k & Hk & Ha & Hj & Hs). exists k.
        repeat split; try lia.
        intros j Hjk. destruct (Z.eq_dec j i) as [->|]; [lia|].
        apply Hs; lia.
      - intros (k & Hk & Ha & Hj & Hs).
        assert (k <> i) by (intros ->; lia).
        exists k. repeat split; try lia.
        intros j Hjk. apply Hs; lia. }
    apply Z.leb_gt in E0.
    destruct (age d i >? rapid_change_window_ms (cfg_ d)) eqn:E1.
    { apply Z.gtb_lt in E1. split; [discriminate|].
      intros (k & Hk & Ha & Hj & Hs).
      destruct (Z.eq_dec k i) as [->|]; [lia|].
      specialize (Hs i). lia. }
    assert (age d i <= rapid_change_window_ms (cfg_ d)) as E1'.
    { destruct (Z.gtb_spec (age d i) (rapid_change_window_ms (cfg_ d)));
        [discriminate | lia]. }
    destruct (jump d i >=? rapid_change_delta_bpm (cfg_ d)) eqn:E2.
    { apply Z.geb_le in E2. split; [|reflexivity]. intros _.
      exists i. repeat split; try lia. }
    assert (jump d i < rapid_change_delta_bpm (cfg_ d)) as E2'.
    { destruct (Z.geb_spec (jump d i) (rapid_change_delta_bpm (cfg_ d)));
        [discriminate | lia]. }
    rewrite IH. split.
    + intros (k & Hk & Ha & Hj & Hs). exists k.
      repeat split; try lia.
      intros j Hjk. destruct (Z.eq_dec j i) as [->|]; [lia|].
      apply Hs; lia.
    + intros (k & Hk & Ha & Hj & Hs).
      assert (k <> i) by (intros ->; lia).
      exists k. repeat split; try lia.
      intros j Hjk. apply Hs; lia.
Qed.

Lemma detect_rapid_change_spec (d : t) :
  cfg_ d = default_Config ->
  detect_rapid_change d = true <-> exists i, scan_hit d i.
Proof.
  intros Hcfg. unfold detect_rapid_change, scan_hit.
  destruct (hist_count_ d <? 2) eqn:Ec.
  - apply Z.ltb_lt in Ec. split; [discriminate|].
    intros (i & Hi & _). lia.
  - apply Z.ltb_ge in Ec.
    replace (hist_at d (Z.rem (hist_wr_ d + HIST_N - 1) HIST_N))
      with (entry d 0)
      by (unfold entry; now rewrite Z.sub_0_r).
    rewrite rapid_loop_spec, Hcfg.
    rewrite Z2Nat.id by lia.
    cbn [rapid_change_window_ms rapid_change_delta_bpm default_Config].
    split; intros (k & Hk & Ha & Hj & Hs); exists k;
      (split; [lia|]); (split; [lia|]); (split; [lia|]); exact Hs.
Qed.

(** [brady_tachy] touches the abnormal-onset members only: the scan that
    follows reads the ring [push_hist] left. *)
Lemma rapid_loop_ext (d d' : t) (newest : Hist) (n : nat) : forall i,
  cfg_ d = cfg_ d' -> hist_ d = hist_ d' -> hist_wr_ d = hist_wr_ d' ->
  rapid_loop d newest n i = rapid_loop d' newest n i.
Proof.
  induction n as [|n IH]; intros i Hc Hh Hw; [reflexivity|].
  cbn [rapid_loop]. unfold hist_at. rewrite Hc, Hh, Hw.
  rewrite (IH (i + 1) Hc Hh Hw). reflexivity.
Qed.

Lemma detect_rapid_change_ext (d d' : t) :
  cfg_ d = cfg_ d' -> hist_ d = hist_ d' -> hist_wr_ d = hist_wr_ d' ->
  hist_count_ d = hist_count_ d' ->
  detect_rapid_change d = detect_rapid_change d'.
Proof.
  intros Hc Hh Hw Hn. unfold detect_rapid_change. rewrite Hn.
  destruct (hist_count_ d' <? 2); [reflexivity|].
  unfold hist_at. rewrite Hh, Hw. now apply rapid_loop_ext.
Qed.

Lemma brady_tachy_scan (d : t) (r : BpmReading) :
  detect_rapid_change (fst (brady_tachy d r)) = detect_rapid_change d.
Proof.
  apply detect_rapid_change_ext; unfold brady_tachy, track_abnormal;
    split_ifs;
    reflexivity.
Qed.

Lemma pushed_cfg (d : t) (r : BpmReading) : cfg_ (pushed d r) = cfg_ d.
Proof. reflexivity. Qed.

Lemma raw_candidate_usable (d : t) (r : BpmReading) :
  usable (cfg_ d) r = true ->
  no_signal_sustained (pushed d r) r = false ->
  snd (brady_tachy (pushed d r) r) = NONE ->
  snd (raw_candidate d r) =
  if detect_rapid_change (pushed d r) then RAPID_CHANGE else NONE.
Proof.
  intros Hu Hn Hb. unfold raw_candidate. fold (pushed d r).
  unfold classify. rewrite Hn, pushed_cfg, Hu.
  pose proof (brady_tachy_scan (pushed d r) r) as Hs.
  destruct (brady_tachy (pushed d r) r) as [d1 c]. simpl in Hb, Hs.
  subst c. simpl. now rewrite Hs.
Qed.

(** *** Comparisons of binary32 numbers *)

Lemma SFcompare_swap (x y : spec_float) :
  SFcompare y x =
  match SFcompare x y with
  | Some c => Some (CompOpp c)
  | None => None
  end.
Proof.
  destruct x as [sx|sx| |sx mx ex], y as [sy|sy| |sy my ey]; simpl;
    try reflexivity;
    try (destruct sx; reflexivity);
    try (destruct sy; reflexivity);
    try (destruct sx, sy; reflexivity).
  destruct sx, sy; try reflexivity;
    rewrite (Z.compare_antisym ey ex);
    destruct (ey ?= ex)%Z; simpl; try reflexivity;
    pose proof (Pos.compare_cont_antisym mx my Eq) as H; simpl in H;
    rewrite <- H; destruct (Pos.compare_cont Eq mx my); reflexivity.
Qed.

Lemma geb_not_ltb (x y : f32) : geb x y = true -> ltb x y = false.
Proof.
  unfold geb, ltb, SFleb, SFltb. rewrite (SFcompare_swap y x).
  destruct (SFcompare y x) as [[]|]; simpl; congruence.
Qed.


(** The 32-bit difference is the difference of the two rates whenever
    that fits in an [int]. *)
Lemma wrap_int_small (z : Z) : - 2 ^ 31 <= z < 2 ^ 31 -> wrap_int z = z.
Proof. intros H. unfold wrap_int. rewrite Z.mod_small; lia. Qed.

Lemma jump_exact (d : t) (i : Z) :
  - 2 ^ 31 < hist_bpm (entry d 0) - hist_bpm (entry d i) < 2 ^ 31 ->
  jump d i = true_jump d i.
Proof.
  intros H. unfold jump, true_jump, int_abs, int_sub.
  rewrite (wrap_int_small (_ - _)) by lia.
  apply wrap_int_small. lia.
Qed.




(** *** No-signal tracking *)

Lemma brady_tachy_frame (d : t) (r : BpmReading) :
  cfg_ (fst (brady_tachy d r)) = cfg_ d /\
  no_signal_since_ms_ (fst (brady_tachy d r)) = no_signal_since_ms_ d /\
  clear_since_ms_ (fst (brady_tachy d r)) = clear_since_ms_ d.
Proof.
  unfold brady_tachy, track_abnormal.
  split_ifs;
    repeat split.
Qed.

Lemma classify_frame (d : t) (r : BpmReading) :
  cfg_ (fst (classify d r)) = cfg_ d /\
  no_signal_since_ms_ (fst (classify d r)) = no_signal_since_ms_ d /\
  clear_since_ms_ (fst (classify d r)) = clear_since_ms_ d.
Proof.
  unfold classify.
  destruct (no_signal_sustained d r); [repeat split|].
  destruct (usable (cfg_ d) r); [|repeat split].
  pose proof (brady_tachy_frame d r) as H.
  destruct (brady_tachy d r) as [d1 c]. simpl in H.
  destruct c; exact H.
Qed.

Lemma raw_candidate_frame (d : t) (r : BpmReading) :
  cfg_ (fst (raw_candidate d r)) = cfg_ d /\
  no_signal_since_ms_ (fst (raw_candidate d r)) =
    no_signal_since_ms_ (track_no_signal d r) /\
  clear_since_ms_ (fst (raw_candidate d r)) = clear_since_ms_ d.
Proof.
  unfold raw_candidate.
  destruct (classify_frame (push_hist (track_no_signal d r) r) r)
    as (A & B & C).
  rewrite A, B, C. repeat split.
Qed.

Lemma hysteresis_frame (d : t) (r : BpmReading) (c : AlarmType) :
  cfg_ (fst (hysteresis d r c)) = cfg_ d /\
  no_signal_since_ms_ (fst (hysteresis d r c)) = no_signal_since_ms_ d.
Proof.
  unfold hysteresis.
  split_ifs;
    repeat split.
Qed.

Lemma transition_frame (d : t) (r : BpmReading) (c : AlarmType) :
  cfg_ (fst (transition d r c)) = cfg_ d /\
  no_signal_since_ms_ (fst (transition d r c)) = no_signal_since_ms_ d /\
  clear_since_ms_ (fst (transition d r c)) = clear_since_ms_ d.
Proof.
  unfold transition.
  destruct (negb (AlarmType_eqb c (active_alarm_ d))); repeat split.
Qed.

Lemma update_cfg (d : t) (r : BpmReading) : cfg_ (fst (update d r)) = cfg_ d.
Proof.
  rewrite update_unfold, held_candidate_unfold.
  rewrite (proj1 (transition_frame _ _ _)), (proj1 (hysteresis_frame _ _ _)).
  apply raw_candidate_frame.
Qed.

Lemma update_no_signal_since (d : t) (r : BpmReading) :
  no_signal_since_ms_ (fst (update d r)) =
  no_signal_since_ms_ (track_no_signal d r).
Proof.
  rewrite update_unfold, held_candidate_unfold.
  rewrite (proj1 (proj2 (transition_frame _ _ _))).
  rewrite (proj2 (hysteresis_frame _ _ _)).
  apply raw_candidate_frame.
Qed.

Lemma run_cfg (rs : list BpmReading) : forall d,
  cfg_ (fst (run d rs)) = cfg_ d.
Proof.
  induction rs as [|r rs IH]; intros d; [reflexivity|].
  rewrite run_cons. cbn [fst]. rewrite IH. apply update_cfg.
Qed.

Lemma run_app (rs1 rs2 : list BpmReading) : forall d,
  run d (rs1 ++ rs2) =
  (fst (run (fst (run d rs1)) rs2),
   snd (run d rs1) ++ snd (run (fst (run d rs1)) rs2)).
Proof.
  induction rs1 as [|r rs1 IH]; intros d.
  - simpl. now destruct (run d rs2).
  - rewrite <- app_comm_cons, !run_cons, IH. reflexivity.
Qed.

(** A streak of bad readings keeps the onset it finds. *)
Lemma bad_streak_keeps_onset (rs : list BpmReading) : forall d,
  cfg_ d = default_Config ->
  no_signal_since_ms_ d <> 0 ->
  Forall bad rs ->
  no_signal_since_ms_ (fst (run d rs)) = no_signal_since_ms_ d.
Proof.
  induction rs as [|r rs IH]; intros d Hcfg Hs Hbad; [reflexivity|].
  inversion Hbad as [|? ? Hr Hrs]; subst.
  rewrite run_cons. cbn [fst].
  assert (no_signal_since_ms_ (fst (update d r)) = no_signal_since_ms_ d)
    as E.
  { rewrite update_no_signal_since. cbn [track_no_signal no_signal_since_ms_].
    rewrite Hcfg. unfold bad in Hr. rewrite Hr.
    destruct (no_signal_since_ms_ d =? 0) eqn:E0; [|reflexivity].
    apply Z.eqb_eq in E0. contradiction. }
  rewrite IH; [exact E| now rewrite update_cfg | now rewrite E | exact Hrs].
Qed.

(** A bad reading with a non-zero time, no onset pending, starts one. *)
Lemma bad_streak_onset (d : t) (r1 : BpmReading) (rest : list BpmReading) :
  cfg_ d = default_Config ->
  no_signal_since_ms_ d = 0 ->
  t_ms r1 <> 0 ->
  Forall bad (r1 :: rest) ->
  no_signal_since_ms_ (fst (run d (r1 :: rest))) = t_ms r1.
Proof.
  intros Hcfg Hs Ht Hbad. inversion Hbad as [|? ? Hr Hrs]; subst.
  rewrite run_cons. cbn [fst].
  assert (no_signal_since_ms_ (fst (update d r1)) = t_ms r1) as E.
  { rewrite update_no_signal_since. cbn [track_no_signal no_signal_since_ms_].
    rewrite Hcfg. unfold bad in Hr. rewrite Hr, Hs. reflexivity. }
  rewrite bad_streak_keeps_onset;
    [exact E | now rewrite update_cfg | now rewrite E | exact Hrs].
Qed.

Lemma hysteresis_candidate (d : t) (r : BpmReading) (c : AlarmType) :
  snd (hysteresis d r c) = c \/ snd (hysteresis d r c) = active_alarm_ d.
Proof.
  unfold hysteresis.
  split_ifs;
    simpl; auto.
Qed.

Lemma hysteresis_not_none (d : t) (r : BpmReading) (c : AlarmType) :
  c <> NONE -> hysteresis d r c = (set_clear_since d 0, c).
Proof.
  intros Hc. unfold hysteresis.
  apply AlarmType_eqb_neq in Hc. rewrite Hc, andb_false_r. reflexivity.
Qed.

Lemma brady_tachy_candidate (d : t) (r : BpmReading) :
  snd (brady_tachy d r) = TACHYCARDIA ->
  (bpm r >? tachy_bpm (cfg_ d)) = true.
Proof.
  unfold brady_tachy.
  destruct ((bpm r >? 0) && (bpm r <? brady_bpm (cfg_ d))).
  - simpl. destruct (sustained _ r); discriminate.
  - destruct (bpm r >? tachy_bpm (cfg_ d)); [reflexivity|discriminate].
Qed.

Lemma raw_candidate_bad_not_tachy (d : t) (r : BpmReading) :
  cfg_ d = default_Config ->
  bad r ->
  snd (raw_candidate d r) <> TACHYCARDIA.
Proof.
  intros Hcfg Hbad. unfold raw_candidate, classify.
  destruct (no_signal_sustained _ r); [discriminate|].
  change (cfg_ (push_hist (track_no_signal d r) r)) with (cfg_ d).
  rewrite Hcfg.
  destruct (usable default_Config r) eqn:Hu; [|discriminate].
  pose proof (brady_tachy_candidate (push_hist (track_no_signal d r) r) r)
    as Ht.
  change (cfg_ (push_hist (track_no_signal d r) r)) with (cfg_ d) in Ht.
  rewrite Hcfg in Ht.
  destruct (brady_tachy _ r) as [d1 c]. simpl in Ht.
  assert (c <> TACHYCARDIA) as Hc.
  { intros ->. specialize (Ht eq_refl).
    unfold usable in Hu. apply andb_prop in Hu. destruct Hu as [Hq _].
    apply geb_not_ltb in Hq.
    unfold bad, bad_reading in Hbad. rewrite Hq in Hbad. simpl in Hbad, Ht.
    apply Z.leb_le in Hbad. apply Z.gtb_lt in Ht. lia. }
  destruct c; simpl; try discriminate; try congruence.
  destruct (detect_rapid_change d1); discriminate.
Qed.

Lemma update_bad_not_tachy (d : t) (r : BpmReading) (ev : AlarmEvent) :
  cfg_ d = default_Config ->
  bad r ->
  snd (update d r) = Some ev ->
  ev_type ev <> TACHYCARDIA.
Proof.
  intros Hcfg Hbad Hev.
  pose proof (update_edge d r) as H. cbv zeta in H. rewrite Hev in H.
  destruct H as (Hne & -> & _). cbn [ev_type].
  rewrite held_candidate_unfold in *.
  destruct (hysteresis_candidate (fst (raw_candidate d r)) r
              (snd (raw_candidate d r))) as [E|E].
  - rewrite E. now apply raw_candidate_bad_not_tachy.
  - rewrite raw_candidate_active in E. contradiction.
Qed.

Lemma run_bad_no_tachy (rs : list BpmReading) : forall d,
  cfg_ d = default_Config ->
  Forall bad rs ->
  ~ In TACHYCARDIA (event_kinds (snd (run d rs))).
Proof.
  induction rs as [|r rs IH]; intros d Hcfg Hbad; [intros []|].
  inversion Hbad as [|? ? Hr Hrs]; subst.
  rewrite run_cons. cbn [snd event_kinds flat_map].
  intros Hin. apply in_app_or in Hin. destruct Hin as [Hin|Hin].
  - destruct (snd (update d r)) as [ev|] eqn:Hev; [|destruct Hin].
    destruct Hin as [Hin|[]].
    now apply (update_bad_not_tachy d r ev Hcfg Hr Hev).
  - apply (IH (fst (update d r))); [now rewrite update_cfg|exact Hrs|exact Hin].
Qed.

(** C4 (amended). Over a run of readings with [quality < 0.25] or
    [bpm <= 0], whatever their bpm: no event of kind [TACHYCARDIA] is ever
    returned; and if the first of them finds no onset pending and its time
    is not 0 (the value that marks "no onset pending"), then at a reading
    3000 ms or more after it the candidate is [NO_SIGNAL], before and after
    the hysteresis, and [NO_SIGNAL] is the active alarm after the call. *)
Theorem no_signal_after_bad_streak :
  forall (d : t) (r1 r : BpmReading) (rest : list BpmReading),
    cfg_ d = default_Config ->
    Forall bad (r1 :: rest ++ [r]) ->
    ~ In TACHYCARDIA (event_kinds (snd (run d (r1 :: rest ++ [r])))) /\
    (no_signal_since_ms_ d = 0 ->
     t_ms r1 <> 0 ->
     3000 <= t_ms r - t_ms r1 ->
     let d1 := fst (run d (r1 :: rest)) in
     snd (raw_candidate d1 r) = NO_SIGNAL /\
     snd (held_candidate d1 r) = NO_SIGNAL /\
     active_alarm_ (fst (update d1 r)) = NO_SIGNAL).
Proof.
  intros d r1 r rest Hcfg Hbad.
  split; [now apply run_bad_no_tachy|].
  intros Hs Ht Hlong d1.
  assert (Forall bad (r1 :: rest) /\ bad r) as [Hstreak Hr].
  { change (r1 :: rest ++ [r]) with ((r1 :: rest) ++ [r]) in Hbad.
    apply Forall_app in Hbad. destruct Hbad as [H1 H2].
    split; [exact H1|]. now inversion H2. }
  assert (cfg_ d1 = default_Config) as Hcfg1
    by (unfold d1; now rewrite run_cfg).
  assert (no_signal_since_ms_ d1 = t_ms r1) as Hon
    by (now apply bad_streak_onset).
  assert (snd (raw_candidate d1 r) = NO_SIGNAL) as Hraw.
  { unfold raw_candidate, classify.
    assert (no_signal_sustained (push_hist (track_no_signal d1 r) r) r = true)
      as ->; [|reflexivity].
    unfold no_signal_sustained.
    cbn [push_hist track_no_signal no_signal_since_ms_ cfg_].
    rewrite Hcfg1. unfold bad in Hr. rewrite Hr, Hon.
    apply Z.eqb_neq in Ht. rewrite Ht. cbn iota. rewrite Ht. simpl.
    apply Z.geb_le. lia. }
  assert (snd (held_candidate d1 r) = NO_SIGNAL) as Hheld.
  { rewrite held_candidate_unfold, Hraw.
    rewrite hysteresis_not_none by discriminate. reflexivity. }
  split; [exact Hraw|]. split; [exact Hheld|].
  pose proof (update_edge d1 r) as H. cbv zeta in H.
  destruct (snd (update d1 r)).
  - destruct H as (_ & _ & ->). exact Hheld.
  - destruct H as (E & ->). now rewrite <- E.
Qed.

Lemma no_signal_after_bad_streak_witness :
  let q := lit 1 10 in
  let d1 := fst (run init [mkBpmReading 150 q true 100;
                           mkBpmReading 150 q true 1500]) in
  let r := mkBpmReading 150 q true 3100 in
  ~ In TACHYCARDIA
      (event_kinds (snd (run init [mkBpmReading 150 q true 100;
                                   mkBpmReading 150 q true 1500; r]))) /\
  snd (raw_candidate d1 r) = NO_SIGNAL /\
  snd (held_candidate d1 r) = NO_SIGNAL /\
  active_alarm_ (fst (update d1 r)) = NO_SIGNAL.
Proof.
  intros q d1 r.
  destruct (no_signal_after_bad_streak init (mkBpmReading 150 q true 100) r
              [mkBpmReading 150 q true 1500] eq_refl) as [H1 H2].
  - repeat constructor.
  - split; [exact H1|].
    apply H2; [reflexivity | discriminate | vm_compute; discriminate].
Defined.

(** The no-signal rule fails as the specification words it: on a fresh
    detector, readings of quality 0.1 at 0 ms and at 3000 ms.  The reading
    at 0 ms leaves the onset at 0, which reads as "none pending", so the
    reading at 3000 ms starts the onset anew and its candidate is [NONE]. *)
Lemma no_signal_rule_misses_time_zero : ~ no_signal_rule_as_specified.
Proof.
  intros H.
  specialize (H [] [] (mkBpmReading 150 (lit 1 10) true 0)
                (mkBpmReading 150 (lit 1 10) true 3000)).
  assert (snd (raw_candidate
                 (fst (run init ([] ++ [mkBpmReading 150 (lit 1 10) true 0])))
                 (mkBpmReading 150 (lit 1 10) true 3000)) = NONE) as E
    by (vm_compute; reflexivity).
  rewrite E in H.
  assert (NONE = NO_SIGNAL) as Abs; [|discriminate Abs].
  apply H.
  - repeat constructor.
  - vm_compute; discriminate.
Qed.

(** *** Clear hysteresis *)

Lemma brady_tachy_ring (d : t) (r : BpmReading) :
  last_t_ms_ (fst (brady_tachy d r)) = last_t_ms_ d /\
  hist_ (fst (brady_tachy d r)) = hist_ d /\
  hist_wr_ (fst (brady_tachy d r)) = hist_wr_ d /\
  (abnormal_since_ms_ (fst (brady_tachy d r)) = abnormal_since_ms_ d \/
   abnormal_since_ms_ (fst (brady_tachy d r)) = t_ms r \/
   abnormal_since_ms_ (fst (brady_tachy d r)) = 0).
Proof.
  unfold brady_tachy, track_abnormal.
  split_ifs;
    simpl; repeat split; auto.
Qed.

Lemma classify_ring (d : t) (r : BpmReading) :
  last_t_ms_ (fst (classify d r)) = last_t_ms_ d /\
  hist_ (fst (classify d r)) = hist_ d /\
  hist_wr_ (fst (classify d r)) = hist_wr_ d /\
  (abnormal_since_ms_ (fst (classify d r)) = abnormal_since_ms_ d \/
   abnormal_since_ms_ (fst (classify d r)) = t_ms r \/
   abnormal_since_ms_ (fst (classify d r)) = 0).
Proof.
  unfold classify.
  destruct (no_signal_sustained d r); [simpl; repeat split; auto|].
  destruct (usable (cfg_ d) r); [|simpl; repeat split; auto].
  pose proof (brady_tachy_ring d r) as H.
  destruct (brady_tachy d r) as [d1 c]. simpl in H.
  destruct c; exact H.
Qed.

Lemma hysteresis_ring (d : t) (r : BpmReading) (c : AlarmType) :
  last_t_ms_ (fst (hysteresis d r c)) = last_t_ms_ d /\
  hist_ (fst (hysteresis d r c)) = hist_ d /\
  hist_wr_ (fst (hysteresis d r c)) = hist_wr_ d /\
  abnormal_since_ms_ (fst (hysteresis d r c)) = abnormal_since_ms_ d.
Proof.
  unfold hysteresis.
  split_ifs;
    repeat split.
Qed.

Lemma transition_ring (d : t) (r : BpmReading) (c : AlarmType) :
  last_t_ms_ (fst (transition d r c)) = last_t_ms_ d /\
  hist_ (fst (transition d r c)) = hist_ d /\
  hist_wr_ (fst (transition d r c)) = hist_wr_ d /\
  abnormal_since_ms_ (fst (transition d r c)) = abnormal_since_ms_ d.
Proof.
  unfold transition.
  destruct (negb (AlarmType_eqb c (active_alarm_ d))); repeat split.
Qed.

Lemma update_ring (d : t) (r : BpmReading) :
  last_t_ms_ (fst (update d r)) = t_ms r /\
  hist_ (fst (update d r)) = hist_ (pushed d r) /\
  hist_wr_ (fst (update d r)) = hist_wr_ (pushed d r) /\
  (abnormal_since_ms_ (fst (update d r)) = abnormal_since_ms_ d \/
   abnormal_since_ms_ (fst (update d r)) = t_ms r \/
   abnormal_since_ms_ (fst (update d r)) = 0).
Proof.
  rewrite update_unfold, held_candidate_unfold.
  destruct (transition_ring
              (fst (hysteresis (fst (raw_candidate d r)) r
                      (snd (raw_candidate d r)))) r
              (snd (hysteresis (fst (raw_candidate d r)) r
                      (snd (raw_candidate d r))))) as (A1 & A2 & A3 & A4).
  destruct (hysteresis_ring (fst (raw_candidate d r)) r
              (snd (raw_candidate d r))) as (B1 & B2 & B3 & B4).
  unfold raw_candidate in *. fold (pushed d r) in *.
  destruct (classify_ring (pushed d r) r) as (C1 & C2 & C3 & C4).
  rewrite A1, A2, A3, A4, B1, B2, B3, B4, C1, C2, C3.
  repeat split. exact C4.
Qed.

Lemma store_length {A : Type} (l : list A) : forall i v,
  length (store l i v) = length l.
Proof.
  induction l as [|x l IH]; intros [|i] v; simpl; try reflexivity.
  now rewrite IH.
Qed.

Lemma store_nth_same {A : Type} (l : list A) : forall i v dflt,
  (i < length l)%nat -> nth i (store l i v) dflt = v.
Proof.
  induction l as [|x l IH]; intros [|i] v dflt Hi; simpl in *; try lia.
  - reflexivity.
  - apply IH. lia.
Qed.

Lemma store_Forall {A : Type} (P : A -> Prop) (l : list A) : forall i v,
  Forall P l -> P v -> Forall P (store l i v).
Proof.
  induction l as [|x l IH]; intros [|i] v Hl Hv; simpl; try assumption;
    inversion Hl; subst; constructor; auto.
Qed.

Lemma nth_Forall {A : Type} (P : A -> Prop) (l : list A) (dflt : A) :
  Forall P l -> P dflt -> forall i, P (nth i l dflt).
Proof.
  intros Hl Hd. induction Hl as [|x l Hx Hl IH]; intros [|i]; simpl; auto.
Qed.

(** The newest entry of the ring after [push_hist] is the reading pushed. *)
Lemma pushed_newest (d : t) (r : BpmReading) :
  length (hist_ d) = 8%nat -> 0 <= hist_wr_ d < 8 ->
  entry (pushed d r) 0 = mkHist (bpm r) (t_ms r).
Proof.
  intros Hlen Hwr. unfold entry, hist_at, pushed.
  cbn [push_hist track_no_signal hist_ hist_wr_]. unfold HIST_N.
  rewrite (Z.rem_mod_nonneg (hist_wr_ d + 1) 8) by lia.
  pose proof (Z.mod_pos_bound (hist_wr_ d + 1) 8 ltac:(lia)) as Hb.
  rewrite Z.rem_mod_nonneg by lia.
  assert (((hist_wr_ d + 1) mod 8 + 8 - 1 - 0) mod 8 = hist_wr_ d) as ->.
  { destruct (Z.eq_dec (hist_wr_ d) 7) as [->|]; [reflexivity|].
    rewrite (Z.mod_small (hist_wr_ d + 1) 8) by lia.
    replace (hist_wr_ d + 1 + 8 - 1 - 0) with (hist_wr_ d + 1 * 8) by lia.
    rewrite Z.mod_add by lia. apply Z.mod_small. lia. }
  apply store_nth_same. lia.
Qed.

Lemma track_abnormal_since (d : t) (r : BpmReading) (k : AlarmType) :
  cfg_ (track_abnormal d r k) = cfg_ d /\
  (abnormal_since_ms_ (track_abnormal d r k) = abnormal_since_ms_ d \/
   abnormal_since_ms_ (track_abnormal d r k) = t_ms r).
Proof.
  unfold track_abnormal.
  destruct ((abnormal_since_ms_ d =? 0)
            || negb (AlarmType_eqb (abnormal_kind_ d) k)); simpl; auto.
Qed.

(** A candidate other than [NONE] needs a positive time. *)
Lemma raw_candidate_positive (d : t) (r : BpmReading) :
  time_inv d -> 0 <= t_ms r ->
  snd (raw_candidate d r) <> NONE -> 0 < t_ms r.
Proof.
  intros Hinv Ht. destruct Hinv.
  unfold raw_candidate. fold (pushed d r). unfold classify.
  destruct (no_signal_sustained (pushed d r) r) eqn:Hn.
  { intros _. unfold no_signal_sustained in Hn.
    apply andb_prop in Hn. destruct Hn as [Hn1 Hn2].
    apply negb_true_iff, Z.eqb_neq in Hn1.
    rewrite pushed_cfg, inv_cfg0 in Hn2. apply Z.geb_le in Hn2.
    cbn [pushed push_hist track_no_signal no_signal_since_ms_] in Hn1, Hn2.
    cbn [no_signal_ms default_Config] in Hn2.
    destruct (bad_reading (cfg_ d) r); [|congruence].
    destruct (no_signal_since_ms_ d =? 0); lia. }
  destruct (usable (cfg_ (pushed d r)) r); [|simpl; congruence].
  pose proof (brady_tachy_scan (pushed d r) r) as Hscan.
  assert (snd (brady_tachy (pushed d r) r) <> NONE -> 0 < t_ms r) as Hbt.
  { assert (forall k, sustained (track_abnormal (pushed d r) r k) r = true ->
                      0 < t_ms r) as Hsus.
    { intros k Hs. unfold sustained in Hs.
      pose proof (track_abnormal_since (pushed d r) r k) as [Hc Ha].
      rewrite Hc, pushed_cfg, inv_cfg0 in Hs.
      cbn [sustain_ms default_Config] in Hs. apply Z.geb_le in Hs.
      change (abnormal_since_ms_ (pushed d r)) with (abnormal_since_ms_ d)
        in Ha.
      destruct Ha as [Ha|Ha]; rewrite Ha in Hs; lia. }
    unfold brady_tachy.
    destruct ((bpm r >? 0) && (bpm r <? brady_bpm (cfg_ (pushed d r)))).
    - cbn [snd].
      destruct (sustained _ r) eqn:Hs; [intros _; eapply Hsus, Hs|congruence].
    - destruct (bpm r >? tachy_bpm (cfg_ (pushed d r))); [|simpl; congruence].
      cbn [snd].
      destruct (sustained _ r) eqn:Hs; [intros _; eapply Hsus, Hs|congruence]. }
  destruct (brady_tachy (pushed d r) r) as [d1 c]. simpl in Hbt, Hscan.
  destruct c; simpl; try (intros _; apply Hbt; discriminate).
  rewrite Hscan.
  destruct (detect_rapid_change (pushed d r)) eqn:Hd; [|congruence].
  intros _.
  apply detect_rapid_change_spec in Hd; [|now rewrite pushed_cfg].
  destruct Hd as (i & _ & Hage & _). unfold age in Hage.
  rewrite pushed_newest in Hage by assumption. cbn [hist_t_ms] in Hage.
  assert (0 <= hist_t_ms (entry (pushed d r) i)) as Hold.
  { unfold entry, hist_at.
    apply (nth_Forall (fun h => 0 <= hist_t_ms h)); [|simpl; lia].
    cbn [pushed push_hist track_no_signal hist_].
    apply store_Forall; [assumption|].
    simpl. exact Ht. }
  lia.
Qed.

Lemma init_time_inv : time_inv init.
Proof.
  constructor; simpl; try reflexivity; try lia.
  - repeat constructor; simpl; lia.
  - congruence.
Qed.

Lemma update_time_inv (d : t) (r : BpmReading) :
  time_inv d -> last_t_ms_ d <= t_ms r -> time_inv (fst (update d r)).
Proof.
  intros Hinv Ht. pose proof Hinv as Hinv'. destruct Hinv.
  destruct (update_ring d r) as (R1 & R2 & R3 & R4).
  assert (0 <= t_ms r) as Ht0 by lia.
  constructor.
  - now rewrite update_cfg.
  - rewrite R2. cbn [pushed push_hist track_no_signal hist_].
    now rewrite store_length.
  - rewrite R3. cbn [pushed push_hist track_no_signal hist_wr_].
    unfold HIST_N.
    rewrite Z.rem_mod_nonneg by lia. apply Z.mod_pos_bound. lia.
  - lia.
  - rewrite update_no_signal_since. cbn [track_no_signal no_signal_since_ms_].
    destruct (bad_reading (cfg_ d) r); [|lia].
    destruct (no_signal_since_ms_ d =? 0); lia.
  - destruct R4 as [-> | [-> | ->]]; lia.
  - rewrite R2. cbn [pushed push_hist track_no_signal hist_].
    apply store_Forall; [assumption|simpl; lia].
  - rewrite R1. intros Hact.
    pose proof (update_edge d r) as He. cbv zeta in He.
    assert (active_alarm_ (fst (update d r)) = snd (held_candidate d r)) as E.
    { destruct (snd (update d r)).
      - now destruct He as (_ & _ & ->).
      - destruct He as (E1 & ->). now rewrite E1. }
    rewrite E in Hact. rewrite held_candidate_unfold in Hact.
    destruct (hysteresis_candidate (fst (raw_candidate d r)) r
                (snd (raw_candidate d r))) as [E1|E1];
      rewrite E1 in Hact.
    + now apply (raw_candidate_positive d r).
    + rewrite raw_candidate_active in Hact.
      specialize (inv_active0 Hact). lia.
Qed.

Lemma times_from_app (rs1 rs2 : list BpmReading) : forall t0,
  times_from t0 (rs1 ++ rs2) <->
  times_from t0 rs1 /\ times_from (last_time t0 rs1) rs2.
Proof.
  induction rs1 as [|r rs1 IH]; intros t0; simpl.
  - tauto.
  - rewrite IH. tauto.
Qed.

Lemma times_from_le (rs : list BpmReading) : forall t0,
  times_from t0 rs -> t0 <= last_time t0 rs /\
                      Forall (fun x => t0 <= t_ms x <= last_time t0 rs) rs.
Proof.
  induction rs as [|r rs IH]; intros t0 H; simpl in *.
  - split; [lia|constructor].
  - destruct H as [H1 H2]. destruct (IH _ H2) as [H3 H4].
    split; [lia|]. constructor; [lia|].
    eapply Forall_impl; [|exact H4]. simpl. intros; lia.
Qed.

Lemma run_time_inv (rs : list BpmReading) : forall d,
  time_inv d -> times_from (last_t_ms_ d) rs ->
  time_inv (fst (run d rs)) /\
  last_t_ms_ (fst (run d rs)) = last_time (last_t_ms_ d) rs.
Proof.
  induction rs as [|r rs IH]; intros d Hinv Ht; [now split|].
  destruct Ht as [Ht1 Ht2].
  rewrite run_cons. cbn [fst last_time].
  pose proof (update_time_inv d r Hinv Ht1) as Hinv1.
  destruct (update_ring d r) as (R1 & _).
  destruct (IH (fst (update d r)) Hinv1) as [H1 H2].
  - now rewrite R1.
  - split; [exact H1|]. now rewrite H2, R1.
Qed.

(** The hysteresis on a [NONE] candidate while an alarm is active: the
    countdown starts at this reading unless one is running, and the alarm
    is held until it reaches [clear_ms]. *)
Lemma hysteresis_quiet (d : t) (r : BpmReading) :
  active_alarm_ d <> NONE ->
  hysteresis d r NONE =
  let onset := if clear_since_ms_ d =? 0 then t_ms r else clear_since_ms_ d in
  if t_ms r - onset <? clear_ms (cfg_ d)
  then (set_clear_since d onset, active_alarm_ d)
  else (set_clear_since d 0, NONE).
Proof.
  intros Ha. apply AlarmType_eqb_neq in Ha. unfold hysteresis.
  rewrite Ha. cbn [negb andb AlarmType_eqb].
  destruct (clear_since_ms_ d =? 0); cbv zeta.
  - cbn [clear_since_ms_ set_clear_since cfg_ active_alarm_].
    destruct (t_ms r - t_ms r <? clear_ms (cfg_ d)); reflexivity.
  - destruct (t_ms r - clear_since_ms_ d <? clear_ms (cfg_ d));
      [|reflexivity].
    destruct d; reflexivity.
Qed.

Lemma update_quiet (d : t) (r : BpmReading) :
  cfg_ d = default_Config ->
  active_alarm_ d <> NONE ->
  snd (raw_candidate d r) = NONE ->
  let onset := if clear_since_ms_ d =? 0 then t_ms r else clear_since_ms_ d in
  (t_ms r - onset < 3000 ->
   snd (update d r) = None /\
   active_alarm_ (fst (update d r)) = active_alarm_ d /\
   clear_since_ms_ (fst (update d r)) = onset) /\
  (3000 <= t_ms r - onset ->
   snd (update d r) = Some (mkAlarmEvent NONE (bpm r) (quality r) (t_ms r)) /\
   active_alarm_ (fst (update d r)) = NONE).
Proof.
  intros Hcfg Ha Hq onset.
  rewrite update_unfold, held_candidate_unfold, Hq.
  destruct (raw_candidate_frame d r) as (F1 & _ & F3).
  pose proof (raw_candidate_active d r) as F2.
  rewrite hysteresis_quiet by (now rewrite F2).
  rewrite F1, F2, F3, Hcfg. fold onset. cbn [clear_ms default_Config].
  split; intros Hlt.
  - apply Z.ltb_lt in Hlt. rewrite Hlt. cbn [fst snd]. unfold transition.
    cbn [set_clear_since active_alarm_]. rewrite F2.
    assert (AlarmType_eqb (active_alarm_ d) (active_alarm_ d) = true) as ->
      by now apply AlarmType_eqb_eq.
    cbn [negb fst snd set_clear_since active_alarm_ clear_since_ms_].
    now rewrite F2.
  - apply Z.ltb_ge in Hlt. rewrite Hlt. cbn [fst snd]. unfold transition.
    cbn [set_clear_since active_alarm_]. rewrite F2.
    assert (AlarmType_eqb NONE (active_alarm_ d) = false) as ->
      by (apply AlarmType_eqb_neq; congruence).
    cbn [negb fst snd]. split; reflexivity.
Qed.

Lemma hold_streak (rs : list BpmReading) : forall d t1,
  cfg_ d = default_Config ->
  active_alarm_ d <> NONE ->
  clear_since_ms_ d = t1 -> t1 <> 0 ->
  quiet d rs ->
  Forall (fun x => t_ms x - t1 < 3000) rs ->
  cfg_ (fst (run d rs)) = default_Config /\
  active_alarm_ (fst (run d rs)) = active_alarm_ d /\
  clear_since_ms_ (fst (run d rs)) = t1.
Proof.
  induction rs as [|r rs IH]; intros d t1 Hcfg Ha Hc Ht Hq Hlt; [now simpl|].
  destruct Hq as [Hq1 Hq2]. inversion Hlt as [|? ? Hr Hrs]; subst.
  rewrite run_cons. cbn [fst].
  destruct (update_quiet d r Hcfg Ha Hq1) as [Hhold _].
  apply Z.eqb_neq in Ht. rewrite Ht in Hhold.
  destruct (Hhold Hr) as (_ & E2 & E3).
  apply Z.eqb_neq in Ht.
  destruct (IH (fst (update d r)) (clear_since_ms_ d)) as (I1 & I2 & I3);
    try assumption.
  - now rewrite update_cfg.
  - now rewrite E2.
  - repeat split; [exact I1 | now rewrite I2 | exact I3].
Qed.

(** After a reading whose candidate is an alarm, that alarm is active and
    no clear countdown is running. *)
Lemma update_alarm (d : t) (r : BpmReading) :
  snd (raw_candidate d r) <> NONE ->
  active_alarm_ (fst (update d r)) = snd (raw_candidate d r) /\
  clear_since_ms_ (fst (update d r)) = 0.
Proof.
  intros Hc. rewrite update_unfold, held_candidate_unfold.
  rewrite hysteresis_not_none by assumption. cbn [fst snd].
  unfold transition. cbn [set_clear_since active_alarm_].
  destruct (negb (AlarmType_eqb (snd (raw_candidate d r))
                    (active_alarm_ (fst (raw_candidate d r))))) eqn:E;
    cbn [fst set_active_alarm set_clear_since active_alarm_ clear_since_ms_].
  - split; reflexivity.
  - apply negb_false_iff, AlarmType_eqb_eq in E. split; congruence.
Qed.

(** C3. A default detector is fed readings with non-negative times that
    never decrease.  Reading [r0] gives an alarm candidate, so an alarm is
    active after it; the readings after it, [held] and then [r], all give
    the candidate [NONE].  Let [t1] be the time of the first of them.  If
    [r] comes less than 3000 ms after [t1], the call returns nothing and the
    active alarm is the one left by [r0].  If [r] is the first reading
    3000 ms or more after [t1], the call returns an event of kind [NONE]
    with the reading's bpm, quality and time, and no alarm is active
    afterwards. *)
Theorem clear_hysteresis :
  forall (pre held : list BpmReading) (r0 r : BpmReading),
    times_from 0 (pre ++ r0 :: held ++ [r]) ->
    snd (raw_candidate (fst (run init pre)) r0) <> NONE ->
    let d0 := fst (run init (pre ++ [r0])) in
    quiet d0 (held ++ [r]) ->
    let t1 := t_ms (hd r held) in
    let d1 := fst (run d0 held) in
    active_alarm_ d0 <> NONE /\
    (t_ms r - t1 < 3000 ->
     snd (update d1 r) = None /\
     active_alarm_ (fst (update d1 r)) = active_alarm_ d0) /\
    (3000 <= t_ms r - t1 ->
     Forall (fun x => t_ms x - t1 < 3000) held ->
     snd (update d1 r) =
       Some (mkAlarmEvent NONE (bpm r) (quality r) (t_ms r)) /\
     active_alarm_ (fst (update d1 r)) = NONE).
Proof.
  intros pre held r0 r Htimes Hr0 d0 Hquiet t1 d1.
  apply times_from_app in Htimes. destruct Htimes as [Tpre Trest].
  destruct (run_time_inv pre init init_time_inv Tpre) as [Ipre Lpre].
  change (last_t_ms_ init) with 0 in Lpre.
  destruct Trest as [T0 Trest]. rewrite <- Lpre in T0.
  assert (d0 = fst (update (fst (run init pre)) r0)) as Ed0.
  { unfold d0. rewrite run_app, run_cons. reflexivity. }
  pose proof (update_time_inv _ r0 Ipre T0) as I0. rewrite <- Ed0 in I0.
  destruct (update_alarm _ r0 Hr0) as [A0 C0]. rewrite <- Ed0 in A0, C0.
  assert (active_alarm_ d0 <> NONE) as Hact by (now rewrite A0).
  assert (0 < t_ms r0) as Hpos.
  { pose proof (inv_active d0 I0 Hact) as H.
    destruct (update_ring (fst (run init pre)) r0) as (R1 & _).
    rewrite <- Ed0 in R1. lia. }
  pose proof (inv_cfg d0 I0) as Hcfg0.
  split; [exact Hact|].
  destruct held as [|h hs].
  - (* [r] is the first quiet reading *)
    simpl in t1, d1, Hquiet. destruct Hquiet as [Hq _].
    destruct (update_quiet d0 r Hcfg0 Hact Hq) as [Hhold Hclear].
    rewrite C0 in Hhold, Hclear. simpl in Hhold, Hclear.
    subst t1 d1. split.
    + intros _. destruct Hhold as (E1 & E2 & _); [lia|]. now split.
    + intros Hge. lia.
  - cbn [hd] in t1. rewrite <- app_comm_cons in Hquiet, Trest.
    destruct Hquiet as [Hqh Hquiet]. destruct Trest as [Th Trest].
    assert (t1 <> 0) as Ht1 by (subst t1; lia).
    destruct (update_quiet d0 h Hcfg0 Hact Hqh) as [Hhold _].
    rewrite C0 in Hhold. simpl in Hhold.
    destruct Hhold as (_ & E2 & E3); [lia|].
    (* the rest of [held], then [r] *)
    assert (quiet (fst (update d0 h)) hs /\
            snd (raw_candidate (fst (run (fst (update d0 h)) hs)) r) = NONE)
      as [Hqs Hqr].
    { clear - Hquiet. revert Hquiet. generalize (fst (update d0 h)).
      induction hs as [|x hs IH]; intros d Hq.
      - simpl in Hq. destruct Hq as [H1 _]. split; [exact I|exact H1].
      - rewrite <- app_comm_cons in Hq. destruct Hq as [H1 H2].
        rewrite run_cons. cbn [fst quiet].
        destruct (IH _ H2) as [H3 H4]. repeat split; assumption. }
    assert (d1 = fst (run (fst (update d0 h)) hs)) as Ed1.
    { unfold d1. now rewrite run_cons. }
    apply times_from_app in Trest. destruct Trest as [Ths Tr].
    destruct (times_from_le hs _ Ths) as [Tle Tall].
    destruct Tr as [Tr _].
    assert (forall (Hlt : Forall (fun x => t_ms x - t1 < 3000) hs),
              cfg_ d1 = default_Config /\
              active_alarm_ d1 = active_alarm_ d0 /\
              clear_since_ms_ d1 = t1) as Hstreak.
    { intros Hlt. rewrite Ed1, <- E2.
      apply hold_streak; try assumption.
      - now rewrite update_cfg.
      - now rewrite E2. }
    split.
    + intros Hlt.
      destruct Hstreak as (S1 & S2 & S3).
      { eapply Forall_impl; [|exact Tall]. simpl. intros x Hx.
        unfold t1 in *. lia. }
      rewrite <- Ed1 in Hqr.
      destruct (update_quiet d1 r S1 ltac:(now rewrite S2) Hqr) as [Hhold _].
      rewrite S3 in Hhold. apply Z.eqb_neq in Ht1. rewrite Ht1 in Hhold.
      destruct (Hhold Hlt) as (F1 & F2 & _). split; congruence.
    + intros Hge Hall. inversion Hall as [|? ? _ Hhs]; subst.
      destruct (Hstreak Hhs) as (S1 & S2 & S3).
      rewrite <- Ed1 in Hqr.
      destruct (update_quiet d1 r S1 ltac:(now rewrite S2) Hqr) as [_ Hclear].
      rewrite S3 in Hclear. apply Z.eqb_neq in Ht1. rewrite Ht1 in Hclear.
      exact (Hclear Hge).
Qed.

Lemma clear_hysteresis_witness :
  let q := of_int 1 in
  let pre := [mkBpmReading 150 q true 100] in
  let r0 := mkBpmReading 150 q true 5100 in
  let held := [mkBpmReading 120 q true 5200; mkBpmReading 120 q true 7200] in
  let r := mkBpmReading 120 q true 8200 in
  let d0 := fst (run init (pre ++ [r0])) in
  let d1 := fst (run d0 held) in
  active_alarm_ d0 = TACHYCARDIA /\
  snd (run d0 held) = [None; None] /\
  snd (update d1 r) = Some (mkAlarmEvent NONE 120 q 8200) /\
  active_alarm_ (fst (update d1 r)) = NONE.
Proof.
  intros q pre r0 held r d0 d1.
  split; [vm_compute; reflexivity|].
  split; [vm_compute; reflexivity|].
  apply (clear_hysteresis pre held r0 r).
  - simpl. lia.
  - vm_compute; discriminate.
  - cbn [quiet app held]. repeat split; vm_compute; reflexivity.
  - vm_compute; discriminate.
  - repeat constructor; vm_compute; reflexivity.
Defined.

End DetectorFacts.

(** ** Properties of the beat detector *)

Module PulseFacts.

Import PulseBpm PulseSpec.

Lemma condition_frame (p : t) (raw : Z) :
  last_beat_ms_ (condition p raw) = last_beat_ms_ p /\
  ibi_buf_ (condition p raw) = ibi_buf_ p /\
  ibi_count_ (condition p raw) = ibi_count_ p /\
  have_prev_ (condition p raw) = have_prev_ p /\
  prev_filt_ (condition p raw) = prev_filt_ p /\
  prev_t_ms_ (condition p raw) = prev_t_ms_ p /\
  diff_prev_ (condition p raw) = diff_prev_ p.
Proof.
  unfold condition, update_envelope.
  destruct (negb (env_inited_ (low_pass p raw))); repeat split.
Qed.

Lemma at_peak_frame (p : t) (raw t_ms : Z) :
  same_beat_state p (at_peak p raw t_ms) /\
  prev_t_ms_ (at_peak p raw t_ms) = t_ms.
Proof.
  destruct (condition_frame p raw) as (A & B & C & _).
  unfold same_beat_state, at_peak. cbn [set_prev last_beat_ms_ ibi_buf_
    ibi_count_ prev_t_ms_]. auto.
Qed.

(** The two ways [update] ends: without a beat, or through
    [register_beat] called with the time of this sample. *)
Lemma update_spec (p : t) (raw t_ms out_bpm : Z) (out_quality : f32) :
  if registers_beat p raw then
    update p raw t_ms out_bpm out_quality =
    (fst (fst (register_beat (at_peak p raw t_ms) t_ms out_bpm)),
     snd (fst (register_beat (at_peak p raw t_ms) t_ms out_bpm)),
     snd (register_beat (at_peak p raw t_ms) t_ms out_bpm),
     quality_score (condition p raw))
  else
    exists p', update p raw t_ms out_bpm out_quality =
               (p', NONE, out_bpm, quality_score (condition p raw)) /\
               same_beat_state p p'.
Proof.
  unfold registers_beat, update, at_peak.
  destruct (condition_frame p raw) as (A & B & C & _).
  destruct (negb (env_inited_ (condition p raw))
            || ltb (p2p_ema_ (condition p raw))
                   (p2p_min_adapt (condition p raw))); cbn [negb andb].
  { eexists. split; [reflexivity|]. repeat split; assumption. }
  destruct (have_prev_ (condition p raw)) eqn:Hp; cbn [negb andb].
  2:{ eexists. split; [reflexivity|]. repeat split; assumption. }
  destruct (beat (condition p raw) (lp_ (condition p raw))); cbn [negb].
  - cbn [prev_t_ms_ set_prev].
    destruct (register_beat _ t_ms out_bpm) as [[p3 res] b]. reflexivity.
  - eexists. split; [reflexivity|]. repeat split; assumption.
Qed.

(** [register_beat] writes [out_bpm] only when it accepts. *)
Lemma register_beat_none (p : t) (beat_ms out_bpm : Z) :
  snd (fst (register_beat p beat_ms out_bpm)) = NONE ->
  snd (register_beat p beat_ms out_bpm) = out_bpm.
Proof.
  unfold register_beat.
  repeat match goal with
         | |- context [if ?c then _ else _] => destruct c
         end; simpl; congruence.
Qed.

(** C9. [reset] followed by one call of [update] returns [NONE], for every
    initial raw value, sample, time and values passed for the outputs. *)
Theorem first_update_after_reset :
  forall (initial_raw raw t_ms out_bpm : Z) (out_quality : f32),
    snd (fst (fst (update (reset initial_raw) raw t_ms out_bpm out_quality)))
    = NONE.
Proof.
  intros initial_raw raw t_ms out_bpm out_quality.
  pose proof (update_spec (reset initial_raw) raw t_ms out_bpm out_quality)
    as H.
  assert (registers_beat (reset initial_raw) raw = false) as E.
  { unfold registers_beat.
    destruct (condition_frame (reset initial_raw) raw)
      as (_ & _ & _ & Hp & _).
    cbv zeta. rewrite Hp. cbn [reset have_prev_].
    now rewrite andb_false_r. }
  rewrite E in H. destruct H as (p' & -> & _). reflexivity.
Qed.

(** C10. Every call of [update] leaves in [out_quality] the clamped
    weighted score of the smoothed amplitude, the noise estimate and the
    number of intervals on record, as they are after the filters of this
    call, whatever it returns and whatever was passed in; and a call that
    returns [NONE] leaves in [out_bpm] the value passed in. *)
Theorem update_outputs :
  forall (p : t) (raw t_ms out_bpm : Z) (out_quality : f32),
    let p1 := condition p raw in
    let q_amp := clampf (div (p2p_ema_ p1) (of_int 140)) zero (of_int 1) in
    let q_noise :=
      clampf (sub (of_int 1) (div (noise_ema_ p1) (of_int 25)))
             zero (of_int 1) in
    let q_stb :=
      clampf (div (of_int (Z.min (ibi_count_ p) 5)) (of_int 5))
             zero (of_int 1) in
    let '(_, res, bpm', q') := update p raw t_ms out_bpm out_quality in
    q' = clampf (add (add (mul (lit 55 100) q_amp) (mul (lit 30 100) q_noise))
                     (mul (lit 15 100) q_stb))
                zero (of_int 1) /\
    (res = NONE -> bpm' = out_bpm).
Proof.
  intros p raw t_ms out_bpm out_quality p1 q_amp q_noise q_stb.
  assert (quality_score p1 =
          clampf (add (add (mul (lit 55 100) q_amp) (mul (lit 30 100) q_noise))
                      (mul (lit 15 100) q_stb))
                 zero (of_int 1)) as Hq.
  { unfold quality_score, q_amp, q_noise, q_stb, p1.
    destruct (condition_frame p raw) as (_ & _ & -> & _). reflexivity. }
  pose proof (update_spec p raw t_ms out_bpm out_quality) as H.
  destruct (registers_beat p raw).
  - rewrite H. fold p1. split; [exact Hq|].
    apply register_beat_none.
  - destruct H as (p' & -> & _). fold p1. split; [exact Hq|reflexivity].
Qed.

(** *** The gates of the peak detector *)

(** C5. With [amp] and [noise] the smoothed amplitude and the noise
    estimate after the filters of this call: [update] goes on to register a
    beat, and so can return anything but [NONE], only when the slope at the
    previous sample was positive and is now non-positive, the previous
    sample is 333 ms or more after the last beat (or there was none), the
    previous filtered value exceeds [max(22, 0.26 amp, 6 noise)], and it
    exceeds the envelope minimum by more than [0.50 amp].  When one of
    these fails no beat is registered: the call returns [NONE], leaves
    [out_bpm] as passed in, and the last-beat time, the interval ring and
    its count as they were. *)
Theorem peak_gates :
  forall (p : t) (raw t_ms out_bpm : Z) (out_quality : f32),
    let p1 := condition p raw in
    let amp := p2p_ema_ p1 in
    let noise := noise_ema_ p1 in
    let slope_was_up := gtb (diff_prev_ p) zero in
    let slope_now_down := leb (sub (lp_ p1) (prev_filt_ p)) zero in
    let refractory_ok :=
      (last_beat_ms_ p =? 0) || (prev_t_ms_ p - last_beat_ms_ p >=? 333) in
    let above_threshold :=
      gtb (prev_filt_ p)
          (fmax (of_int 22)
                (fmax (mul (lit 26 100) amp) (mul (of_int 6) noise))) in
    let prominent :=
      gtb (sub (prev_filt_ p) (env_min_ p1)) (mul (lit 50 100) amp) in
    let gates :=
      slope_was_up && slope_now_down && refractory_ok && above_threshold
      && prominent in
    (registers_beat p raw = true -> gates = true) /\
    (snd (fst (fst (update p raw t_ms out_bpm out_quality))) <> NONE ->
     gates = true) /\
    (gates = false ->
     registers_beat p raw = false /\
     exists p', update p raw t_ms out_bpm out_quality =
                (p', NONE, out_bpm, quality_score p1) /\
                same_beat_state p p').
Proof.
  intros p raw t_ms out_bpm out_quality p1 amp noise slope_was_up'
         slope_now_down' refractory_ok' above_threshold' prominent' gates.
  assert (registers_beat p raw = true -> gates = true) as Hreg.
  { unfold registers_beat. fold p1. intros H.
    apply andb_prop in H. destruct H as [_ Hb].
    unfold beat, PulseBpm.refractory_ok, PulseBpm.slope_was_up,
      PulseBpm.slope_now_down, PulseBpm.above_threshold,
      PulseBpm.prominent_enough, thr, since_last, THR_MIN in Hb.
    destruct (condition_frame p raw) as (A & _ & _ & _ & B & C & D).
    fold p1 in A, B, C, D. rewrite A, B, C, D in Hb.
    fold amp noise slope_was_up' slope_now_down' above_threshold' prominent'
      in Hb.
    assert (((if last_beat_ms_ p =? 0 then LLONG_MAX
              else prev_t_ms_ p - last_beat_ms_ p) >=? IBI_MIN_MS)
            = refractory_ok') as E.
    { unfold refractory_ok'. destruct (last_beat_ms_ p =? 0); reflexivity. }
    rewrite E in Hb. unfold gates.
    destruct refractory_ok', slope_was_up', slope_now_down';
      simpl in Hb; try discriminate.
    simpl. exact Hb. }
  pose proof (update_spec p raw t_ms out_bpm out_quality) as H.
  split; [exact Hreg|]. split.
  - destruct (registers_beat p raw); [intros _; now apply Hreg|].
    destruct H as (p' & -> & _). simpl. congruence.
  - intros Hg. destruct (registers_beat p raw).
    + rewrite Hreg in Hg by reflexivity. discriminate.
    + split; [reflexivity|]. exact H.
Qed.

(** *** Rejected beats *)

Lemma insert_sorted_Forall (P : Z -> Prop) (x : Z) (l : list Z) :
  P x -> Forall P l -> Forall P (insert_sorted x l).
Proof.
  intros Hx Hl. induction Hl as [|y l Hy Hl IH]; simpl.
  - now constructor.
  - destruct (x <=? y); repeat constructor; assumption.
Qed.

Lemma sort_Forall (P : Z -> Prop) (l : list Z) :
  Forall P l -> Forall P (sort l).
Proof.
  intros Hl. induction Hl as [|x l Hx Hl IH]; simpl; [constructor|].
  now apply insert_sorted_Forall.
Qed.

Lemma insert_sorted_length (x : Z) (l : list Z) :
  length (insert_sorted x l) = S (length l).
Proof.
  induction l as [|y l IH]; simpl; [reflexivity|].
  destruct (x <=? y); simpl; [reflexivity|now rewrite IH].
Qed.

Lemma sort_length (l : list Z) : length (sort l) = length l.
Proof.
  induction l as [|x l IH]; simpl; [reflexivity|].
  now rewrite insert_sorted_length, IH.
Qed.

Lemma window_length (p : t) :
  length (ibi_buf_ p) = 5%nat -> 0 <= ibi_count_ p ->
  Z.of_nat (length (ibi_window p)) = Z.min (ibi_count_ p) IBI_BUF.
Proof.
  intros Hlen Hc. unfold ibi_window, IBI_BUF.
  rewrite length_firstn, Hlen.
  rewrite Nat.min_l by (apply Nat2Z.inj_le; rewrite Z2Nat.id; simpl; lia).
  rewrite Z2Nat.id; lia.
Qed.

(** With intervals on record the median is one of them. *)
Lemma median_in_range (p : t) :
  intervals_valid p -> 1 <= ibi_count_ p -> in_range (median_ibi p).
Proof.
  intros [Hlen Hw] Hc. unfold median_ibi.
  pose proof (window_length p Hlen ltac:(lia)) as Hn.
  unfold IBI_BUF in *.
  destruct (Z.min (ibi_count_ p) 5 <=? 0) eqn:E; [apply Z.leb_le in E; lia|].
  assert (forall i, (i < length (sort (ibi_window p)))%nat ->
                    in_range (nth i (sort (ibi_window p)) 0)) as Hnth.
  { pose proof (sort_Forall in_range _ Hw) as Hs.
    rewrite Forall_forall in Hs. intros i Hi. apply Hs, nth_In, Hi. }
  apply Hnth. rewrite sort_length.
  assert (0 <= Z.quot (Z.min (ibi_count_ p) 5) 2 < Z.min (ibi_count_ p) 5).
  { rewrite Z.quot_div_nonneg by lia.
    split; [apply Z.div_pos; lia|apply Z.div_lt; lia]. }
  lia.
Qed.

(** C6 (amended). [update] has a beat to register, at time [t_ms], a beat
    was registered before, and the ring holds intervals of [333, 1500] ms.
    The interval is the time since the last beat converted to [int],
    [(int)(beat_ms - last_beat_ms_)], which is that time whenever it fits in
    an [int].  If the interval is below 333 or above 1500, or if three or
    more intervals are on record and [(float)ibi / (float)median] is below
    [0.85f] or above [1.20f], then [update] returns [NONE] and leaves
    [out_bpm] as passed in, the interval ring and its count are unchanged,
    and the last-beat time is [t_ms]. *)
Theorem rejected_beat :
  forall (p : t) (raw t_ms out_bpm : Z) (out_quality : f32),
    registers_beat p raw = true ->
    last_beat_ms_ p <> 0 ->
    intervals_valid p ->
    let ibi := to_int (t_ms - last_beat_ms_ p) in
    ibi < 333 \/ 1500 < ibi \/
    (3 <= ibi_count_ p /\
     (ltb (div (of_int ibi) (of_int (median_ibi p))) (lit 85 100)
      || gtb (div (of_int ibi) (of_int (median_ibi p))) (lit 120 100)) = true)
    ->
    (- 2 ^ 31 <= t_ms - last_beat_ms_ p < 2 ^ 31 ->
     ibi = t_ms - last_beat_ms_ p) /\
    exists p',
      update p raw t_ms out_bpm out_quality =
      (p', NONE, out_bpm, quality_score (condition p raw)) /\
      ibi_buf_ p' = ibi_buf_ p /\
      ibi_count_ p' = ibi_count_ p /\
      last_beat_ms_ p' = t_ms.
Proof.
  intros p raw t_ms out_bpm out_quality Hreg Hlast Hvalid ibi Hrej.
  split.
  { intros Hfit. unfold ibi, to_int. rewrite Z.mod_small; lia. }
  pose proof (update_spec p raw t_ms out_bpm out_quality) as H.
  rewrite Hreg in H. rewrite H. clear H.
  destruct (at_peak_frame p raw t_ms) as ((A & B & C) & _).
  assert (register_beat (at_peak p raw t_ms) t_ms out_bpm =
          (set_last_beat (at_peak p raw t_ms) t_ms, NONE, out_bpm)) as E.
  { unfold register_beat. rewrite A.
    apply Z.eqb_neq in Hlast. rewrite Hlast. cbn [negb]. fold ibi.
    destruct (out_of_range ibi) eqn:Eo; [reflexivity|].
    assert (inconsistent (at_peak p raw t_ms) ibi = true) as ->;
      [|reflexivity].
    unfold out_of_range, IBI_MIN_MS, IBI_MAX_MS, BPM_MIN, BPM_MAX in Eo.
    change (Z.quot 60000 180) with 333 in Eo.
    change (Z.quot 60000 40) with 1500 in Eo.
    apply orb_false_elim in Eo. destruct Eo as [E1 E2].
    apply Z.ltb_ge in E1.
    assert (ibi <= 1500) as E2'
      by (destruct (Z.gtb_spec ibi 1500); [discriminate|lia]).
    destruct Hrej as [Hrej|[Hrej|[Hc Hr]]]; try lia.
    assert (median_ibi (at_peak p raw t_ms) = median_ibi p) as Em.
    { unfold median_ibi, ibi_window. now rewrite B, C. }
    unfold inconsistent, ratio_rejected. rewrite C, Em, Hr.
    pose proof (median_in_range p Hvalid ltac:(lia)) as [Hm _].
    assert ((ibi_count_ p >=? 3) = true) as -> by (apply Z.geb_le; lia).
    assert ((median_ibi p >? 0) = true) as -> by (apply Z.gtb_lt; lia).
    reflexivity. }
  rewrite E. cbn [fst snd].
  eexists. split; [reflexivity|].
  cbn [set_last_beat ibi_buf_ ibi_count_ last_beat_ms_]. auto.
Qed.

(** *** The interval ring and the bpm *)

Lemma slot_cases (n : nat) :
  (slot n < 5)%nat /\
  slot (S n) = if Nat.eqb (slot n) 4 then 0%nat else S (slot n).
Proof.
  unfold slot, IBI_BUF.
  rewrite !Z.rem_mod_nonneg by lia.
  rewrite Nat2Z.inj_succ. unfold Z.succ.
  pose proof (Z.mod_pos_bound (Z.of_nat n) 5 ltac:(lia)) as Hb.
  split; [lia|].
  destruct (Nat.eqb_spec (Z.to_nat (Z.of_nat n mod 5)) 4) as [E|E].
  - assert (Z.of_nat n mod 5 = 4) as E' by lia.
    assert ((Z.of_nat n + 1) mod 5 = 0) as ->
      by (clear E; Z.div_mod_to_equations; lia).
    reflexivity.
  - assert (Z.of_nat n mod 5 <> 4) as E' by lia.
    assert ((Z.of_nat n + 1) mod 5 = Z.of_nat n mod 5 + 1) as ->
      by (clear E; Z.div_mod_to_equations; lia).
    lia.
Qed.

Lemma push_ibi_inv (p : t) (acc : list Z) (x : Z) :
  ibi_inv p acc -> in_range x -> ibi_inv (push_ibi p x) (x :: acc).
Proof.
  intros [Hc Hr Hb] Hx. constructor.
  - cbn [push_ibi set_ibi ibi_count_]. rewrite Hc.
    cbn [length]. lia.
  - now constructor.
  - cbn [push_ibi set_ibi ibi_buf_]. rewrite Hc. fold (slot (length acc)).
    destruct acc as [|e [|d [|c [|b [|a rest]]]]];
      try (cbn in Hb; rewrite Hb; reflexivity).
    unfold ring_rel in *.
    destruct (slot_cases (length (e :: d :: c :: b :: a :: rest)))
      as [Hlt Hs].
    change (slot (length (x :: e :: d :: c :: b :: a :: rest)))
      with (slot (S (length (e :: d :: c :: b :: a :: rest)))).
    rewrite Hs, Hb.
    remember (slot (length (e :: d :: c :: b :: a :: rest))) as k.
    destruct k as [|[|[|[|[|k]]]]]; try reflexivity. lia.
Qed.

Lemma ibi_inv_window (p : t) (acc : list Z) :
  ibi_inv p acc ->
  length (ibi_buf_ p) = 5%nat /\
  Forall in_range (ibi_window p) /\
  sum_Z (ibi_window p) = sum_Z (firstn 5 acc) /\
  Z.min (ibi_count_ p) IBI_BUF = Z.of_nat (length (firstn 5 acc)).
Proof.
  intros [Hc Hr Hb]. unfold ibi_window, IBI_BUF. rewrite Hc.
  destruct acc as [|e [|d [|c [|b [|a rest]]]]].
  1-5: cbn in Hb; rewrite Hb; cbn; eval_pos_to_nat;
    cbn; repeat split; try reflexivity; try lia;
    repeat match goal with
           | H : Forall _ (_ :: _) |- _ => inversion H; subst; clear H
           end;
    repeat (constructor; try assumption).
  unfold ring_rel in Hb.
  destruct (slot_cases (length (e :: d :: c :: b :: a :: rest))) as [Hlt _].
  assert (Z.min (Z.of_nat (length (e :: d :: c :: b :: a :: rest))) 5 = 5)
    as -> by (cbn [length]; lia).
  remember (slot (length (e :: d :: c :: b :: a :: rest))) as k.
  clear Heqk. rewrite Hb. clear Hb Hc.
  assert (in_range a /\ in_range b /\ in_range c /\ in_range d /\ in_range e)
    as (Ha & Hb & Hc & Hd & He).
  { rewrite Forall_forall in Hr. repeat split; apply Hr; simpl; auto 10. }
  destruct k as [|[|[|[|[|k]]]]]; try lia;
    cbn; repeat split; try reflexivity; try lia;
    eval_pos_to_nat; cbn; try lia;
    repeat (constructor; try assumption).
Qed.

Lemma ibi_inv_valid (p : t) (acc : list Z) :
  ibi_inv p acc -> intervals_valid p.
Proof.
  intros H. destruct (ibi_inv_window p acc H) as (A & B & _). now split.
Qed.

Lemma sum_Z_lower (l : list Z) :
  Forall in_range l -> 333 * Z.of_nat (length l) <= sum_Z l.
Proof.
  unfold sum_Z.
  assert (forall l a, Forall in_range l ->
            a + 333 * Z.of_nat (length l) <= fold_left Z.add l a) as H.
  { clear l. induction l as [|x l IH]; intros a Hl; simpl fold_left.
    - simpl. lia.
    - inversion Hl as [|? ? Hx Hl']; subst.
      specialize (IH (a + x) Hl'). unfold in_range in Hx.
      cbn [length]. lia. }
  intros Hl. specialize (H l 0 Hl). lia.
Qed.

Lemma firstn_Forall (P : Z -> Prop) (n : nat) (l : list Z) :
  Forall P l -> Forall P (firstn n l).
Proof.
  intros H. rewrite <- (firstn_skipn n l) in H.
  now apply Forall_app in H.
Qed.

Lemma ibi_inv_frame (p p' : t) (acc : list Z) :
  ibi_buf_ p' = ibi_buf_ p -> ibi_count_ p' = ibi_count_ p ->
  ibi_inv p acc -> ibi_inv p' acc.
Proof. intros Hb Hc [H1 H2 H3]. constructor; congruence. Qed.

Lemma to_int_range (z : Z) : - 2 ^ 31 <= to_int z < 2 ^ 31.
Proof.
  unfold to_int.
  pose proof (Z.mod_pos_bound (z + 2 ^ 31) (2 ^ 32) ltac:(lia)). lia.
Qed.

Lemma to_int_small (z : Z) : - 2 ^ 31 <= z < 2 ^ 31 -> to_int z = z.
Proof. intros H. unfold to_int. rewrite Z.mod_small; lia. Qed.

(** [register_beat] on a ring that matches the accepted intervals: either it
    returns [NONE] and the ring still matches them, or it has accepted the
    interval since the last beat and reports the truncated bpm of the last
    five. *)
Lemma register_beat_inv (p : t) (acc : list Z) (beat_ms out_bpm : Z) :
  ibi_inv p acc ->
  let ibi := to_int (beat_ms - last_beat_ms_ p) in
  let p' := fst (fst (register_beat p beat_ms out_bpm)) in
  let res := snd (fst (register_beat p beat_ms out_bpm)) in
  let bpm' := snd (register_beat p beat_ms out_bpm) in
  (res = NONE /\ ibi_inv p' acc) \/
  (res <> NONE /\ ibi_inv p' (ibi :: acc) /\ in_range ibi /\
   bpm' = 60000 / (sum_Z (firstn 5 (ibi :: acc))
                   / Z.of_nat (length (firstn 5 (ibi :: acc))))).
Proof.
  intros Hinv ibi. unfold register_beat. fold ibi.
  assert (ibi_inv (set_last_beat p beat_ms) acc) as Hkeep
    by (eapply ibi_inv_frame; [| |exact Hinv]; reflexivity).
  destruct (negb (last_beat_ms_ p =? 0));
    [|left; split; [reflexivity|exact Hkeep]].
  destruct (out_of_range ibi) eqn:Eo;
    [left; split; [reflexivity|exact Hkeep]|].
  destruct (inconsistent p ibi);
    [left; split; [reflexivity|exact Hkeep]|].
  assert (in_range ibi) as Hr.
  { unfold out_of_range, IBI_MIN_MS, IBI_MAX_MS, BPM_MIN, BPM_MAX in Eo.
    change (Z.quot 60000 180) with 333 in Eo.
    change (Z.quot 60000 40) with 1500 in Eo.
    apply orb_false_elim in Eo. destruct Eo as [E1 E2].
    apply Z.ltb_ge in E1.
    destruct (Z.gtb_spec ibi 1500); [discriminate|].
    unfold in_range. lia. }
  pose proof (push_ibi_inv p acc ibi Hinv Hr) as Hinv1.
  destruct (ibi_inv_window _ _ Hinv1) as (_ & Hw & Hsum & Hn).
  assert (0 < length (firstn 5 (ibi :: acc)))%nat as Hlen
    by (cbn; lia).
  assert (Forall in_range (firstn 5 (ibi :: acc))) as Hfw
    by (apply firstn_Forall, (inv_range _ _ Hinv1)).
  pose proof (sum_Z_lower _ Hfw) as Hlow.
  assert (average_ibi (push_ibi p ibi) =
          sum_Z (firstn 5 (ibi :: acc))
          / Z.of_nat (length (firstn 5 (ibi :: acc)))) as Havg.
  { unfold average_ibi. rewrite Hn, Hsum.
    destruct (Z.leb_spec (Z.of_nat (length (firstn 5 (ibi :: acc)))) 0);
      [lia|].
    apply Z.quot_div_nonneg; lia. }
  assert (333 <= average_ibi (push_ibi p ibi)) as Hpos.
  { rewrite Havg. apply Z.div_le_lower_bound; lia. }
  assert ((average_ibi (push_ibi p ibi) >? 0) = true) as ->
    by (apply Z.gtb_lt; lia).
  right. cbn [fst snd]. split; [|split; [|split]].
  - destruct (ibi_count_ (push_ibi p ibi) <? 3); discriminate.
  - eapply ibi_inv_frame; [| |exact Hinv1]; reflexivity.
  - exact Hr.
  - rewrite Havg. apply Z.quot_div_nonneg; lia.
Qed.

Lemma register_beat_indep (p : t) (beat_ms b1 b2 : Z) :
  fst (register_beat p beat_ms b1) = fst (register_beat p beat_ms b2).
Proof. unfold register_beat. split_ifs; reflexivity. Qed.

(** The state and the result of [update] do not depend on what is passed
    for the outputs. *)
Lemma update_indep (p : t) (raw t_ms b1 b2 : Z) (q1 q2 : f32) :
  fst (fst (update p raw t_ms b1 q1)) = fst (fst (update p raw t_ms b2 q2)).
Proof.
  unfold update.
  destruct (negb (env_inited_ (condition p raw)) || _); [reflexivity|].
  destruct (negb (have_prev_ (condition p raw))); [reflexivity|].
  destruct (negb (beat (condition p raw) (lp_ (condition p raw))));
    [reflexivity|].
  pose proof (register_beat_indep
                (set_prev (condition p raw) (have_prev_ (condition p raw))
                   (lp_ (condition p raw)) t_ms
                   (sub (lp_ (condition p raw))
                        (prev_filt_ (condition p raw))))
                (prev_t_ms_
                   (set_prev (condition p raw) (have_prev_ (condition p raw))
                      (lp_ (condition p raw)) t_ms
                      (sub (lp_ (condition p raw))
                           (prev_filt_ (condition p raw))))) b1 b2) as H.
  destruct (register_beat _ _ b1) as [[p3 r3] o3].
  destruct (register_beat _ _ b2) as [[p4 r4] o4].
  simpl in *. exact H.
Qed.

Lemma update_inv (p : t) (acc : list Z) (raw t_ms out_bpm : Z)
  (out_quality : f32) :
  ibi_inv p acc ->
  let out := update p raw t_ms out_bpm out_quality in
  let ibi := to_int (t_ms - last_beat_ms_ p) in
  (snd (fst (fst out)) = NONE /\ ibi_inv (fst (fst (fst out))) acc) \/
  (snd (fst (fst out)) <> NONE /\
   ibi_inv (fst (fst (fst out))) (ibi :: acc) /\
   in_range ibi /\
   snd (fst out) = 60000 / (sum_Z (firstn 5 (ibi :: acc))
                            / Z.of_nat (length (firstn 5 (ibi :: acc))))).
Proof.
  intros Hinv out ibi. unfold out.
  pose proof (update_spec p raw t_ms out_bpm out_quality) as H.
  destruct (registers_beat p raw).
  - rewrite H. cbn [fst snd].
    destruct (at_peak_frame p raw t_ms) as ((A & B & C) & _).
    assert (ibi_inv (at_peak p raw t_ms) acc) as Hinv'
      by (eapply ibi_inv_frame; eassumption).
    pose proof (register_beat_inv _ acc t_ms out_bpm Hinv') as R.
    cbv zeta in R. rewrite A in R. exact R.
  - destruct H as (p' & -> & (A & B & C)). cbn [fst snd].
    left. split; [reflexivity|]. eapply ibi_inv_frame; eassumption.
Qed.

Lemma pulse_run_cons (p : t) (s : Sample) (ss : list Sample) :
  fst (run p (s :: ss)) =
  fst (run (fst (fst (fst (update p (s_raw s) (s_t_ms s) 0 zero)))) ss).
Proof.
  simpl. destruct (update p (s_raw s) (s_t_ms s) 0 zero) as [[[p1 r] b] q].
  simpl. destruct (run p1 ss). reflexivity.
Qed.

Lemma run_inv (ss : list Sample) : forall p acc,
  ibi_inv p acc -> ibi_inv (fst (run p ss)) (accepted p ss acc).
Proof.
  induction ss as [|s ss IH]; intros p acc Hinv; [exact Hinv|].
  rewrite pulse_run_cons. cbn [accepted]. apply IH.
  unfold step_accepted.
  destruct (update_inv p acc (s_raw s) (s_t_ms s) 0 zero Hinv)
    as [[E H]|(E & H & _)].
  - now rewrite E.
  - destruct (snd (fst (fst (update p (s_raw s) (s_t_ms s) 0 zero))));
      [congruence|exact H|exact H].
Qed.

Lemma accepted_app (ss : list Sample) (s : Sample) : forall p acc,
  accepted p (ss ++ [s]) acc =
  step_accepted (fst (run p ss)) s (accepted p ss acc).
Proof.
  induction ss as [|x ss IH]; intros p acc; [reflexivity|].
  rewrite <- app_comm_cons, pulse_run_cons. cbn [accepted]. apply IH.
Qed.

Lemma reset_inv (initial_raw : Z) : ibi_inv (reset initial_raw) [].
Proof. constructor; [reflexivity|constructor|reflexivity]. Qed.

(** C1 (amended). The estimator is reset and fed samples.  Whenever a call
    of [update] returns [PROVISIONAL] or [STABLE], with [w] the last five
    (or fewer) intervals accepted since the reset, this one included: the
    bpm returned is 60000 divided by the average of [w], both divisions
    truncated to integers, and every interval of [w] lies in
    [333, 1500] ms. *)
Theorem bpm_of_accepted_beat :
  forall (initial_raw : Z) (ss : list Sample) (s : Sample)
         (out_bpm : Z) (out_quality : f32),
    let p := fst (run (reset initial_raw) ss) in
    let out := update p (s_raw s) (s_t_ms s) out_bpm out_quality in
    let w := firstn 5 (accepted (reset initial_raw) (ss ++ [s]) []) in
    snd (fst (fst out)) <> NONE ->
    w <> [] /\
    snd (fst out) = 60000 / (sum_Z w / Z.of_nat (length w)) /\
    Forall in_range w.
Proof.
  intros initial_raw ss s out_bpm out_quality p out w Hres.
  pose proof (run_inv ss _ _ (reset_inv initial_raw)) as Hinv. fold p in Hinv.
  destruct (update_inv p _ (s_raw s) (s_t_ms s) out_bpm out_quality Hinv)
    as [[E _]|(_ & Hinv' & Hr & Hbpm)]; [contradiction|].
  assert (w = firstn 5 (to_int (s_t_ms s - last_beat_ms_ p)
                        :: accepted (reset initial_raw) ss [])) as Ew.
  { unfold w. rewrite accepted_app. fold p. unfold step_accepted.
    assert (snd (fst (fst (update p (s_raw s) (s_t_ms s) 0 zero)))
            = snd (fst (fst out))) as ->
      by (unfold out; now rewrite (update_indep p _ _ 0 out_bpm zero
                                     out_quality)).
    destruct (snd (fst (fst out))); [congruence|reflexivity|reflexivity]. }
  rewrite Ew. split; [discriminate|]. split; [exact Hbpm|].
  apply firstn_Forall, (inv_range _ _ Hinv').
Qed.

(** The samples behind the instances below: the first 93 samples of a
    700 ms triangular wave, and the 94th, at 940 ms. *)
Lemma wave_first_beat :
  let p := fst (run (reset 2000) (wave 700 400 93)) in
  let s := mkSample (tri 700 400 940) 940 in
  update p (s_raw s) (s_t_ms s) 0 zero =
  (fst (fst (fst (update p (s_raw s) (s_t_ms s) 0 zero))),
   PROVISIONAL, 84, snd (update p (s_raw s) (s_t_ms s) 0 zero)) /\
  accepted (reset 2000) (wave 700 400 93 ++ [s]) [] = [710].
Proof. vm_compute. split; reflexivity. Qed.

(** The bpm is not the rounded one: the first beat accepted over a 700 ms
    triangular wave comes with an interval of 710 ms, and 60000/710 is
    84.507..., which rounds to 85; [update] returns 84. *)
Lemma bpm_is_truncated_not_rounded : ~ bpm_as_specified.
Proof.
  intros H.
  specialize (H 2000 (wave 700 400 93) (mkSample (tri 700 400 940) 940)).
  cbv zeta in H.
  destruct wave_first_beat as [E1 E2]. cbv zeta in E1.
  rewrite E1, E2 in H. cbn [fst snd firstn] in H.
  destruct H as [H _]; [discriminate|].
  vm_compute in H. discriminate H.
Qed.

Lemma bpm_of_accepted_beat_witness :
  let p := fst (run (reset 2000) (wave 700 400 93)) in
  let s := mkSample (tri 700 400 940) 940 in
  let w := firstn 5 (accepted (reset 2000) (wave 700 400 93 ++ [s]) []) in
  w <> [] /\
  snd (fst (update p (s_raw s) (s_t_ms s) 0 zero))
  = 60000 / (sum_Z w / Z.of_nat (length w)) /\
  Forall in_range w.
Proof.
  intros p s w.
  apply (bpm_of_accepted_beat 2000 (wave 700 400 93) s 0 zero).
  destruct wave_first_beat as [E _]. cbv zeta in E.
  change (update (fst (run (reset 2000) (wave 700 400 93)))
            (s_raw s) (s_t_ms s) 0 zero)
    with (update (fst (run (reset 2000) (wave 700 400 93)))
            (s_raw (mkSample (tri 700 400 940) 940))
            (s_t_ms (mkSample (tri 700 400 940) 940)) 0 zero).
  rewrite E. discriminate.
Defined.

Lemma peak_gates_witness :
  let p := fst (run (reset 2000) (wave 700 400 93)) in
  let s := mkSample (tri 700 400 940) 940 in
  let p1 := condition p (s_raw s) in
  registers_beat p (s_raw s) = true /\
  gtb (diff_prev_ p) zero
  && leb (sub (lp_ p1) (prev_filt_ p)) zero
  && ((last_beat_ms_ p =? 0) || (prev_t_ms_ p - last_beat_ms_ p >=? 333))
  && gtb (prev_filt_ p)
         (fmax (of_int 22)
               (fmax (mul (lit 26 100) (p2p_ema_ p1))
                     (mul (of_int 6) (noise_ema_ p1))))
  && gtb (sub (prev_filt_ p) (env_min_ p1)) (mul (lit 50 100) (p2p_ema_ p1))
  = true.
Proof.
  intros p s p1.
  assert (registers_beat p (s_raw s) = true) as Hreg
    by (vm_compute; reflexivity).
  split; [exact Hreg|].
  exact (proj1 (peak_gates p (s_raw s) (s_t_ms s) 0 zero) Hreg).
Defined.

(** The state after 204 samples of a 1600 ms triangular wave: a beat was
    registered at 440 ms, none accepted, and the sample at 2050 ms has
    [update] register the next. *)
Lemma wave_slow_beat :
  let p := fst (run (reset 2000) (wave 1600 400 204)) in
  registers_beat p (tri 1600 400 2050) = true /\
  last_beat_ms_ p = 440 /\
  ibi_buf_ p = [0; 0; 0; 0; 0] /\
  ibi_count_ p = 0.
Proof. vm_compute. repeat split; reflexivity. Qed.

Lemma rejected_beat_witness :
  let p := fst (run (reset 2000) (wave 1600 400 204)) in
  exists p',
    update p (tri 1600 400 2050) 2050 0 zero =
    (p', NONE, 0, quality_score (condition p (tri 1600 400 2050))) /\
    ibi_buf_ p' = ibi_buf_ p /\
    ibi_count_ p' = ibi_count_ p /\
    last_beat_ms_ p' = 2050.
Proof.
  intros p. destruct wave_slow_beat as (Hreg & Hlast & Hbuf & Hcount).
  fold p in Hreg, Hlast, Hbuf, Hcount.
  apply (rejected_beat p (tri 1600 400 2050) 2050 0 zero).
  - exact Hreg.
  - rewrite Hlast. discriminate.
  - unfold intervals_valid, ibi_window. rewrite Hbuf, Hcount.
    split; [reflexivity|constructor].
  - right. left. rewrite Hlast. vm_compute. reflexivity.
Defined.

(** The rule fails as the specification words it, where the time since the
    last beat does not fit in an [int]: over the same wave the last beat is
    at 440 ms, and the next is registered at [2^32 + 1440] ms.  The time
    elapsed, [2^32 + 1000] ms, is far above 1500, but the interval the code
    computes wraps around to 1000: the beat is accepted, with a bpm of
    60. *)
Lemma rejection_rule_misses_wrapped_interval : ~ rejection_as_specified.
Proof.
  intros H.
  destruct wave_slow_beat as (Hreg & Hlast & Hbuf & Hcount).
  cbv zeta in Hreg, Hlast, Hbuf, Hcount.
  specialize (H (fst (run (reset 2000) (wave 1600 400 204)))
                (tri 1600 400 2050) (2 ^ 32 + 1440) 0 zero Hreg).
  cbv zeta in H. destruct H as [H _].
  - rewrite Hlast. discriminate.
  - unfold intervals_valid, ibi_window. rewrite Hbuf, Hcount.
    split; [reflexivity|constructor].
  - right. left. rewrite Hlast. vm_compute. reflexivity.
  - vm_compute in H. discriminate H.
Qed.

Lemma update_outputs_witness :
  snd (fst (fst (update (reset 2000) 2000 10 77 zero))) = NONE /\
  snd (fst (update (reset 2000) 2000 10 77 zero)) = 77.
Proof.
  assert (snd (fst (fst (update (reset 2000) 2000 10 77 zero))) = NONE) as E
    by (vm_compute; reflexivity).
  split; [exact E|].
  generalize (update_outputs (reset 2000) 2000 10 77 zero). cbv zeta.
  destruct (update (reset 2000) 2000 10 77 zero) as [[[p' res] b] q].
  intros [_ H]. exact (H E).
Defined.

(** *** The envelope *)

Lemma decay_gain :
  decay = S754_finite false 10737418 (-30) /\
  alpha_base = S754_finite false 10737418 (-30) /\
  alpha_lp = S754_finite false 12079596 (-26).
Proof. repeat split; vm_compute; reflexivity. Qed.

Lemma pow2_val :
  F32Spec.val (pow2 31) = 2 ^ 287 /\
  F32Spec.val (pow2 32) = 2 ^ 288 /\
  F32Spec.val (pow2 33) = 2 ^ 289.
Proof. repeat split; vm_compute; reflexivity. Qed.

Lemma pow2_nice :
  F32Spec.nice (pow2 31) /\ F32Spec.nice (pow2 32) /\ F32Spec.nice (pow2 33).
Proof. repeat split; vm_compute; reflexivity. Qed.

Lemma of_int_within (n : Z) : int_range n -> within (pow2 31) (of_int n).
Proof.
  intros Hn. destruct pow2_val as (V31 & _). destruct pow2_nice as (N31 & _).
  unfold of_int.
  assert (F32Spec.F2Z n 0 = n * 2 ^ 256) as E by reflexivity.
  unfold int_range in Hn.
  destruct (F32Facts.normalize_bracket n 0 (SFopp (pow2 31)) (pow2 31)
              ltac:(lia) ltac:(now apply F32Facts.nice_opp) N31) as [N B].
  - rewrite F32Facts.val_opp, V31, E.
    change (2 ^ 287) with (2 ^ 31 * 2 ^ 256).
    assert (0 < 2 ^ 256) by (apply Z.pow_pos_nonneg; lia). nia.
  - rewrite F32Facts.val_opp in B. split; [exact N|lia].
Qed.

(** An averaging step with one of the gains of the source, on numbers
    within [2^32]: the result lies between the old value and the input. *)
Lemma ema_step (alpha v x : f32) :
  alpha = decay \/ alpha = alpha_base \/ alpha = alpha_lp ->
  within (pow2 32) v -> within (pow2 32) x ->
  F32Spec.nice (ema alpha v x) /\
  (F32Spec.val v <= F32Spec.val x ->
   F32Spec.val v <= F32Spec.val (ema alpha v x) <= F32Spec.val x) /\
  (F32Spec.val x <= F32Spec.val v ->
   F32Spec.val x <= F32Spec.val (ema alpha v x) <= F32Spec.val v).
Proof.
  intros Ha [Nv Bv] [Nx Bx].
  destruct pow2_val as (_ & V32 & V33). destruct pow2_nice as (_ & _ & N33).
  destruct decay_gain as (Ed & Eb & El).
  assert (Z.abs (F32Spec.val x - F32Spec.val v) <= F32Spec.val (pow2 33))
    as Hh.
  { rewrite V33. rewrite V32 in Bv, Bx.
    change (2 ^ 289) with (2 * 2 ^ 288). lia. }
  unfold ema, add, mul, sub.
  destruct Ha as [-> | [-> | ->]].
  - rewrite Ed.
    apply (F32Facts.ema_between 10737418 (-30) eq_refl ltac:(lia)
             ltac:(vm_compute; discriminate) v x (pow2 33));
      assumption.
  - rewrite Eb.
    apply (F32Facts.ema_between 10737418 (-30) eq_refl ltac:(lia)
             ltac:(vm_compute; discriminate) v x (pow2 33));
      assumption.
  - rewrite El.
    apply (F32Facts.ema_between 12079596 (-26) eq_refl ltac:(lia)
             ltac:(vm_compute; discriminate) v x (pow2 33));
      assumption.
Qed.

Lemma ema_within (alpha b v x : f32) :
  alpha = decay \/ alpha = alpha_base \/ alpha = alpha_lp ->
  F32Spec.val b <= F32Spec.val (pow2 32) ->
  within b v -> within b x -> within b (ema alpha v x).
Proof.
  intros Ha Hb [Nv Bv] [Nx Bx].
  destruct (ema_step alpha v x Ha ltac:(split; [assumption|lia])
              ltac:(split; [assumption|lia])) as (N & H1 & H2).
  split; [exact N|].
  destruct (Z_le_gt_dec (F32Spec.val v) (F32Spec.val x)) as [H|H].
  - specialize (H1 H). lia.
  - specialize (H2 ltac:(lia)). lia.
Qed.

Lemma low_pass_inv (p : t) (raw : Z) :
  filter_inv p -> int_range raw -> filter_inv (low_pass p raw).
Proof.
  intros [Hb Hl Hmin Hmax] Hraw.
  destruct pow2_val as (V31 & V32 & _).
  destruct pow2_nice as (N31 & N32 & _).
  pose proof (of_int_within raw Hraw) as Hr.
  assert (within (pow2 31) (ema alpha_base (baseline_ p) (of_int raw)))
    as Hb'.
  { apply ema_within; auto. rewrite V31, V32.
    apply Z.pow_le_mono_r; lia. }
  assert (within (pow2 32)
            (sub (of_int raw) (ema alpha_base (baseline_ p) (of_int raw))))
    as Hac.
  { destruct Hr as [Nr Br], Hb' as [Nb Bb].
    destruct (F32Facts.sub_bracket (of_int raw)
                (ema alpha_base (baseline_ p) (of_int raw))
                (SFopp (pow2 32)) (pow2 32) Nr Nb
                ltac:(now apply F32Facts.nice_opp) N32) as [N B].
    - rewrite F32Facts.val_opp, V32. rewrite V31 in Br, Bb.
      change (2 ^ 288) with (2 * 2 ^ 287). lia.
    - rewrite F32Facts.val_opp in B. split; [exact N|unfold sub; lia]. }
  constructor; cbn [low_pass set_filters baseline_ lp_ env_min_ env_max_];
    try assumption.
  apply ema_within; auto. lia.
Qed.

Lemma leb_refl_nice (x : f32) : F32Spec.nice x -> leb x x = true.
Proof. intros H. apply F32Facts.leb_val; [assumption|assumption|lia]. Qed.

(** One call of [update_envelope] on numbers within [2^32]. *)
Lemma update_envelope_spec (p : t) (x : f32) :
  within (pow2 32) x ->
  within (pow2 32) (env_min_ p) -> within (pow2 32) (env_max_ p) ->
  let p' := update_envelope p x in
  within (pow2 32) (env_min_ p') /\ within (pow2 32) (env_max_ p') /\
  leb (env_min_ p') x = true /\ leb x (env_max_ p') = true /\
  (env_inited_ p = true ->
   (ltb x (env_min_ p) = true -> env_min_ p' = x) /\
   (ltb x (env_min_ p) = false ->
    env_min_ p' = ema decay (env_min_ p) x /\
    leb (env_min_ p) (env_min_ p') = true) /\
   (gtb x (env_max_ p) = true -> env_max_ p' = x) /\
   (gtb x (env_max_ p) = false ->
    env_max_ p' = ema decay (env_max_ p) x /\
    leb (env_max_ p') (env_max_ p) = true)).
Proof.
  intros Hx Hmin Hmax p'. pose proof Hx as [Nx Bx].
  pose proof Hmin as [Nmin Bmin]. pose proof Hmax as [Nmax Bmax].
  unfold p', update_envelope.
  destruct (env_inited_ p) eqn:Ei; cbn [negb set_envelope env_min_ env_max_].
  2:{ repeat split; try assumption; try (now apply leb_refl_nice);
      discriminate. }
  (* the minimum *)
  assert (within (pow2 32) (track_min (env_min_ p) x) /\
          leb (track_min (env_min_ p) x) x = true /\
          (ltb x (env_min_ p) = true -> track_min (env_min_ p) x = x) /\
          (ltb x (env_min_ p) = false ->
           track_min (env_min_ p) x = ema decay (env_min_ p) x /\
           leb (env_min_ p) (track_min (env_min_ p) x) = true))
    as (M1 & M2 & M3 & M4).
  { unfold track_min. destruct (ltb x (env_min_ p)) eqn:El.
    - repeat split; try assumption; try (now apply leb_refl_nice);
        discriminate.
    - assert (F32Spec.val (env_min_ p) <= F32Spec.val x) as Hle.
      { destruct (Z_le_gt_dec (F32Spec.val (env_min_ p)) (F32Spec.val x))
          as [|Hgt]; [assumption|].
        apply Z.gt_lt in Hgt.
        apply (F32Facts.ltb_val x (env_min_ p) Nx Nmin) in Hgt.
        unfold ltb in El. congruence. }
      destruct (ema_step decay (env_min_ p) x ltac:(auto) Hmin Hx)
        as (N & H1 & _). specialize (H1 Hle).
      split; [split; [exact N|lia]|].
      split; [apply F32Facts.leb_val; [assumption|assumption|lia]|].
      split; [discriminate|]. intros _. split; [reflexivity|].
      apply F32Facts.leb_val; [assumption|assumption|lia]. }
  (* the maximum *)
  assert (within (pow2 32) (track_max (env_max_ p) x) /\
          leb x (track_max (env_max_ p) x) = true /\
          (gtb x (env_max_ p) = true -> track_max (env_max_ p) x = x) /\
          (gtb x (env_max_ p) = false ->
           track_max (env_max_ p) x = ema decay (env_max_ p) x /\
           leb (track_max (env_max_ p) x) (env_max_ p) = true))
    as (X1 & X2 & X3 & X4).
  { unfold track_max. destruct (gtb x (env_max_ p)) eqn:El.
    - repeat split; try assumption; try (now apply leb_refl_nice);
        discriminate.
    - assert (F32Spec.val x <= F32Spec.val (env_max_ p)) as Hle.
      { destruct (Z_le_gt_dec (F32Spec.val x) (F32Spec.val (env_max_ p)))
          as [|Hgt]; [assumption|].
        apply Z.gt_lt in Hgt.
        apply (F32Facts.ltb_val (env_max_ p) x Nmax Nx) in Hgt.
        unfold gtb in El. congruence. }
      destruct (ema_step decay (env_max_ p) x ltac:(auto) Hmax Hx)
        as (N & _ & H2). specialize (H2 Hle).
      split; [split; [exact N|lia]|].
      split; [apply F32Facts.leb_val; [assumption|assumption|lia]|].
      split; [discriminate|]. intros _. split; [reflexivity|].
      apply F32Facts.leb_val; [assumption|assumption|lia]. }
  repeat split; try assumption; try (apply M1); try (apply X1);
    try (now apply M4); try (now apply X4).
Qed.

Lemma zero_within (b : f32) : 0 <= F32Spec.val b -> within b zero.
Proof. intros H. split; [exact I|simpl; lia]. Qed.

Lemma reset_filter_inv (initial_raw : Z) :
  int_range initial_raw -> filter_inv (reset initial_raw).
Proof.
  intros H. destruct pow2_val as (_ & V32 & _).
  constructor; cbn [reset baseline_ lp_ env_min_ env_max_];
    [now apply of_int_within| | |]; apply zero_within; rewrite V32; lia.
Qed.

Lemma register_beat_filters (p : t) (beat_ms out_bpm : Z) :
  let p' := fst (fst (register_beat p beat_ms out_bpm)) in
  baseline_ p' = baseline_ p /\ lp_ p' = lp_ p /\
  env_inited_ p' = env_inited_ p /\
  env_min_ p' = env_min_ p /\ env_max_ p' = env_max_ p.
Proof. unfold register_beat. split_ifs; repeat split. Qed.

(** [update] leaves the filters and the envelope as [update_envelope] set
    them. *)
Lemma update_filters (p : t) (raw t_ms out_bpm : Z) (out_quality : f32) :
  let p' := fst (fst (fst (update p raw t_ms out_bpm out_quality))) in
  let pe := update_envelope (low_pass p raw) (lp_ (low_pass p raw)) in
  baseline_ p' = baseline_ pe /\ lp_ p' = lp_ pe /\
  env_inited_ p' = env_inited_ pe /\
  env_min_ p' = env_min_ pe /\ env_max_ p' = env_max_ pe.
Proof.
  cbv zeta.
  assert (baseline_ (condition p raw)
          = baseline_ (update_envelope (low_pass p raw)
                         (lp_ (low_pass p raw))) /\
          lp_ (condition p raw)
          = lp_ (update_envelope (low_pass p raw) (lp_ (low_pass p raw))) /\
          env_inited_ (condition p raw)
          = env_inited_ (update_envelope (low_pass p raw)
                           (lp_ (low_pass p raw))) /\
          env_min_ (condition p raw)
          = env_min_ (update_envelope (low_pass p raw)
                        (lp_ (low_pass p raw))) /\
          env_max_ (condition p raw)
          = env_max_ (update_envelope (low_pass p raw)
                        (lp_ (low_pass p raw)))) as (A & B & C & D & E)
    by (unfold condition; repeat split).
  rewrite <- A, <- B, <- C, <- D, <- E.
  unfold update.
  destruct (negb (env_inited_ (condition p raw)) || _); [repeat split|].
  destruct (negb (have_prev_ (condition p raw))); [repeat split|].
  destruct (negb (beat (condition p raw) (lp_ (condition p raw))));
    [repeat split|].
  pose proof (register_beat_filters
                (set_prev (condition p raw) (have_prev_ (condition p raw))
                   (lp_ (condition p raw)) t_ms
                   (sub (lp_ (condition p raw))
                        (prev_filt_ (condition p raw))))
                (prev_t_ms_
                   (set_prev (condition p raw) (have_prev_ (condition p raw))
                      (lp_ (condition p raw)) t_ms
                      (sub (lp_ (condition p raw))
                           (prev_filt_ (condition p raw))))) out_bpm) as H.
  cbv zeta in H.
  destruct (register_beat _ _ out_bpm) as [[p3 r3] o3].
  cbn [fst snd set_prev baseline_ lp_ env_inited_ env_min_ env_max_] in *.
  exact H.
Qed.

Lemma low_pass_envelope (p : t) (raw : Z) :
  env_inited_ (low_pass p raw) = env_inited_ p /\
  env_min_ (low_pass p raw) = env_min_ p /\
  env_max_ (low_pass p raw) = env_max_ p.
Proof. repeat split. Qed.

Lemma update_filter_inv (p : t) (raw t_ms out_bpm : Z) (out_quality : f32) :
  filter_inv p -> int_range raw ->
  filter_inv (fst (fst (fst (update p raw t_ms out_bpm out_quality)))).
Proof.
  intros Hinv Hraw.
  pose proof (low_pass_inv p raw Hinv Hraw) as [Hb Hl Hmin Hmax].
  destruct (update_filters p raw t_ms out_bpm out_quality)
    as (A & B & _ & D & E).
  destruct (update_envelope_spec (low_pass p raw) (lp_ (low_pass p raw))
              Hl Hmin Hmax) as (M & X & _).
  assert (baseline_ (update_envelope (low_pass p raw) (lp_ (low_pass p raw)))
          = baseline_ (low_pass p raw) /\
          lp_ (update_envelope (low_pass p raw) (lp_ (low_pass p raw)))
          = lp_ (low_pass p raw)) as [F G]
    by (unfold update_envelope; split_ifs; split; reflexivity).
  constructor; [rewrite A, F|rewrite B, G|rewrite D|rewrite E]; assumption.
Qed.

Lemma run_filter_inv (ss : list Sample) : forall p,
  filter_inv p -> Forall (fun s => int_range (s_raw s)) ss ->
  filter_inv (fst (run p ss)).
Proof.
  induction ss as [|s ss IH]; intros p Hinv Hss; [exact Hinv|].
  inversion Hss as [|? ? Hs Hss']; subst.
  rewrite pulse_run_cons. apply IH; [|exact Hss'].
  now apply update_filter_inv.
Qed.

(** C7. The estimator is reset and fed [int] samples; [p] is the state it
    is in and [raw] the sample of the next call of [update].  With [x] the
    filtered value of that call and [p'] the state [update_envelope]
    leaves: [env_min_ <= x <= env_max_] holds in [p'].  With the envelope
    initialised before the call: when [x] is below the minimum (above the
    maximum) the bound becomes [x]; otherwise the bound moves by
    [0.01f * (x - bound)], towards [x] and not past it.  [update] returns
    with this envelope and [x] as its [lp_], so the bracket holds between
    calls as well. *)
Theorem envelope_brackets_signal :
  forall (initial_raw : Z) (ss : list Sample) (raw t_ms out_bpm : Z)
         (out_quality : f32),
    int_range initial_raw ->
    Forall (fun s => int_range (s_raw s)) ss ->
    int_range raw ->
    let p := fst (run (reset initial_raw) ss) in
    let p0 := low_pass p raw in
    let x := lp_ p0 in
    let p' := update_envelope p0 x in
    let pu := fst (fst (fst (update p raw t_ms out_bpm out_quality))) in
    leb (env_min_ p') x = true /\ leb x (env_max_ p') = true /\
    (env_inited_ p0 = true ->
     (ltb x (env_min_ p0) = true -> env_min_ p' = x) /\
     (ltb x (env_min_ p0) = false ->
      env_min_ p' = add (env_min_ p0) (mul (lit 1 100) (sub x (env_min_ p0)))
      /\ leb (env_min_ p0) (env_min_ p') = true) /\
     (gtb x (env_max_ p0) = true -> env_max_ p' = x) /\
     (gtb x (env_max_ p0) = false ->
      env_max_ p' = add (env_max_ p0) (mul (lit 1 100) (sub x (env_max_ p0)))
      /\ leb (env_max_ p') (env_max_ p0) = true)) /\
    (env_min_ pu = env_min_ p' /\ env_max_ pu = env_max_ p' /\ lp_ pu = x /\
     leb (env_min_ pu) (lp_ pu) = true /\ leb (lp_ pu) (env_max_ pu) = true).
Proof.
  intros initial_raw ss raw t_ms out_bpm out_quality Hi Hss Hraw p p0 x p' pu.
  pose proof (run_filter_inv ss _ (reset_filter_inv _ Hi) Hss) as Hinv.
  fold p in Hinv.
  pose proof (low_pass_inv p raw Hinv Hraw) as [Hb Hl Hmin Hmax].
  fold p0 in Hb, Hl, Hmin, Hmax.
  destruct (update_envelope_spec p0 x Hl Hmin Hmax)
    as (_ & _ & L1 & L2 & Hmove).
  fold p' in L1, L2, Hmove.
  destruct (update_filters p raw t_ms out_bpm out_quality)
    as (_ & B & _ & D & E).
  fold p0 x p' pu in B, D, E.
  assert (lp_ p' = x) as G
    by (unfold p', update_envelope; split_ifs; reflexivity).
  split; [exact L1|]. split; [exact L2|]. split; [exact Hmove|].
  rewrite B, D, E, G. repeat split; assumption.
Qed.

Lemma envelope_brackets_signal_witness :
  let p := fst (run (reset 2000) (wave 700 400 20)) in
  let p0 := low_pass p (tri 700 400 210) in
  let x := lp_ p0 in
  let p' := update_envelope p0 x in
  leb (env_min_ p') x = true /\ leb x (env_max_ p') = true.
Proof.
  intros p p0 x p'.
  destruct (envelope_brackets_signal 2000 (wave 700 400 20)
              (tri 700 400 210) 210 0 zero) as (H1 & H2 & _).
  - unfold int_range. lia.
  - cbv [wave seq map].
    repeat (constructor; [vm_compute; split; [discriminate|reflexivity]|]).
    constructor.
  - vm_compute. split; [discriminate|reflexivity].
  - split; assumption.
Defined.

End PulseFacts.

(** ** The estimator: further properties *)

Module EstimatorFacts.

Import PulseBpm PulseSpec EstimatorSpec PulseFacts.

Lemma sum_Z_shift (l : list Z) : forall a, fold_left Z.add l a = a + sum_Z l.
Proof.
  unfold sum_Z. induction l as [|x l IH]; intros a; simpl; [lia|].
  rewrite (IH (a + x)), (IH x). lia.
Qed.

Lemma sum_Z_cons (x : Z) (l : list Z) : sum_Z (x :: l) = x + sum_Z l.
Proof. unfold sum_Z at 1. simpl. apply sum_Z_shift. Qed.

Lemma sum_Z_bounds (lo hi : Z) (l : list Z) :
  Forall (fun x => lo <= x <= hi) l ->
  lo * Z.of_nat (length l) <= sum_Z l <= hi * Z.of_nat (length l).
Proof.
  induction 1 as [|x l Hx Hl IH]; [cbn; lia|].
  rewrite sum_Z_cons. cbn [length]. lia.
Qed.

Lemma quot_between (s n lo hi : Z) :
  0 < n -> lo * n <= s <= hi * n -> lo <= Z.quot s n <= hi.
Proof.
  intros Hn Hs.
  pose proof (Z.quot_rem' s n) as E.
  pose proof (Z.rem_bound_abs s n ltac:(lia)) as Hr.
  split; nia.
Qed.

Lemma snd_run_cons (p : t) (s : Sample) (ss : list Sample) :
  snd (run p (s :: ss)) =
  (snd (fst (fst (update p (s_raw s) (s_t_ms s) 0 zero))),
   snd (fst (update p (s_raw s) (s_t_ms s) 0 zero)))
  :: snd (run (fst (fst (fst (update p (s_raw s) (s_t_ms s) 0 zero)))) ss).
Proof.
  cbn [run].
  destruct (update p (s_raw s) (s_t_ms s) 0 zero) as [[[p1 res] b] q].
  cbn [fst snd]. destruct (run p1 ss); reflexivity.
Qed.

Lemma accepted_length (ss : list Sample) : forall p acc,
  length (accepted p ss acc) = (length acc + beats_reported (snd (run p ss)))%nat.
Proof.
  induction ss as [|s ss IH]; intros p acc; [cbn; lia|].
  cbn [accepted]. rewrite IH, snd_run_cons.
  unfold step_accepted, beats_reported. cbn [filter fst].
  destruct (snd (fst (fst (update p (s_raw s) (s_t_ms s) 0 zero))));
    cbn [Result_eqb negb length]; lia.
Qed.

(** The result of an accepting [register_beat] is decided by the count
    after the push. *)
Lemma register_beat_kind (p : t) (beat_ms out_bpm : Z) :
  let res := snd (fst (register_beat p beat_ms out_bpm)) in
  res = NONE \/
  res = (if ibi_count_ p + 1 <? 3 then PROVISIONAL else STABLE).
Proof.
  unfold register_beat.
  destruct (negb (last_beat_ms_ p =? 0)); [|now left].
  destruct (out_of_range _); [now left|].
  destruct (inconsistent p _); [now left|].
  destruct (average_ibi _ >? 0); [|now left].
  right. reflexivity.
Qed.

Lemma update_kind (p : t) (raw t_ms out_bpm : Z) (out_quality : f32) :
  let res := snd (fst (fst (update p raw t_ms out_bpm out_quality))) in
  res = NONE \/
  res = (if ibi_count_ p + 1 <? 3 then PROVISIONAL else STABLE).
Proof.
  pose proof (update_spec p raw t_ms out_bpm out_quality) as H.
  destruct (registers_beat p raw).
  - rewrite H. cbn [fst snd].
    destruct (at_peak_frame p raw t_ms) as [(_ & _ & Ec) _].
    rewrite <- Ec. apply register_beat_kind.
  - destruct H as (p' & -> & _). now left.
Qed.

(** The bpm of an accepting [update] on a ring of physiological
    intervals. *)
Lemma update_bpm_range (p : t) (acc : list Z) (raw t_ms out_bpm : Z)
  (out_quality : f32) :
  ibi_inv p acc ->
  let out := update p raw t_ms out_bpm out_quality in
  snd (fst (fst out)) <> NONE -> 40 <= snd (fst out) <= 180.
Proof.
  intros Hinv out Hres.
  destruct (update_inv p _ raw t_ms out_bpm out_quality Hinv)
    as [[E _]|(_ & Hinv' & Hr & Hbpm)]; [contradiction|].
  fold out in Hbpm. rewrite Hbpm.
  set (w := firstn 5 (to_int (t_ms - last_beat_ms_ p) :: acc)).
  assert (Forall (fun x => 333 <= x <= 1500) w) as Hw
    by (apply firstn_Forall, (inv_range _ _ Hinv')).
  assert (0 < Z.of_nat (length w)) as Hlen by (unfold w; cbn; lia).
  pose proof (sum_Z_bounds 333 1500 w Hw) as Hsum.
  assert (333 <= sum_Z w / Z.of_nat (length w) <= 1500) as Havg.
  { split; [apply Z.div_le_lower_bound; lia|].
    apply Z.lt_succ_r, Z.div_lt_upper_bound; lia. }
  split.
  - apply Z.div_le_lower_bound; lia.
  - apply Z.lt_succ_r, Z.div_lt_upper_bound; lia.
Qed.

(** Every bpm [update] reports lies between [BPM_MIN] and [BPM_MAX]: the
    estimator is reset and fed any samples, and a call that returns
    [PROVISIONAL] or [STABLE] sets [out_bpm] to a value of [40, 180]. *)
Theorem reported_bpm_physiological :
  forall (initial_raw : Z) (ss : list Sample) (s : Sample)
         (out_bpm : Z) (out_quality : f32),
    let p := fst (run (reset initial_raw) ss) in
    let out := update p (s_raw s) (s_t_ms s) out_bpm out_quality in
    snd (fst (fst out)) <> NONE ->
    BPM_MIN <= snd (fst out) <= BPM_MAX.
Proof.
  intros initial_raw ss s out_bpm out_quality p out Hres.
  pose proof (run_inv ss _ _ (reset_inv initial_raw)) as Hinv. fold p in Hinv.
  exact (update_bpm_range p _ _ _ _ _ Hinv Hres).
Qed.

Lemma reported_bpm_physiological_witness :
  let p := fst (run (reset 2000) (wave 700 400 93)) in
  let s := mkSample (tri 700 400 940) 940 in
  40 <= snd (fst (update p (s_raw s) (s_t_ms s) 0 zero)) <= 180.
Proof.
  intros p s.
  apply (reported_bpm_physiological 2000 (wave 700 400 93) s 0 zero).
  destruct wave_first_beat as [E _]. cbv zeta in E.
  change (update (fst (run (reset 2000) (wave 700 400 93)))
            (s_raw s) (s_t_ms s) 0 zero)
    with (update (fst (run (reset 2000) (wave 700 400 93)))
            (s_raw (mkSample (tri 700 400 940) 940))
            (s_t_ms (mkSample (tri 700 400 940) 940)) 0 zero).
  rewrite E. discriminate.
Defined.

(** [ibi_count()] counts the beats reported since [reset], and the count
    decides the kind of a report: the estimator is reset and fed the samples
    [ss], of which [n] calls reported a beat.  Then [ibi_count_] is [n]; a
    further call leaves it at [n] when it returns [NONE] and makes it
    [n + 1] otherwise; and its report is [PROVISIONAL] for the first and
    the second beat, [STABLE] from the third one on. *)
Theorem beats_counted :
  forall (initial_raw : Z) (ss : list Sample) (s : Sample)
         (out_bpm : Z) (out_quality : f32),
    let p := fst (run (reset initial_raw) ss) in
    let n := Z.of_nat (beats_reported (snd (run (reset initial_raw) ss))) in
    let out := update p (s_raw s) (s_t_ms s) out_bpm out_quality in
    let res := snd (fst (fst out)) in
    let p' := fst (fst (fst out)) in
    ibi_count_ p = n /\
    (res = NONE -> ibi_count_ p' = n) /\
    (res <> NONE -> ibi_count_ p' = n + 1) /\
    (res = PROVISIONAL <-> res <> NONE /\ n < 2) /\
    (res = STABLE <-> res <> NONE /\ 2 <= n).
Proof.
  intros initial_raw ss s out_bpm out_quality p n out res p'.
  pose proof (run_inv ss _ _ (reset_inv initial_raw)) as Hinv. fold p in Hinv.
  assert (ibi_count_ p = n) as Hn.
  { rewrite (inv_count _ _ Hinv), accepted_length. reflexivity. }
  split; [exact Hn|].
  pose proof (update_kind p (s_raw s) (s_t_ms s) out_bpm out_quality) as Hk.
  cbv zeta in Hk. fold out res in Hk. rewrite Hn in Hk.
  assert (0 <= n) as Hn0 by (unfold n; lia).
  pose proof (update_inv p _ (s_raw s) (s_t_ms s) out_bpm out_quality Hinv)
    as Hu.
  cbv zeta in Hu. fold out in Hu. fold res p' in Hu.
  destruct Hu as [[E Hinv']|(Hne & Hinv' & _)].
  - rewrite (inv_count _ _ Hinv'), accepted_length.
    repeat split; try congruence; try (intros [? _]; congruence).
  - assert (ibi_count_ p' = n + 1) as Hc.
    { rewrite (inv_count _ _ Hinv'). cbn [length].
      rewrite accepted_length. unfold n. cbn [length]. lia. }
    destruct Hk as [Hk|Hk]; [contradiction|].
    split; [contradiction|]. split; [intros _; exact Hc|].
    destruct (Z.ltb_spec (n + 1) 3) as [Hlt|Hge]; rewrite Hk.
    + split; split; try (intros; split; [discriminate|lia]);
        try reflexivity; try discriminate; try (intros [_ ?]; lia).
    + split; split; try (intros; split; [discriminate|lia]);
        try reflexivity; try discriminate; try (intros [_ ?]; lia).
Qed.

(** *** The median and the average of the interval window *)

Lemma insert_sorted_filter (f : Z -> bool) (x : Z) (l : list Z) :
  length (filter f (insert_sorted x l)) = length (filter f (x :: l)).
Proof.
  induction l as [|y l IH]; [reflexivity|].
  cbn [insert_sorted]. destruct (x <=? y); [reflexivity|].
  cbn [filter] in *. destruct (f y), (f x); cbn [length] in *; lia.
Qed.

Lemma sort_filter (f : Z -> bool) (l : list Z) :
  length (filter f (sort l)) = length (filter f l).
Proof.
  induction l as [|x l IH]; [reflexivity|].
  cbn [sort]. rewrite insert_sorted_filter. cbn [filter].
  destruct (f x); cbn [length]; lia.
Qed.

Lemma insert_sorted_In (m x : Z) (l : list Z) :
  In m (insert_sorted x l) <-> m = x \/ In m l.
Proof.
  induction l as [|y l IH]; [simpl; intuition congruence|].
  cbn [insert_sorted]. destruct (x <=? y); simpl in *; intuition congruence.
Qed.

Lemma sort_In (m : Z) (l : list Z) : In m (sort l) <-> In m l.
Proof.
  induction l as [|x l IH]; [reflexivity|].
  cbn [sort]. rewrite insert_sorted_In. simpl. intuition congruence.
Qed.

Lemma insert_sorted_sorted (x : Z) (l : list Z) :
  StronglySorted Z.le l -> StronglySorted Z.le (insert_sorted x l).
Proof.
  induction 1 as [|y l Hl IH Hy]; cbn [insert_sorted].
  - repeat constructor.
  - destruct (Z.leb_spec x y) as [Hxy|Hxy].
    + constructor; [now constructor|].
      constructor; [exact Hxy|].
      eapply Forall_impl; [|exact Hy]. intros z Hz. simpl in Hz. lia.
    + constructor; [exact IH|].
      apply Forall_forall. intros z Hz. apply insert_sorted_In in Hz.
      destruct Hz as [->|Hz]; [lia|].
      rewrite Forall_forall in Hy. now apply Hy.
Qed.

Lemma sort_sorted (l : list Z) : StronglySorted Z.le (sort l).
Proof.
  induction l as [|x l IH]; [constructor|].
  cbn [sort]. now apply insert_sorted_sorted.
Qed.

Lemma filter_length_le (f : Z -> bool) (l : list Z) :
  (length (filter f l) <= length l)%nat.
Proof.
  induction l as [|x l IH]; [reflexivity|].
  cbn [filter]. destruct (f x); cbn [length]; lia.
Qed.

(** In a sorted list at most [k] entries are below the one at index [k],
    and at most [length - 1 - k] above it. *)
Lemma sorted_nth_counts (l : list Z) :
  StronglySorted Z.le l -> forall k, (k < length l)%nat ->
  (count_lt (nth k l 0%Z) l <= k)%nat /\
  (count_gt (nth k l 0%Z) l + k < length l)%nat.
Proof.
  unfold count_lt, count_gt.
  induction 1 as [|a l Hl IH Ha]; intros k Hk; [cbn in Hk; lia|].
  rewrite Forall_forall in Ha.
  destruct k as [|k]; cbn [nth].
  - cbn [filter]. rewrite Z.ltb_irrefl.
    assert (filter (fun x => x <? a) l = []) as ->.
    { clear IH Hl Hk. induction l as [|y l IHl]; [reflexivity|].
      cbn [filter].
      destruct (Z.ltb_spec y a) as [Hlt|_].
      - specialize (Ha y (or_introl eq_refl)). lia.
      - apply IHl. intros z Hz. apply Ha. now right. }
    pose proof (filter_length_le (fun x => a <? x) l).
    cbn [length]. lia.
  - cbn [length] in Hk.
    destruct (IH k ltac:(lia)) as [H1 H2].
    assert (a <= nth k l 0) as Hle
      by (apply Ha, nth_In; lia).
    cbn [filter].
    destruct (Z.ltb_spec (nth k l 0) a); [lia|].
    destruct (a <? nth k l 0); cbn [length]; lia.
Qed.

(** [median_ibi] returns the upper median of the intervals on record: with
    the ring of five slots and at least one interval recorded, the value
    returned is one of the window, at most half of the window is below it and
    less than half above it.  With no interval recorded it returns 0. *)
Theorem median_ibi_splits_window :
  forall (p : t),
    length (ibi_buf_ p) = 5%nat ->
    (ibi_count_ p <= 0 -> median_ibi p = 0) /\
    (1 <= ibi_count_ p ->
     let w := ibi_window p in
     let m := median_ibi p in
     In m w /\
     (2 * count_lt m w <= length w)%nat /\
     (2 * count_gt m w < length w)%nat).
Proof.
  intros p Hlen. split.
  - intros Hc. unfold median_ibi, IBI_BUF.
    destruct (Z.leb_spec (Z.min (ibi_count_ p) 5) 0); [reflexivity|lia].
  - intros Hc w m.
    pose proof (window_length p Hlen ltac:(lia)) as Hn.
    fold w in Hn. unfold IBI_BUF in Hn.
    unfold m, median_ibi, IBI_BUF. fold w.
    destruct (Z.leb_spec (Z.min (ibi_count_ p) 5) 0) as [H0|H0]; [lia|].
    set (n := Z.min (ibi_count_ p) 5) in *.
    rewrite Z.quot_div_nonneg by lia.
    assert (0 <= n / 2 < n) as Hk
      by (split; [apply Z.div_pos; lia|apply Z.div_lt; lia]).
    assert (Z.to_nat (n / 2) < length (sort w))%nat as Hk'
      by (rewrite sort_length; lia).
    destruct (sorted_nth_counts (sort w) (sort_sorted w) _ Hk') as [H1 H2].
    unfold count_lt, count_gt in *.
    rewrite sort_filter in H1, H2. rewrite sort_length in H2.
    split; [apply sort_In, nth_In, Hk'|].
    assert (n <= 2 * (n / 2) + 1)
      by (pose proof (Z.div_mod n 2 ltac:(lia));
          pose proof (Z.mod_pos_bound n 2 ltac:(lia)); lia).
    assert (2 * (n / 2) <= n) by (apply Z.mul_div_le; lia).
    split; lia.
Qed.

Lemma median_ibi_splits_window_witness :
  let p := push_ibi (push_ibi (push_ibi (reset 0) 900) 700) 800 in
  median_ibi p = 800 /\ In (median_ibi p) (ibi_window p).
Proof.
  intros p.
  destruct (median_ibi_splits_window p eq_refl) as [_ H].
  destruct (H ltac:(vm_compute; discriminate)) as (Hin & _).
  split; [reflexivity|exact Hin].
Defined.

(** [average_ibi] lies between the smallest and the largest interval on
    record, and is 0 with none: with the ring of five slots, if every
    interval of the window is in [[lo, hi]] so is the average. *)
Theorem average_ibi_within_window :
  forall (p : t) (lo hi : Z),
    length (ibi_buf_ p) = 5%nat ->
    (ibi_count_ p <= 0 -> average_ibi p = 0) /\
    (1 <= ibi_count_ p ->
     Forall (fun x => lo <= x <= hi) (ibi_window p) ->
     lo <= average_ibi p <= hi).
Proof.
  intros p lo hi Hlen. unfold average_ibi, IBI_BUF. split.
  - intros Hc.
    destruct (Z.leb_spec (Z.min (ibi_count_ p) 5) 0); [reflexivity|lia].
  - intros Hc Hw.
    pose proof (window_length p Hlen ltac:(lia)) as Hn. unfold IBI_BUF in Hn.
    destruct (Z.leb_spec (Z.min (ibi_count_ p) 5) 0) as [H0|H0]; [lia|].
    pose proof (sum_Z_bounds lo hi _ Hw) as Hs. rewrite Hn in Hs.
    apply quot_between; lia.
Qed.

Lemma average_ibi_within_window_witness :
  let p := push_ibi (push_ibi (push_ibi (reset 0) 900) 700) 800 in
  700 <= average_ibi p <= 900.
Proof.
  intros p.
  destruct (average_ibi_within_window p 700 900 eq_refl) as [_ H].
  apply H; [vm_compute; discriminate|].
  vm_compute. repeat constructor; discriminate.
Defined.

(** *** The ring of intervals *)

Lemma ibi_inv_permutation (p : t) (acc : list Z) :
  ibi_inv p acc -> Permutation (ibi_window p) (firstn 5 acc).
Proof.
  intros [Hc Hr Hb]. unfold ibi_window, IBI_BUF. rewrite Hc.
  destruct acc as [|e [|d [|c [|b [|a rest]]]]].
  1-5: cbn in Hb; rewrite Hb; cbn; eval_pos_to_nat; cbn;
    try apply Permutation_refl.
  - apply perm_swap.
  - apply (Permutation_rev [c; d; e]).
  - apply (Permutation_rev [b; c; d; e]).
  - unfold ring_rel in Hb.
    destruct (slot_cases (length (e :: d :: c :: b :: a :: rest)))
      as [Hlt _].
    assert (Z.min (Z.of_nat (length (e :: d :: c :: b :: a :: rest))) 5 = 5)
      as -> by (cbn [length]; lia).
    remember (slot (length (e :: d :: c :: b :: a :: rest))) as k.
    clear Heqk. rewrite Hb. clear Hb Hc.
    change (firstn 5 (e :: d :: c :: b :: a :: rest)) with [e; d; c; b; a].
    assert (Permutation [a; b; c; d; e] [e; d; c; b; a]) as Hrev
      by apply (Permutation_rev [a; b; c; d; e]).
    destruct k as [|[|[|[|[|k]]]]]; try lia;
      cbn; eval_pos_to_nat; cbn;
      (etransitivity; [|exact Hrev]).
    + apply Permutation_refl.
    + apply (Permutation_app_comm [e] [a; b; c; d]).
    + apply (Permutation_app_comm [d; e] [a; b; c]).
    + apply (Permutation_app_comm [c; d; e] [a; b]).
    + apply (Permutation_app_comm [b; c; d; e] [a]).
Qed.

(** The window of [average_ibi] and [median_ibi] holds the last five
    intervals: the estimator is reset and fed any samples; then the slots
    the two functions read hold, in some order, the intervals of the last
    five beats reported (of all of them while fewer than five were), each
    in [[333, 1500]]. *)
Theorem window_holds_last_intervals :
  forall (initial_raw : Z) (ss : list Sample),
    let p := fst (run (reset initial_raw) ss) in
    let acc := accepted (reset initial_raw) ss [] in
    Permutation (ibi_window p) (firstn 5 acc) /\
    length acc = beats_reported (snd (run (reset initial_raw) ss)) /\
    Forall in_range (ibi_window p).
Proof.
  intros initial_raw ss p acc.
  pose proof (run_inv ss _ _ (reset_inv initial_raw)) as Hinv.
  fold p acc in Hinv.
  split; [now apply ibi_inv_permutation|].
  split; [unfold acc; rewrite accepted_length; reflexivity|].
  apply (ibi_inv_window _ _ Hinv).
Qed.

(** *** Arming *)

Lemma condition_inited (p : t) (raw : Z) : env_inited_ (condition p raw) = true.
Proof.
  unfold condition, update_envelope.
  destruct (negb (env_inited_ (low_pass p raw))); reflexivity.
Qed.

Lemma update_unarmed (p : t) (raw t_ms out_bpm : Z) (out_quality : f32) :
  have_prev_ p = false ->
  snd (fst (fst (update p raw t_ms out_bpm out_quality))) = NONE /\
  snd (fst (update p raw t_ms out_bpm out_quality)) = out_bpm.
Proof.
  intros H. unfold update.
  destruct (condition_frame p raw) as (_ & _ & _ & Eh & _).
  rewrite Eh, H. cbn [negb].
  destruct (negb (env_inited_ (condition p raw)) || _); split; reflexivity.
Qed.

(** A beat needs two samples in a row above the amplitude floor.  A call
    of [update] that finds no previous sample on record reports no beat and
    leaves [out_bpm] alone; a call whose smoothed amplitude is below the
    adaptive floor reports no beat and drops the previous sample, so that
    the call after it, whatever its sample, reports no beat either.  The
    test [!env_inited_] of the gate never fires: the envelope is
    initialised by then. *)
Theorem beat_needs_two_samples :
  forall (p : t) (raw t_ms out_bpm : Z) (out_quality : f32),
    let p1 := condition p raw in
    let out := update p raw t_ms out_bpm out_quality in
    let p' := fst (fst (fst out)) in
    env_inited_ p1 = true /\
    (have_prev_ p = false ->
     snd (fst (fst out)) = NONE /\ snd (fst out) = out_bpm) /\
    (ltb (p2p_ema_ p1) (p2p_min_adapt p1) = true ->
     snd (fst (fst out)) = NONE /\ snd (fst out) = out_bpm /\
     have_prev_ p' = false /\
     forall (raw' t_ms' out_bpm' : Z) (out_quality' : f32),
       snd (fst (fst (update p' raw' t_ms' out_bpm' out_quality'))) = NONE /\
       snd (fst (update p' raw' t_ms' out_bpm' out_quality')) = out_bpm').
Proof.
  intros p raw t_ms out_bpm out_quality p1 out p'.
  split; [apply condition_inited|].
  split; [apply update_unarmed|].
  intros Hlow.
  assert (out = (set_prev p1 false (prev_filt_ p1) (prev_t_ms_ p1)
                          (diff_prev_ p1),
                 NONE, out_bpm, quality_score p1)) as E.
  { unfold out, update. fold p1. rewrite Hlow, orb_true_r. reflexivity. }
  unfold p'. rewrite E. cbn [fst snd set_prev have_prev_].
  repeat split; try reflexivity; now apply update_unarmed.
Qed.

End EstimatorFacts.

(** ** Classes of binary32 numbers *)

Module FloatClassFacts.

Import FloatClass.

Lemma compare_some (x y : f32) :
  is_nan x = false -> is_nan y = false -> exists c, SFcompare x y = Some c.
Proof.
  destruct x, y; simpl; intros; try discriminate; eexists; reflexivity.
Qed.

Lemma compare_not_nan (x y : f32) (c : comparison) :
  SFcompare x y = Some c -> is_nan x = false /\ is_nan y = false.
Proof. destruct x, y; simpl; intros; try discriminate; now split. Qed.

Lemma ltb_leb (x y : f32) : ltb x y = true -> leb x y = true.
Proof.
  unfold ltb, leb, SFltb, SFleb.
  destruct (SFcompare x y) as [[]|]; congruence.
Qed.

Lemma leb_not_nan (x y : f32) :
  leb x y = true -> is_nan x = false /\ is_nan y = false.
Proof.
  unfold leb, SFleb. destruct (SFcompare x y) as [c|] eqn:E; [|discriminate].
  intros _. eapply compare_not_nan, E.
Qed.

Lemma leb_refl (x : f32) : is_nan x = false -> leb x x = true.
Proof.
  unfold leb, SFleb.
  destruct x as [s|s| |s m e]; simpl; try discriminate; intros _;
    destruct s; try reflexivity;
    rewrite Z.compare_refl, Pos.compare_cont_refl; reflexivity.
Qed.

(** [!(y < x)] on numbers gives [x <= y]. *)
Lemma not_ltb_leb (x y : f32) :
  is_nan x = false -> is_nan y = false -> ltb y x = false -> leb x y = true.
Proof.
  intros Hx Hy. unfold ltb, leb, SFltb, SFleb.
  rewrite (DetectorFacts.SFcompare_swap x y).
  destruct (compare_some x y Hx Hy) as [c ->].
  destruct c; simpl; congruence.
Qed.

Lemma fmax_floor (a b : f32) :
  is_nan a = false -> leb a (fmax a b) = true.
Proof.
  intros Ha. unfold fmax. destruct (ltb a b) eqn:E.
  - now apply ltb_leb.
  - now apply leb_refl.
Qed.

Lemma fmax_not_nan (a b : f32) :
  is_nan a = false -> is_nan (fmax a b) = false.
Proof. intros Ha. now apply (leb_not_nan a), fmax_floor. Qed.

(** [clampf] of a number lands in [[lo, hi]]. *)
Lemma clampf_range (v lo hi : f32) :
  leb lo hi = true -> is_nan v = false ->
  leb lo (clampf v lo hi) = true /\ leb (clampf v lo hi) hi = true.
Proof.
  intros Hlh Hv. destruct (leb_not_nan _ _ Hlh) as [Hlo Hhi].
  unfold clampf, gtb.
  destruct (ltb v lo) eqn:E1; [split; [now apply leb_refl|exact Hlh]|].
  change (ltb hi v) with (SFltb hi v).
  destruct (SFltb hi v) eqn:E2; [split; [exact Hlh|now apply leb_refl]|].
  split; now apply not_ltb_leb.
Qed.

(** *** Rounding never makes a NaN *)

Lemma shr_1_nonneg (mrs : shr_record) : 0 <= shr_m mrs -> 0 <= shr_m (shr_1 mrs).
Proof.
  destruct mrs as [m r s]. cbn [shr_m]. intros H.
  destruct m as [|[q|q|]|q]; cbn; lia.
Qed.

Lemma shr_nonneg (mrs : shr_record) (e n : Z) :
  0 <= shr_m mrs -> 0 <= shr_m (fst (shr mrs e n)).
Proof.
  intros H. unfold shr. destruct n as [|q|q]; cbn [fst]; try assumption.
  rewrite F32Facts.iter_pos_nat.
  induction (Pos.to_nat q) as [|k IH]; [assumption|].
  cbn [Nat.iter]. now apply shr_1_nonneg.
Qed.

Lemma shr_fexp_nonneg (m e : Z) (l : location) :
  0 <= m -> 0 <= shr_m (fst (shr_fexp prec emax m e l)).
Proof.
  intros H. unfold shr_fexp. apply shr_nonneg.
  destruct l as [|[]]; cbn; assumption.
Qed.

Lemma round_nearest_even_nonneg (m : Z) (l : location) :
  0 <= m -> 0 <= round_nearest_even m l.
Proof.
  intros H. unfold round_nearest_even.
  destruct l as [|[]]; try destruct (Z.even m); lia.
Qed.

(** What [binary_round_aux] returns for a mantissa that is not negative: a
    zero, a number or an infinity of the sign asked for. *)
Lemma binary_round_aux_class (sx : bool) (mx ex : Z) (lx : location) :
  0 <= mx ->
  match binary_round_aux prec emax sx mx ex lx with
  | S754_zero s | S754_infinity s | S754_finite s _ _ => s = sx
  | S754_nan => False
  end.
Proof.
  intros H. unfold binary_round_aux.
  pose proof (shr_fexp_nonneg mx ex lx H) as H1.
  destruct (shr_fexp prec emax mx ex lx) as [mrs' e']. cbn [fst] in H1.
  pose proof (shr_fexp_nonneg
                (round_nearest_even (shr_m mrs') (loc_of_shr_record mrs'))
                e' loc_Exact
                (round_nearest_even_nonneg _ _ H1)) as H2.
  destruct (shr_fexp prec emax _ e' loc_Exact) as [mrs'' e''].
  cbn [fst] in H2.
  destruct (shr_m mrs'') as [|q|q]; [reflexivity| |lia].
  destruct (e'' <=? emax - prec); reflexivity.
Qed.

Lemma binary_round_class (sx : bool) (mx : positive) (ex : Z) :
  match binary_round prec emax sx mx ex with
  | S754_zero s | S754_infinity s | S754_finite s _ _ => s = sx
  | S754_nan => False
  end.
Proof.
  unfold binary_round. destruct (shl_align mx ex _) as [mz ez].
  apply binary_round_aux_class. lia.
Qed.

Lemma binary_normalize_not_nan (m e : Z) (szero : bool) :
  is_nan (binary_normalize prec emax m e szero) = false.
Proof.
  destruct m as [|q|q]; cbn [binary_normalize]; [reflexivity| |].
  - pose proof (binary_round_class false q e) as H.
    destruct (binary_round prec emax false q e); [reflexivity..|contradiction|reflexivity].
  - pose proof (binary_round_class true q e) as H.
    destruct (binary_round prec emax true q e); [reflexivity..|contradiction|reflexivity].
Qed.

Lemma of_int_not_nan (n : Z) : is_nan (of_int n) = false.
Proof. apply binary_normalize_not_nan. Qed.

Lemma div_core_nonneg (m1 m2 : positive) (e1 e2 : Z) :
  0 <= fst (fst (SFdiv_core_binary prec emax (Zpos m1) e1 (Zpos m2) e2)).
Proof.
  unfold SFdiv_core_binary.
  set (s := e1 - e2 - _).
  set (m' := match s with Z0 => Zpos m1 | Zpos _ => Z.shiftl (Zpos m1) s
                      | Zneg _ => 0 end).
  assert (0 <= m') as Hm.
  { unfold m'. destruct s; [lia| |lia]. apply Z.shiftl_nonneg. lia. }
  pose proof (Z_div_mod m' (Zpos m2) ltac:(lia)) as H.
  destruct (Z.div_eucl m' (Zpos m2)) as [q r]. cbn [fst].
  destruct H as [E Hr]. nia.
Qed.

(** Dividing a number by a non-zero number gives no NaN. *)
Lemma div_not_nan (x : f32) (sy : bool) (my : positive) (ey : Z) :
  is_nan x = false -> is_nan (div x (S754_finite sy my ey)) = false.
Proof.
  destruct x as [s|s| |s m e]; intros Hx; try discriminate; try reflexivity.
  unfold div, SFdiv.
  pose proof (div_core_nonneg m my e ey) as H.
  destruct (SFdiv_core_binary prec emax (Zpos m) e (Zpos my) ey)
    as [[mz ez] lz]. cbn [fst] in H.
  pose proof (binary_round_aux_class (xorb s sy) mz ez lz H) as Hc.
  destruct (binary_round_aux prec emax (xorb s sy) mz ez lz);
    [reflexivity..|contradiction|reflexivity].
Qed.

Lemma sub_from_number_not_nan (sx : bool) (mx : positive) (ex : Z) (y : f32) :
  is_nan y = false -> is_nan (sub (S754_finite sx mx ex) y) = false.
Proof.
  destruct y as [s|s| |s m e]; intros Hy; try discriminate; try reflexivity.
  apply binary_normalize_not_nan.
Qed.

Lemma mul_nonneg (mc : positive) (ec : Z) (q : f32) :
  nonneg q -> nonneg (mul (S754_finite false mc ec) q).
Proof.
  destruct q as [s|[]| |[] m e]; cbn [nonneg]; intros H; try contradiction;
    try exact I.
  unfold mul, SFmul. cbn [xorb].
  pose proof (binary_round_aux_class false (Zpos (mc * m)) (ec + e)
                loc_Exact ltac:(lia)) as Hc.
  destruct (binary_round_aux prec emax false (Zpos (mc * m)) (ec + e)
              loc_Exact) as [s|s| |s m' e']; try contradiction;
    subst s; exact I.
Qed.

Lemma add_nonneg (x y : f32) : nonneg x -> nonneg y -> nonneg (add x y).
Proof.
  destruct x as [sx|[]| |[] mx ex]; cbn [nonneg]; try contradiction;
    destruct y as [sy|[]| |[] my ey]; cbn [nonneg]; try contradiction;
    intros _ _; try exact I.
  - destruct sx, sy; exact I.
  - unfold add, SFadd. cbn [cond_Zopp].
    destruct (shl_align mx ex (Z.min ex ey)) as [ax ?].
    destruct (shl_align my ey (Z.min ex ey)) as [ay ?].
    cbn [fst Z.add binary_normalize].
    pose proof (binary_round_class false (ax + ay) (Z.min ex ey)) as Hc.
    destruct (binary_round prec emax false (ax + ay) (Z.min ex ey))
      as [s|s| |s m' e']; try contradiction; subst s; exact I.
Qed.

Lemma nonneg_not_nan (x : f32) : nonneg x -> is_nan x = false.
Proof. destruct x; simpl; [reflexivity..|contradiction|reflexivity]. Qed.

(** [clampf(v, 0.0f, 1.0f)] of a number is a zero or a positive number. *)
Lemma clampf_unit_nonneg (v : f32) :
  is_nan v = false -> nonneg (clampf v zero (of_int 1)).
Proof.
  intros Hv. unfold clampf, gtb, ltb.
  destruct (SFltb v zero) eqn:E1; [exact I|].
  destruct (SFltb (of_int 1) v) eqn:E2; [exact I|].
  destruct v as [s|[]| |[] m e]; try exact I; try discriminate.
Qed.

End FloatClassFacts.

(** ** The signal conditioning: further properties *)

Module SignalFacts.

Import PulseBpm PulseSpec FloatClass FloatClassFacts SignalSpec PulseFacts.

(** The peak threshold is at least [THR_MIN] and the amplitude floor lies
    in [[18, 80]], in every state, the estimates being NaN included. *)
Theorem adaptive_floors :
  forall (p : t),
    leb THR_MIN (thr p) = true /\
    leb (of_int 18) (p2p_min_adapt p) = true /\
    leb (p2p_min_adapt p) (of_int 80) = true.
Proof.
  intros p. split.
  - unfold thr. apply fmax_floor, of_int_not_nan.
  - unfold p2p_min_adapt. apply clampf_range; [reflexivity|].
    apply fmax_not_nan, of_int_not_nan.
Qed.

Lemma quality_score_unit (p : t) :
  is_nan (p2p_ema_ p) = false -> is_nan (noise_ema_ p) = false ->
  leb zero (quality_score p) = true /\
  leb (quality_score p) (of_int 1) = true.
Proof.
  intros Hp Hn. unfold quality_score.
  apply clampf_range; [reflexivity|].
  apply nonneg_not_nan.
  assert (lit 55 100 = S754_finite false 9227469 (-24)) as -> by reflexivity.
  assert (lit 30 100 = S754_finite false 10066330 (-25)) as -> by reflexivity.
  assert (lit 15 100 = S754_finite false 10066330 (-26)) as -> by reflexivity.
  repeat apply add_nonneg; apply mul_nonneg, clampf_unit_nonneg.
  - change (of_int 140) with (S754_finite false 9175040 (-16)).
    now apply div_not_nan.
  - change (of_int 1) with (S754_finite false 8388608 (-23)) at 1.
    apply sub_from_number_not_nan.
    change (of_int 25) with (S754_finite false 13107200 (-19)).
    now apply div_not_nan.
  - change (of_int 5) with (S754_finite false 10485760 (-21)).
    apply div_not_nan, of_int_not_nan.
Qed.

(** *** The float members stay finite *)

Lemma pow2_34 : F32Spec.nice (pow2 34) /\ F32Spec.val (pow2 34) = 2 ^ 290.
Proof. split; vm_compute; reflexivity. Qed.

Lemma stats_gain :
  alpha_noise = S754_finite false 16106127 (-28) /\
  alpha_p2p = S754_finite false 10737418 (-28).
Proof. split; vm_compute; reflexivity. Qed.

(** An averaging step with the gain of the noise or of the amplitude
    estimate, on numbers within [2^33]. *)
Lemma ema_stats (alpha v x : f32) :
  alpha = alpha_noise \/ alpha = alpha_p2p ->
  within (pow2 33) v -> within (pow2 33) x ->
  F32Spec.nice (ema alpha v x) /\
  (F32Spec.val v <= F32Spec.val x ->
   F32Spec.val v <= F32Spec.val (ema alpha v x) <= F32Spec.val x) /\
  (F32Spec.val x <= F32Spec.val v ->
   F32Spec.val x <= F32Spec.val (ema alpha v x) <= F32Spec.val v).
Proof.
  intros Ha [Nv Bv] [Nx Bx].
  destruct pow2_val as (_ & _ & V33). destruct pow2_34 as (N34 & V34).
  destruct stats_gain as (En & Ep).
  assert (Z.abs (F32Spec.val x - F32Spec.val v) <= F32Spec.val (pow2 34))
    as Hh.
  { rewrite V34. rewrite V33 in Bv, Bx.
    change (2 ^ 290) with (2 * 2 ^ 289). lia. }
  unfold ema, add, mul, sub.
  destruct Ha as [-> | ->].
  - rewrite En.
    apply (F32Facts.ema_between 16106127 (-28) eq_refl ltac:(lia)
             ltac:(vm_compute; discriminate) v x (pow2 34));
      assumption.
  - rewrite Ep.
    apply (F32Facts.ema_between 10737418 (-28) eq_refl ltac:(lia)
             ltac:(vm_compute; discriminate) v x (pow2 34));
      assumption.
Qed.

Lemma ema_stats_nonneg (alpha v x : f32) :
  alpha = alpha_noise \/ alpha = alpha_p2p ->
  nonneg_within (pow2 33) v -> nonneg_within (pow2 33) x ->
  nonneg_within (pow2 33) (ema alpha v x).
Proof.
  intros Ha [[Nv Bv] Pv] [[Nx Bx] Px].
  destruct (ema_stats alpha v x Ha ltac:(now split) ltac:(now split))
    as (N & H1 & H2).
  destruct (Z_le_gt_dec (F32Spec.val v) (F32Spec.val x)) as [H|H].
  - specialize (H1 H). repeat split; [exact N|lia|lia].
  - specialize (H2 ltac:(lia)). repeat split; [exact N|lia|lia].
Qed.

Lemma fabs_val (x : f32) :
  F32Spec.nice x ->
  F32Spec.nice (fabs x) /\ F32Spec.val (fabs x) = Z.abs (F32Spec.val x).
Proof.
  destruct x as [s|s| |s m e]; cbn [F32Spec.nice]; try contradiction;
    intros H; [split; [exact I|reflexivity]|].
  split; [exact H|].
  pose proof (F32Facts.nice_val_pos s m e H) as Hpos.
  cbn [fabs SFabs F32Spec.val cond_Zopp]. destruct s; cbn [cond_Zopp]; lia.
Qed.

Lemma sub_within (x y : f32) :
  within (pow2 32) x -> within (pow2 32) y -> within (pow2 33) (sub x y).
Proof.
  intros [Nx Bx] [Ny By].
  destruct pow2_val as (_ & V32 & V33). destruct pow2_nice as (_ & _ & N33).
  destruct (F32Facts.sub_bracket x y (SFopp (pow2 33)) (pow2 33) Nx Ny
              ltac:(now apply F32Facts.nice_opp) N33) as [N B].
  - rewrite F32Facts.val_opp, V33. rewrite V32 in Bx, By.
    change (2 ^ 289) with (2 * 2 ^ 288). lia.
  - rewrite F32Facts.val_opp in B. split; [exact N|unfold sub; lia].
Qed.

Lemma sub_ordered (x y : f32) :
  within (pow2 32) x -> within (pow2 32) y ->
  F32Spec.val y <= F32Spec.val x ->
  nonneg_within (pow2 33) (sub x y).
Proof.
  intros [Nx Bx] [Ny By] Hle.
  destruct pow2_val as (_ & V32 & V33). destruct pow2_nice as (_ & _ & N33).
  destruct (F32Facts.sub_bracket x y zero (pow2 33) Nx Ny I N33) as [N B].
  - rewrite V33. rewrite V32 in Bx, By.
    change (F32Spec.val zero) with 0.
    change (2 ^ 289) with (2 * 2 ^ 288). lia.
  - change (F32Spec.val zero) with 0 in B.
    repeat split; [exact N|unfold sub; lia|unfold sub; lia].
Qed.

Lemma zero_nonneg_within (b : f32) :
  0 <= F32Spec.val b -> nonneg_within b zero.
Proof. intros H. split; [now apply zero_within|simpl; lia]. Qed.

Lemma reset_signal_inv (initial_raw : Z) :
  int_range initial_raw -> signal_inv (reset initial_raw).
Proof.
  intros H. destruct pow2_val as (_ & V32 & V33).
  constructor; cbn [reset prev_filt_ diff_prev_ p2p_ema_ noise_ema_ last_p2p_
                      env_min_ env_max_];
    [now apply reset_filter_inv| | | | | |reflexivity];
    try apply zero_nonneg_within; try apply zero_within;
    rewrite ?V32, ?V33; lia.
Qed.

(** [condition] keeps the invariant and leaves the envelope around the
    filtered value. *)
Lemma condition_signal_inv (p : t) (raw : Z) :
  signal_inv p -> int_range raw -> signal_inv (condition p raw).
Proof.
  intros [Hf Hpf Hdp Hp2p Hnoise Hlast _] Hraw.
  pose proof (low_pass_inv p raw Hf Hraw) as [Hb Hl Hmin Hmax].
  destruct (update_envelope_spec (low_pass p raw) (lp_ (low_pass p raw))
              Hl Hmin Hmax) as (M & X & L1 & L2 & _).
  unfold condition.
  set (p0 := low_pass p raw) in *.
  set (p1 := update_envelope p0 (lp_ p0)) in *.
  assert (baseline_ p1 = baseline_ p0 /\ lp_ p1 = lp_ p0 /\
          have_prev_ p1 = have_prev_ p /\ prev_filt_ p1 = prev_filt_ p /\
          diff_prev_ p1 = diff_prev_ p /\ p2p_ema_ p1 = p2p_ema_ p /\
          noise_ema_ p1 = noise_ema_ p) as (E1 & E2 & E3 & E4 & E5 & E6 & E7).
  { unfold p1, update_envelope.
    destruct (negb (env_inited_ p0)); repeat split. }
  assert (F32Spec.val (env_min_ p1) <= F32Spec.val (lp_ p0)) as Vlo
    by (apply (F32Facts.leb_val _ _ (proj1 M) (proj1 Hl)), L1).
  assert (F32Spec.val (lp_ p0) <= F32Spec.val (env_max_ p1)) as Vhi
    by (apply (F32Facts.leb_val _ _ (proj1 Hl) (proj1 X)), L2).
  assert (nonneg_within (pow2 33) (sub (env_max_ p1) (env_min_ p1))) as Hp
    by (apply sub_ordered; [assumption|assumption|lia]).
  cbv zeta. rewrite E3, E4, E6, E7.
  constructor; cbn [set_stats baseline_ lp_ env_inited_ env_min_ env_max_
                        prev_filt_ diff_prev_ p2p_ema_ noise_ema_ last_p2p_].
    + constructor; cbn [set_stats baseline_ lp_ env_min_ env_max_];
        [rewrite E1|rewrite E2| |]; assumption.
    + now rewrite E4.
    + now rewrite E5.
    + destruct (leb (p2p_ema_ p) zero); [exact Hp|].
      now apply ema_stats_nonneg; auto.
    + destruct (have_prev_ p); [|exact Hnoise].
      apply ema_stats_nonneg; auto.
      pose proof (sub_within (lp_ p0) (prev_filt_ p) Hl Hpf) as [N B].
      destruct (fabs_val _ N) as [N' V'].
      repeat split; [exact N'|rewrite V'; lia|rewrite V'; lia].
    + exact Hp.
    + lia.
Qed.

Lemma register_beat_floats (p : t) (beat_ms out_bpm : Z) :
  let p' := fst (fst (register_beat p beat_ms out_bpm)) in
  prev_filt_ p' = prev_filt_ p /\ diff_prev_ p' = diff_prev_ p /\
  p2p_ema_ p' = p2p_ema_ p /\ noise_ema_ p' = noise_ema_ p /\
  last_p2p_ p' = last_p2p_ p.
Proof. unfold register_beat. split_ifs; repeat split. Qed.

Lemma signal_inv_frame (p p' : t) :
  baseline_ p' = baseline_ p -> lp_ p' = lp_ p ->
  env_min_ p' = env_min_ p -> env_max_ p' = env_max_ p ->
  prev_filt_ p' = prev_filt_ p -> diff_prev_ p' = diff_prev_ p ->
  p2p_ema_ p' = p2p_ema_ p -> noise_ema_ p' = noise_ema_ p ->
  last_p2p_ p' = last_p2p_ p ->
  signal_inv p -> signal_inv p'.
Proof.
  intros E1 E2 E3 E4 E5 E6 E7 E8 E9 [[A B C D] F G H J K L].
  constructor; [constructor|..]; congruence.
Qed.

Lemma set_prev_signal_inv (p : t) (have : bool) (filt : f32) (t_ms : Z)
  (diff : f32) :
  signal_inv p -> within (pow2 32) filt -> within (pow2 33) diff ->
  signal_inv (set_prev p have filt t_ms diff).
Proof.
  intros [[A B C D] F G H J K L] Hf Hd.
  constructor; [constructor|..]; assumption.
Qed.

Lemma update_signal_inv (p : t) (raw t_ms out_bpm : Z) (out_quality : f32) :
  signal_inv p -> int_range raw ->
  signal_inv (fst (fst (fst (update p raw t_ms out_bpm out_quality)))).
Proof.
  intros Hinv Hraw.
  pose proof (condition_signal_inv p raw Hinv Hraw) as Hc.
  destruct pow2_val as (_ & _ & V33).
  unfold update.
  set (c := condition p raw) in *.
  pose proof (inv_lp _ (inv_filter _ Hc)) as Hlp.
  destruct (negb (env_inited_ c) || _).
  { cbn [fst]. apply set_prev_signal_inv;
      [exact Hc|apply (inv_prev_filt _ Hc)|apply (inv_diff_prev _ Hc)]. }
  destruct (negb (have_prev_ c)).
  { cbn [fst]. apply set_prev_signal_inv;
      [exact Hc|exact Hlp|apply zero_within; rewrite V33; lia]. }
  assert (signal_inv (set_prev c (have_prev_ c) (lp_ c) t_ms
                        (sub (lp_ c) (prev_filt_ c)))) as Hp2.
  { apply set_prev_signal_inv; [exact Hc|exact Hlp|].
    apply sub_within; [exact Hlp|apply (inv_prev_filt _ Hc)]. }
  destruct (negb (beat c (lp_ c))); [exact Hp2|].
  set (p2 := set_prev c (have_prev_ c) (lp_ c) t_ms
               (sub (lp_ c) (prev_filt_ c))) in *.
  pose proof (register_beat_filters p2 (prev_t_ms_ p2) out_bpm) as F1.
  pose proof (register_beat_floats p2 (prev_t_ms_ p2) out_bpm) as F2.
  cbv zeta in F1, F2.
  destruct (register_beat p2 (prev_t_ms_ p2) out_bpm) as [[p3 r3] o3].
  cbn [fst] in *.
  destruct F1 as (A1 & A2 & _ & A3 & A4).
  destruct F2 as (B1 & B2 & B3 & B4 & B5).
  now apply (signal_inv_frame p2 p3).
Qed.

Lemma run_signal_inv (ss : list Sample) : forall p,
  signal_inv p -> Forall (fun s => int_range (s_raw s)) ss ->
  signal_inv (fst (run p ss)).
Proof.
  induction ss as [|s ss IH]; intros p Hinv Hss; [exact Hinv|].
  inversion Hss as [|? ? Hs Hss']; subst.
  rewrite pulse_run_cons. apply IH; [|exact Hss'].
  now apply update_signal_inv.
Qed.

Lemma nice_finite_class (x : f32) :
  F32Spec.nice x -> finite x = true /\ is_nan x = false.
Proof. destruct x; simpl; intros H; try contradiction; now split. Qed.

Lemma wave_int_range :
  Forall (fun s => int_range (s_raw s)) (wave 700 400 20).
Proof.
  cbv [wave seq map].
  repeat (constructor; [vm_compute; split; [discriminate|reflexivity]|]).
  constructor.
Qed.

Lemma update_quality (p : t) (raw t_ms out_bpm : Z) (out_quality : f32) :
  snd (update p raw t_ms out_bpm out_quality)
  = quality_score (condition p raw).
Proof.
  pose proof (update_spec p raw t_ms out_bpm out_quality) as H.
  destruct (registers_beat p raw); [now rewrite H|].
  destruct H as (p' & -> & _). reflexivity.
Qed.

Lemma update_quality_unit (p : t) (raw t_ms out_bpm : Z) (out_quality : f32) :
  signal_inv p -> int_range raw ->
  let q := snd (update p raw t_ms out_bpm out_quality) in
  leb zero q = true /\ leb q (of_int 1) = true.
Proof.
  intros Hinv Hraw q.
  pose proof (condition_signal_inv p raw Hinv Hraw) as Hc.
  unfold q. rewrite update_quality.
  apply quality_score_unit.
  - apply nice_finite_class, (inv_p2p_ema _ Hc).
  - apply nice_finite_class, (inv_noise_ema _ Hc).
Qed.

(** The quality [update] returns is a number of [[0, 1]]: the estimator is
    reset and fed [int] samples; every call sets [out_quality] to a value
    [q] with [0.0f <= q] and [q <= 1.0f] (so [q] is no NaN). *)
Theorem quality_in_unit_interval :
  forall (initial_raw : Z) (ss : list Sample) (raw t_ms out_bpm : Z)
         (out_quality : f32),
    int_range initial_raw ->
    Forall (fun s => int_range (s_raw s)) ss ->
    int_range raw ->
    let p := fst (run (reset initial_raw) ss) in
    let q := snd (update p raw t_ms out_bpm out_quality) in
    leb zero q = true /\ leb q (of_int 1) = true.
Proof.
  intros initial_raw ss raw t_ms out_bpm out_quality Hi Hss Hraw p q.
  pose proof (run_signal_inv ss _ (reset_signal_inv _ Hi) Hss) as Hinv.
  exact (update_quality_unit _ raw t_ms out_bpm out_quality Hinv Hraw).
Qed.

Lemma quality_in_unit_interval_witness :
  let p := fst (run (reset 2000) (wave 700 400 20)) in
  let q := snd (update p (tri 700 400 210) 210 0 zero) in
  leb zero q = true /\ leb q (of_int 1) = true.
Proof.
  apply (quality_in_unit_interval 2000 (wave 700 400 20)
           (tri 700 400 210) 210 0 zero).
  - unfold int_range. lia.
  - exact wave_int_range.
  - vm_compute. split; [discriminate|reflexivity].
Defined.

(** No float member of the estimator ever becomes a NaN or an infinity,
    and the amplitude and noise estimates are never negative: the estimator
    is reset and fed [int] samples; in the state reached every float member
    is a zero or a finite number, [p2p_ema_], [noise_ema_] and [last_p2p_]
    are at least [0.0f], and [env_min_ <= env_max_]. *)
Theorem float_members_stay_finite :
  forall (initial_raw : Z) (ss : list Sample),
    int_range initial_raw ->
    Forall (fun s => int_range (s_raw s)) ss ->
    let p := fst (run (reset initial_raw) ss) in
    (finite (baseline_ p) && finite (lp_ p) && finite (env_min_ p)
     && finite (env_max_ p) && finite (prev_filt_ p) && finite (diff_prev_ p)
     && finite (p2p_ema_ p) && finite (noise_ema_ p) && finite (last_p2p_ p)
     = true) /\
    leb zero (p2p_ema_ p) = true /\
    leb zero (noise_ema_ p) = true /\
    leb zero (last_p2p_ p) = true /\
    leb (env_min_ p) (env_max_ p) = true.
Proof.
  intros initial_raw ss Hi Hss p.
  pose proof (run_signal_inv ss _ (reset_signal_inv _ Hi) Hss) as Hinv.
  fold p in Hinv.
  destruct Hinv as [[[A1 _] [A2 _] [A3 _] [A4 _]] [A5 _] [A6 _]
                    [[A7 _] P7] [[A8 _] P8] [[A9 _] P9] Ho].
  split.
  - repeat (apply andb_true_intro; split);
      now apply nice_finite_class.
  - repeat split; (apply F32Facts.leb_val; [assumption|assumption|assumption])
      || (apply F32Facts.leb_val; [exact I|assumption|assumption]).
Qed.

Lemma float_members_stay_finite_witness :
  let p := fst (run (reset 2000) (wave 700 400 20)) in
  leb zero (p2p_ema_ p) = true /\
  leb zero (noise_ema_ p) = true /\
  leb zero (last_p2p_ p) = true /\
  leb (env_min_ p) (env_max_ p) = true.
Proof.
  apply (float_members_stay_finite 2000 (wave 700 400 20)).
  - unfold int_range. lia.
  - exact wave_int_range.
Defined.

(** *** The baseline stays within the samples *)

(** [(float)n] is exact for [0 <= n < 2^24]. *)
Lemma of_int_exact (n : Z) :
  0 <= n < 2 ^ 24 ->
  F32Spec.nice (of_int n) /\ F32Spec.val (of_int n) = n * 2 ^ 256.
Proof.
  intros Hn. destruct (Z.eq_dec n 0) as [->|Hne];
    [split; [exact I|reflexivity]|].
  assert (0 < n) as Hpos by lia.
  pose proof (F32Facts.dig_bounds n Hpos) as Hd.
  pose proof (F32Facts.dig_pos n Hpos) as Hd1.
  assert (F32Spec.dig n <= 24) as Hd24.
  { destruct (Z_le_gt_dec (F32Spec.dig n) 24) as [|Hgt]; [assumption|].
    assert (2 ^ 24 <= 2 ^ (F32Spec.dig n - 1))
      by (apply Z.pow_le_mono_r; lia). lia. }
  set (k := 24 - F32Spec.dig n).
  assert (0 < n * 2 ^ k) as Hm
    by (apply Z.mul_pos_pos; [lia|apply Z.pow_pos_nonneg; lia]).
  set (y := S754_finite false (Z.to_pos (n * 2 ^ k)) (- k)).
  assert (F32Spec.nice y) as Ny.
  { apply F32Facts.nice_finite. rewrite Z2Pos.id by exact Hm.
    split; [|lia]. split; [exact Hm|].
    rewrite F32Facts.dig_shl by lia. rewrite F32Facts.fx_eq. lia. }
  assert (F32Spec.val y = n * 2 ^ 256) as Vy.
  { unfold y. cbn [F32Spec.val cond_Zopp]. rewrite Z2Pos.id by exact Hm.
    unfold F32Spec.F2Z, F32Spec.bias.
    replace 256 with (k + (- k + 256)) at 2 by lia.
    rewrite (Z.pow_add_r 2 k (- k + 256)) by lia. ring. }
  destruct (F32Facts.normalize_bracket n 0 y y ltac:(lia) Ny Ny) as [N B].
  - rewrite Vy. unfold F32Spec.F2Z, F32Spec.bias. cbn [Z.add]. lia.
  - unfold of_int. split; [exact N|lia].
Qed.

Lemma of_int_between (lo hi n : Z) :
  0 <= lo -> hi < 2 ^ 24 -> lo <= n <= hi ->
  F32Spec.val (of_int lo) <= F32Spec.val (of_int n) <= F32Spec.val (of_int hi).
Proof.
  intros Hlo Hhi Hn.
  destruct (of_int_exact lo ltac:(lia)) as [Nl Vl].
  destruct (of_int_exact hi ltac:(lia)) as [Nh Vh].
  destruct (of_int_exact n ltac:(lia)) as [_ Vn].
  rewrite Vl, Vh, Vn.
  assert (0 < 2 ^ 256) by (apply Z.pow_pos_nonneg; lia). nia.
Qed.

Lemma update_baseline (p : t) (raw t_ms out_bpm : Z) (out_quality : f32) :
  baseline_ (fst (fst (fst (update p raw t_ms out_bpm out_quality)))) =
  ema alpha_base (baseline_ p) (of_int raw).
Proof.
  destruct (update_filters p raw t_ms out_bpm out_quality) as (A & _).
  rewrite A. unfold update_envelope.
  destruct (negb (env_inited_ (low_pass p raw))); reflexivity.
Qed.

Lemma run_baseline (lo hi : Z) (ss : list Sample) : forall p,
  0 <= lo -> hi < 2 ^ 24 ->
  Forall (fun s => lo <= s_raw s <= hi) ss ->
  F32Spec.nice (baseline_ p) ->
  F32Spec.val (of_int lo) <= F32Spec.val (baseline_ p)
    <= F32Spec.val (of_int hi) ->
  F32Spec.nice (baseline_ (fst (run p ss))) /\
  F32Spec.val (of_int lo) <= F32Spec.val (baseline_ (fst (run p ss)))
    <= F32Spec.val (of_int hi).
Proof.
  induction ss as [|s ss IH]; intros p Hlo Hhi Hss Np Bp; [now split|].
  inversion Hss as [|? ? Hs Hss']; subst.
  rewrite pulse_run_cons. apply IH; try assumption;
    rewrite update_baseline.
  all: destruct (of_int_exact lo ltac:(lia)) as [Nl Vl];
    destruct (of_int_exact hi ltac:(lia)) as [Nh Vh];
    destruct (of_int_exact (s_raw s) ltac:(lia)) as [Nr Vr];
    pose proof (of_int_between lo hi (s_raw s) Hlo Hhi Hs) as Hb;
    destruct pow2_val as (_ & V32 & _);
    assert (0 < 2 ^ 256) as H256 by (apply Z.pow_pos_nonneg; lia);
    assert (2 ^ 24 * 2 ^ 256 <= 2 ^ 288) as Hbig
      by (rewrite <- Z.pow_add_r by lia; apply Z.pow_le_mono_r; lia);
    assert (within (pow2 32) (baseline_ p)) as Wp
      by (split; [exact Np|rewrite V32; rewrite Vl, Vh in Bp; nia]);
    assert (within (pow2 32) (of_int (s_raw s))) as Wr
      by (split; [exact Nr|rewrite V32, Vr; nia]);
    destruct (ema_step alpha_base (baseline_ p) (of_int (s_raw s))
                ltac:(auto) Wp Wr) as (N & H1 & H2).
  - exact N.
  - destruct (Z_le_gt_dec (F32Spec.val (baseline_ p))
                (F32Spec.val (of_int (s_raw s)))) as [H|H].
    + specialize (H1 H). lia.
    + specialize (H2 ltac:(lia)). lia.
Qed.

(** The baseline never leaves the range of the samples: the estimator is
    reset with a raw value of [[lo, hi]] and fed samples of [[lo, hi]],
    [0 <= lo] and [hi < 2^24] (a 12-bit converter gives [[0, 4095]]); then
    [baseline_] lies between [(float)lo] and [(float)hi]. *)
Theorem baseline_within_samples :
  forall (lo hi initial_raw : Z) (ss : list Sample),
    0 <= lo -> hi < 2 ^ 24 ->
    lo <= initial_raw <= hi ->
    Forall (fun s => lo <= s_raw s <= hi) ss ->
    let p := fst (run (reset initial_raw) ss) in
    leb (of_int lo) (baseline_ p) = true /\
    leb (baseline_ p) (of_int hi) = true.
Proof.
  intros lo hi initial_raw ss Hlo Hhi Hi Hss p.
  destruct (of_int_exact lo ltac:(lia)) as [Nl _].
  destruct (of_int_exact hi ltac:(lia)) as [Nh _].
  destruct (of_int_exact initial_raw ltac:(lia)) as [Ni _].
  destruct (run_baseline lo hi ss (reset initial_raw) Hlo Hhi Hss Ni
              (of_int_between lo hi initial_raw Hlo Hhi Hi)) as [N B].
  fold p in N, B.
  split; apply F32Facts.leb_val; try assumption; lia.
Qed.

Lemma wave_adc_range :
  Forall (fun s => 0 <= s_raw s <= 4095) (wave 700 400 20).
Proof.
  cbv [wave seq map].
  repeat (constructor; [vm_compute; split; discriminate|]).
  constructor.
Qed.

Lemma baseline_within_samples_witness :
  let p := fst (run (reset 2000) (wave 700 400 20)) in
  leb (of_int 0) (baseline_ p) = true /\
  leb (baseline_ p) (of_int 4095) = true.
Proof.
  apply (baseline_within_samples 0 4095 2000 (wave 700 400 20));
    [lia|lia|lia|exact wave_adc_range].
Defined.

End SignalFacts.

(** ** The detector: further properties *)

Module AlarmFacts.

Import HrAnomalyDetector DetectorSpec AlarmSpec DetectorFacts.

Lemma last_cons {A : Type} (l : list A) : forall x d,
  last (x :: l) d = last l x.
Proof.
  induction l as [|y l IH]; intros x d; [reflexivity|].
  change (last (x :: y :: l) d) with (last (y :: l) d).
  now rewrite !IH.
Qed.

(** [active_alarm()] is the kind of the last event returned: after any
    sequence of calls of [update] the active alarm is the type of the most
    recent event, and the alarm the detector started with when no call
    returned one. *)
Theorem active_alarm_is_last_event :
  forall (d : t) (rs : list BpmReading),
    active_alarm_ (fst (run d rs)) =
    last (event_kinds (snd (run d rs))) (active_alarm_ d).
Proof.
  intros d rs. revert d.
  induction rs as [|r rs IH]; intros d; [reflexivity|].
  rewrite run_cons. cbn [fst snd]. rewrite IH.
  pose proof (update_edge d r) as H. cbv zeta in H.
  unfold event_kinds. cbn [flat_map]. fold (event_kinds (snd (run (fst (update d r)) rs))).
  destruct (snd (update d r)) as [ev|].
  - destruct H as (_ & -> & ->). cbn [ev_type app].
    now rewrite last_cons.
  - destruct H as (_ & ->). reflexivity.
Qed.

(** *** The history ring *)

Lemma store_nth_other {A : Type} (l : list A) : forall i j v dflt,
  i <> j -> nth j (store l i v) dflt = nth j l dflt.
Proof.
  induction l as [|x l IH]; intros [|i] [|j] v dflt Hij; simpl;
    try reflexivity; try congruence.
  apply IH. congruence.
Qed.

Lemma brady_tachy_count (d : t) (r : BpmReading) :
  hist_count_ (fst (brady_tachy d r)) = hist_count_ d.
Proof. unfold brady_tachy, track_abnormal. split_ifs; reflexivity. Qed.

Lemma classify_count (d : t) (r : BpmReading) :
  hist_count_ (fst (classify d r)) = hist_count_ d.
Proof.
  unfold classify.
  destruct (no_signal_sustained d r); [reflexivity|].
  destruct (usable (cfg_ d) r); [|reflexivity].
  pose proof (brady_tachy_count d r) as H.
  destruct (brady_tachy d r) as [d1 c]. destruct c; exact H.
Qed.

Lemma hysteresis_abnormal (d : t) (r : BpmReading) (c : AlarmType) :
  hist_count_ (fst (hysteresis d r c)) = hist_count_ d /\
  abnormal_kind_ (fst (hysteresis d r c)) = abnormal_kind_ d.
Proof. unfold hysteresis. split_ifs; split; reflexivity. Qed.

Lemma transition_abnormal (d : t) (r : BpmReading) (c : AlarmType) :
  hist_count_ (fst (transition d r c)) = hist_count_ d /\
  abnormal_kind_ (fst (transition d r c)) = abnormal_kind_ d.
Proof.
  unfold transition.
  destruct (negb (AlarmType_eqb c (active_alarm_ d))); split; reflexivity.
Qed.

Lemma update_hist_count (d : t) (r : BpmReading) :
  hist_count_ (fst (update d r)) = hist_count_ (pushed d r).
Proof.
  rewrite update_unfold, held_candidate_unfold.
  rewrite (proj1 (transition_abnormal _ _ _)).
  rewrite (proj1 (hysteresis_abnormal _ _ _)).
  unfold raw_candidate. apply classify_count.
Qed.

Lemma pushed_ring (d : t) (r : BpmReading) :
  ring_wf d ->
  ring_wf (pushed d r) /\
  hist_count_ (pushed d r) = Z.min (hist_count_ d + 1) 8 /\
  hist_wr_ (pushed d r) = (hist_wr_ d + 1) mod 8.
Proof.
  intros (Hlen & Hwr & Hc). unfold ring_wf, pushed.
  cbn [push_hist track_no_signal hist_ hist_wr_ hist_count_]. unfold HIST_N.
  rewrite store_length, Z.rem_mod_nonneg by lia.
  pose proof (Z.mod_pos_bound (hist_wr_ d + 1) 8 ltac:(lia)).
  destruct (Z.ltb_spec (hist_count_ d) 8); repeat split; lia.
Qed.

(** [push_hist] moves every entry one step back. *)
Lemma pushed_entry_succ (d : t) (r : BpmReading) (i : Z) :
  ring_wf d -> 0 <= i <= 6 -> entry (pushed d r) (i + 1) = entry d i.
Proof.
  intros (Hlen & Hwr & _) Hi. unfold entry, hist_at, pushed.
  cbn [push_hist track_no_signal hist_ hist_wr_]. unfold HIST_N.
  rewrite (Z.rem_mod_nonneg (hist_wr_ d + 1) 8) by lia.
  pose proof (Z.mod_pos_bound (hist_wr_ d + 1) 8 ltac:(lia)) as Hb.
  rewrite !Z.rem_mod_nonneg by lia.
  assert (((hist_wr_ d + 1) mod 8 + 8 - 1 - (i + 1)) mod 8
          = (hist_wr_ d + 8 - 1 - i) mod 8) as ->.
  { destruct (Z.eq_dec (hist_wr_ d) 7) as [->|].
    - change ((7 + 1) mod 8) with 0.
      replace (7 + 8 - 1 - i) with (0 + 8 - 1 - (i + 1) + 1 * 8) by lia.
      now rewrite Z.mod_add by lia.
    - rewrite (Z.mod_small (hist_wr_ d + 1) 8) by lia. f_equal. lia. }
  apply store_nth_other.
  pose proof (Z.mod_pos_bound (hist_wr_ d + 8 - 1 - i) 8 ltac:(lia)) as Hm.
  intros E. apply Z2Nat.inj in E; [|lia|lia].
  assert ((hist_wr_ d + 8 - 1 - i) mod 8 = hist_wr_ d) as E' by lia.
  clear E Hm Hb. Z.div_mod_to_equations. lia.
Qed.

Lemma update_ring_wf (d : t) (r : BpmReading) :
  ring_wf d ->
  ring_wf (fst (update d r)) /\
  hist_count_ (fst (update d r)) = Z.min (hist_count_ d + 1) 8 /\
  hist_wr_ (fst (update d r)) = (hist_wr_ d + 1) mod 8 /\
  forall i, entry (fst (update d r)) i = entry (pushed d r) i.
Proof.
  intros Hwf. destruct (pushed_ring d r Hwf) as ((A & B & C) & Ec & Ew).
  destruct (update_ring d r) as (_ & Eh & Ewr & _).
  pose proof (update_hist_count d r) as Ecnt.
  unfold ring_wf. rewrite Eh, Ewr, Ecnt.
  repeat split; try assumption; try lia.
  intros i. unfold entry, hist_at. now rewrite Eh, Ewr.
Qed.

Lemma run_snoc (d : t) (rs : list BpmReading) (r : BpmReading) :
  fst (run d (rs ++ [r])) = fst (update (fst (run d rs)) r).
Proof.
  rewrite run_app. cbn [fst]. rewrite run_cons. reflexivity.
Qed.

Lemma run_ring (rs : list BpmReading) : forall (d : t) (r0 : BpmReading),
  ring_wf d ->
  let d' := fst (run d rs) in
  let n := Z.of_nat (length rs) in
  ring_wf d' /\
  hist_count_ d' = Z.min (hist_count_ d + n) 8 /\
  hist_wr_ d' = (hist_wr_ d + n) mod 8 /\
  forall i, 0 <= i < Z.min n 8 ->
    entry d' i = hist_of (nth (Z.to_nat i) (rev rs) r0).
Proof.
  induction rs as [|r rs IH] using rev_ind; intros d r0 Hwf d' n.
  - unfold d', n. cbn [run fst length Z.of_nat].
    destruct Hwf as (A & B & C).
    repeat split; try assumption; try lia.
    rewrite Z.add_0_r. apply Z.mod_small in B. lia.
  - destruct (IH d r0 Hwf) as (Hwf' & Hc & Hw & He).
    unfold d'. rewrite run_snoc.
    destruct (update_ring_wf (fst (run d rs)) r Hwf')
      as (Hwf'' & Hc' & Hw' & He').
    assert (n = Z.of_nat (length rs) + 1) as En
      by (unfold n; rewrite length_app; cbn [length]; lia).
    split; [exact Hwf''|]. split; [|split].
    + rewrite Hc', Hc, En. destruct Hwf as (_ & _ & ?). lia.
    + rewrite Hw', Hw, En.
      rewrite Z.add_mod_idemp_l by lia. f_equal. lia.
    + intros i Hi. rewrite He', rev_app_distr. cbn [rev app].
      destruct (Z.eq_dec i 0) as [->|Hne].
      * destruct Hwf' as (A & B & _). now apply pushed_newest.
      * replace i with (i - 1 + 1) by lia.
        rewrite (pushed_entry_succ _ _ (i - 1) Hwf') by lia.
        rewrite He by lia.
        replace (Z.to_nat (i - 1 + 1)) with (S (Z.to_nat (i - 1))) by lia.
        reflexivity.
Qed.

(** The history ring holds the latest readings: after [n] calls of
    [update] on a new detector, of any configuration, [hist_count_] is
    [min(n, 8)], [hist_wr_] is [n mod 8], and the entry [i] steps behind
    the newest one, [i < min(n, 8)], is the bpm and the time of the reading
    of the call [i] before the last. *)
Theorem history_holds_latest_readings :
  forall (cfg : Config) (rs : list BpmReading) (r0 : BpmReading),
    let d := fst (run (make cfg) rs) in
    let n := Z.of_nat (length rs) in
    hist_count_ d = Z.min n 8 /\
    hist_wr_ d = n mod 8 /\
    forall i, 0 <= i < Z.min n 8 ->
      entry d i = mkHist (bpm (nth (Z.to_nat i) (rev rs) r0))
                         (t_ms (nth (Z.to_nat i) (rev rs) r0)).
Proof.
  intros cfg rs r0 d n.
  assert (ring_wf (make cfg)) as Hwf
    by (unfold ring_wf; cbn; repeat split; lia).
  destruct (run_ring rs (make cfg) r0 Hwf) as (_ & Hc & Hw & He).
  fold d n in Hc, Hw, He. cbn [make hist_count_ hist_wr_] in Hc, Hw.
  repeat split; [exact Hc|exact Hw|exact He].
Qed.

(** *** What an event tells about the reading *)

Lemma raw_candidate_kind (d : t) (r : BpmReading) :
  match snd (raw_candidate d r) with
  | NO_SIGNAL => bad_reading (cfg_ d) r = true
  | BRADYCARDIA =>
      usable (cfg_ d) r = true /\ 0 < bpm r < brady_bpm (cfg_ d)
  | TACHYCARDIA => usable (cfg_ d) r = true /\ tachy_bpm (cfg_ d) < bpm r
  | RAPID_CHANGE =>
      usable (cfg_ d) r = true /\ detect_rapid_change (pushed d r) = true
  | NONE => True
  end.
Proof.
  unfold raw_candidate. fold (pushed d r). unfold classify.
  rewrite (pushed_cfg d r).
  destruct (no_signal_sustained (pushed d r) r) eqn:En.
  { cbn [snd]. unfold no_signal_sustained, pushed in En.
    cbn [push_hist track_no_signal no_signal_since_ms_] in En.
    destruct (bad_reading (cfg_ d) r); [reflexivity|discriminate]. }
  destruct (usable (cfg_ d) r) eqn:Eu; [|exact I].
  pose proof (brady_tachy_scan (pushed d r) r) as Hs.
  unfold brady_tachy in *. rewrite (pushed_cfg d r) in *.
  destruct ((bpm r >? 0) && (bpm r <? brady_bpm (cfg_ d))) eqn:Eb.
  - apply andb_prop in Eb. destruct Eb as [E1 E2].
    apply Z.gtb_lt in E1. apply Z.ltb_lt in E2. cbn [fst snd] in *.
    destruct (sustained _ r); cbn [snd]; [split; [reflexivity|lia]|].
    rewrite Hs. destruct (detect_rapid_change (pushed d r)); cbn [snd];
      [now split|exact I].
  - destruct (bpm r >? tachy_bpm (cfg_ d)) eqn:Et; cbn [fst snd] in *.
    + apply Z.gtb_lt in Et.
      destruct (sustained _ r); cbn [snd]; [split; [reflexivity|lia]|].
      rewrite Hs. destruct (detect_rapid_change (pushed d r)); cbn [snd];
        [now split|exact I].
    + rewrite Hs. destruct (detect_rapid_change (pushed d r)); cbn [snd];
        [now split|exact I].
Qed.

Lemma update_event_kind (d : t) (r : BpmReading) (ev : AlarmEvent) :
  snd (update d r) = Some ev ->
  ev = mkAlarmEvent (snd (raw_candidate d r)) (bpm r) (quality r) (t_ms r) /\
  ev_type ev <> active_alarm_ d.
Proof.
  intros Hev.
  pose proof (update_edge d r) as H. cbv zeta in H. rewrite Hev in H.
  destruct H as (Hne & -> & _). cbn [ev_type].
  rewrite held_candidate_unfold in *.
  pose proof (hysteresis_candidate (fst (raw_candidate d r)) r
                (snd (raw_candidate d r))) as Hc.
  rewrite raw_candidate_active in Hc.
  destruct Hc as [Hc|Hc]; [|congruence].
  rewrite Hc in *. now split.
Qed.

(** What an event tells about the reading it comes with.  An event that
    [update] returns differs from the alarm that was active; a [NO_SIGNAL]
    event comes with a reading of low quality or of a bpm that is not
    positive; a [BRADYCARDIA], [TACHYCARDIA] or [RAPID_CHANGE] event comes
    only with a usable reading (quality at least the minimum, and stable),
    of a bpm below [brady_bpm], above [tachy_bpm], or for which the
    history scan finds a jump; and the event [NONE] comes only while an
    alarm is active and the reading is no candidate for any. *)
Theorem event_causes :
  forall (d : t) (r : BpmReading) (ev : AlarmEvent),
    snd (update d r) = Some ev ->
    ev_type ev <> active_alarm_ d /\
    match ev_type ev with
    | NO_SIGNAL => bad_reading (cfg_ d) r = true
    | BRADYCARDIA =>
        usable (cfg_ d) r = true /\ 0 < bpm r < brady_bpm (cfg_ d)
    | TACHYCARDIA => usable (cfg_ d) r = true /\ tachy_bpm (cfg_ d) < bpm r
    | RAPID_CHANGE =>
        usable (cfg_ d) r = true /\ detect_rapid_change (pushed d r) = true
    | NONE => active_alarm_ d <> NONE /\ snd (raw_candidate d r) = NONE
    end.
Proof.
  intros d r ev Hev.
  destruct (update_event_kind d r ev Hev) as [E Hne].
  split; [exact Hne|].
  rewrite E in *. cbn [ev_type] in *.
  pose proof (raw_candidate_kind d r) as Hk.
  destruct (snd (raw_candidate d r)); try exact Hk.
  split; [congruence|reflexivity].
Qed.

Lemma event_causes_witness :
  let q := of_int 1 in
  let d := fst (run init [mkBpmReading 150 q true 100]) in
  let r := mkBpmReading 150 q true 5100 in
  usable default_Config r = true /\ 130 < bpm r.
Proof.
  intros q d r.
  apply (event_causes d r (mkAlarmEvent TACHYCARDIA 150 q 5100)).
  reflexivity.
Defined.

(** *** Sustained bradycardia and tachycardia *)

Lemma usable_not_bad (r : BpmReading) :
  usable default_Config r = true -> 0 < bpm r ->
  bad_reading default_Config r = false.
Proof.
  unfold usable, bad_reading. intros Hu Hb.
  apply andb_prop in Hu. destruct Hu as [Hq _].
  rewrite (geb_not_ltb _ _ Hq). cbn [orb]. apply Z.leb_gt. exact Hb.
Qed.

Lemma abnormal_reading_facts (k : AlarmType) (r : BpmReading) :
  abnormal_reading k r ->
  usable default_Config r = true /\ 0 < bpm r /\
  (k = BRADYCARDIA \/ k = TACHYCARDIA).
Proof.
  intros [Hu Hk]. destruct k; try contradiction; repeat split; auto; lia.
Qed.

(** The candidate of a tick on a reading that feeds the onset of [k]. *)
Lemma raw_candidate_abnormal (k : AlarmType) (d : t) (r : BpmReading) :
  cfg_ d = default_Config -> abnormal_reading k r ->
  let d2 := track_abnormal (pushed d r) r k in
  raw_candidate d r =
  (d2, if sustained d2 r then k
       else if detect_rapid_change d2 then RAPID_CHANGE else NONE).
Proof.
  intros Hcfg Hr d2.
  destruct (abnormal_reading_facts k r Hr) as (Hu & Hpos & Hk).
  pose proof (usable_not_bad r Hu Hpos) as Hbad.
  unfold raw_candidate. fold (pushed d r). unfold classify.
  assert (no_signal_sustained (pushed d r) r = false) as ->.
  { unfold no_signal_sustained, pushed.
    cbn [push_hist track_no_signal no_signal_since_ms_].
    rewrite Hcfg, Hbad. reflexivity. }
  rewrite (pushed_cfg d r), Hcfg, Hu.
  unfold brady_tachy. rewrite (pushed_cfg d r), Hcfg.
  cbn [brady_bpm tachy_bpm default_Config].
  destruct Hr as [_ Hr]. fold d2.
  destruct Hk as [-> | ->].
  - assert ((bpm r >? 0) && (bpm r <? 45) = true) as ->
      by (apply andb_true_intro; split; [apply Z.gtb_lt|apply Z.ltb_lt]; lia).
    fold d2. destruct (sustained d2 r); reflexivity.
  - assert ((bpm r >? 0) && (bpm r <? 45) = false) as ->
      by (apply andb_false_intro2, Z.ltb_ge; lia).
    assert ((bpm r >? 130) = true) as -> by (apply Z.gtb_lt; lia).
    fold d2. destruct (sustained d2 r); reflexivity.
Qed.

Lemma update_abnormal_onset (k : AlarmType) (d : t) (r : BpmReading) :
  cfg_ d = default_Config -> abnormal_reading k r ->
  abnormal_since_ms_ (fst (update d r))
  = abnormal_since_ms_ (track_abnormal (pushed d r) r k) /\
  abnormal_kind_ (fst (update d r))
  = abnormal_kind_ (track_abnormal (pushed d r) r k).
Proof.
  intros Hcfg Hr.
  rewrite update_unfold, held_candidate_unfold.
  destruct (transition_ring
              (fst (hysteresis (fst (raw_candidate d r)) r
                      (snd (raw_candidate d r)))) r
              (snd (hysteresis (fst (raw_candidate d r)) r
                      (snd (raw_candidate d r))))) as (_ & _ & _ & A).
  destruct (hysteresis_ring (fst (raw_candidate d r)) r
              (snd (raw_candidate d r))) as (_ & _ & _ & B).
  rewrite A, B, (proj2 (transition_abnormal _ _ _)),
    (proj2 (hysteresis_abnormal _ _ _)).
  rewrite (raw_candidate_abnormal k d r Hcfg Hr). split; reflexivity.
Qed.

Lemma abnormal_streak_keeps_onset (k : AlarmType) (rs : list BpmReading) :
  forall d,
    cfg_ d = default_Config ->
    abnormal_since_ms_ d <> 0 -> abnormal_kind_ d = k ->
    Forall (abnormal_reading k) rs ->
    abnormal_since_ms_ (fst (run d rs)) = abnormal_since_ms_ d /\
    abnormal_kind_ (fst (run d rs)) = k.
Proof.
  induction rs as [|r rs IH]; intros d Hcfg Hs Hk Hrs; [now split|].
  inversion Hrs as [|? ? Hr Hrs']; subst.
  rewrite run_cons. cbn [fst].
  destruct (update_abnormal_onset (abnormal_kind_ d) d r Hcfg Hr) as [E1 E2].
  assert (track_abnormal (pushed d r) r (abnormal_kind_ d) = pushed d r) as Et.
  { unfold track_abnormal.
    assert (abnormal_since_ms_ (pushed d r) = abnormal_since_ms_ d) as ->
      by reflexivity.
    assert (abnormal_kind_ (pushed d r) = abnormal_kind_ d) as ->
      by reflexivity.
    apply Z.eqb_neq in Hs. rewrite Hs.
    rewrite (proj2 (AlarmType_eqb_eq _ _) eq_refl). reflexivity. }
  rewrite Et in E1, E2.
  destruct (IH (fst (update d r))) as [F1 F2];
    [now rewrite update_cfg|rewrite E1; exact Hs|rewrite E2; reflexivity
    |exact Hrs'|].
  rewrite F1, F2, E1. split; reflexivity.
Qed.

(** Sustained bradycardia or tachycardia, [k] being one of the two.  A
    default-configured detector, with no onset of [k] pending, is fed
    usable readings of a positive bpm below 45 (of a bpm above 130 for
    tachycardia), the first at a time other than 0 (the value that stands
    for no onset).  Then the candidate becomes [k], and [k] the active
    alarm, at a reading 5000 ms or more after the first; and the candidate
    is not [k] at a reading less than 5000 ms after the first. *)
Theorem sustained_abnormal_rate :
  forall (k : AlarmType) (d : t) (r1 r : BpmReading)
         (rest : list BpmReading),
    cfg_ d = default_Config ->
    Forall (abnormal_reading k) (r1 :: rest ++ [r]) ->
    abnormal_since_ms_ d = 0 \/ abnormal_kind_ d <> k ->
    t_ms r1 <> 0 ->
    let d1 := fst (run d (r1 :: rest)) in
    (5000 <= t_ms r - t_ms r1 ->
     snd (raw_candidate d1 r) = k /\
     active_alarm_ (fst (update d1 r)) = k) /\
    (t_ms r - t_ms r1 < 5000 -> snd (raw_candidate d1 r) <> k).
Proof.
  intros k d r1 r rest Hcfg Hall Hpend Ht1 d1.
  inversion Hall as [|? ? Hr1 Hrest]; subst.
  apply Forall_app in Hrest. destruct Hrest as [Hrest Hr].
  inversion Hr as [|? ? Hr' _]; subst. clear Hr.
  destruct (abnormal_reading_facts k r Hr') as (_ & _ & Hk).
  (* the onset after the first reading *)
  destruct (update_abnormal_onset k d r1 Hcfg Hr1) as [E1 E2].
  assert (track_abnormal (pushed d r1) r1 k
          = set_abnormal (pushed d r1) (t_ms r1) k) as Et.
  { unfold track_abnormal.
    assert (abnormal_since_ms_ (pushed d r1) = abnormal_since_ms_ d) as ->
      by reflexivity.
    assert (abnormal_kind_ (pushed d r1) = abnormal_kind_ d) as ->
      by reflexivity.
    destruct Hpend as [-> | Hne]; [reflexivity|].
    apply AlarmType_eqb_neq in Hne. rewrite Hne.
    now rewrite orb_true_r. }
  rewrite Et in E1, E2. cbn [set_abnormal abnormal_since_ms_ abnormal_kind_]
    in E1, E2.
  assert (cfg_ d1 = default_Config) as Hcfg1
    by (unfold d1; now rewrite run_cfg).
  assert (abnormal_since_ms_ d1 = t_ms r1 /\ abnormal_kind_ d1 = k)
    as [Hs1 Hk1].
  { unfold d1. rewrite run_cons. cbn [fst].
    destruct (abnormal_streak_keeps_onset k rest (fst (update d r1)))
      as [F1 F2]; [now rewrite update_cfg|rewrite E1; exact Ht1|exact E2
                  |exact Hrest|].
    rewrite F1, F2, E1. split; reflexivity. }
  pose proof (raw_candidate_abnormal k d1 r Hcfg1 Hr') as Hraw.
  cbv zeta in Hraw.
  assert (track_abnormal (pushed d1 r) r k = pushed d1 r) as Et1.
  { unfold track_abnormal.
    assert (abnormal_since_ms_ (pushed d1 r) = abnormal_since_ms_ d1) as ->
      by reflexivity.
    assert (abnormal_kind_ (pushed d1 r) = abnormal_kind_ d1) as ->
      by reflexivity.
    rewrite Hs1, Hk1. apply Z.eqb_neq in Ht1. rewrite Ht1.
    rewrite (proj2 (AlarmType_eqb_eq _ _) eq_refl). reflexivity. }
  rewrite Et1 in Hraw.
  assert (sustained (pushed d1 r) r = (t_ms r - t_ms r1 >=? 5000)) as Es.
  { unfold sustained. rewrite (pushed_cfg d1 r), Hcfg1.
    assert (abnormal_since_ms_ (pushed d1 r) = abnormal_since_ms_ d1) as ->
      by reflexivity.
    now rewrite Hs1. }
  rewrite Es in Hraw. split.
  - intros Hlong.
    assert ((t_ms r - t_ms r1 >=? 5000) = true) as E
      by (apply Z.geb_le; lia).
    rewrite E in Hraw.
    assert (snd (raw_candidate d1 r) = k) as Hc by now rewrite Hraw.
    split; [exact Hc|].
    destruct (update_alarm d1 r) as [Ha _].
    + rewrite Hc. destruct Hk as [-> | ->]; discriminate.
    + now rewrite Ha.
  - intros Hshort.
    assert ((t_ms r - t_ms r1 >=? 5000) = false) as E.
    { destruct (Z.geb_spec (t_ms r - t_ms r1) 5000); [lia|reflexivity]. }
    rewrite E in Hraw. rewrite Hraw. cbn [snd].
    destruct (detect_rapid_change (pushed d1 r));
      destruct Hk as [-> | ->]; discriminate.
Qed.

Lemma sustained_abnormal_rate_witness :
  let q := of_int 1 in
  let d1 := fst (run init [mkBpmReading 150 q true 100;
                           mkBpmReading 160 q true 2600]) in
  let r := mkBpmReading 155 q true 5100 in
  snd (raw_candidate d1 r) = TACHYCARDIA /\
  active_alarm_ (fst (update d1 r)) = TACHYCARDIA.
Proof.
  intros q d1 r.
  apply (sustained_abnormal_rate TACHYCARDIA init
           (mkBpmReading 150 q true 100) r [mkBpmReading 160 q true 2600]).
  - reflexivity.
  - repeat constructor; cbn; lia.
  - left. reflexivity.
  - cbn. lia.
  - cbn. lia.
Defined.

(** A streak of bad readings 3000 ms long makes [NO_SIGNAL] the active
    alarm. *)
Lemma bad_streak_no_signal (d : t) (r1 r : BpmReading)
  (rest : list BpmReading) :
  cfg_ d = default_Config ->
  Forall bad (r1 :: rest ++ [r]) ->
  no_signal_since_ms_ d = 0 -> t_ms r1 <> 0 ->
  3000 <= t_ms r - t_ms r1 ->
  active_alarm_ (fst (run d (r1 :: rest ++ [r]))) = NO_SIGNAL.
Proof.
  intros Hcfg Hbad Hs Ht Hlong.
  change (r1 :: rest ++ [r]) with ((r1 :: rest) ++ [r]) in *.
  apply Forall_app in Hbad. destruct Hbad as [Hstreak Hr].
  inversion Hr as [|? ? Hr' _]; subst. clear Hr.
  rewrite run_snoc.
  set (d1 := fst (run d (r1 :: rest))).
  assert (cfg_ d1 = default_Config) as Hcfg1
    by (unfold d1; now rewrite run_cfg).
  assert (no_signal_since_ms_ d1 = t_ms r1) as Hon
    by (now apply bad_streak_onset).
  assert (snd (raw_candidate d1 r) = NO_SIGNAL) as Hraw.
  { unfold raw_candidate, classify.
    assert (no_signal_sustained (push_hist (track_no_signal d1 r) r) r = true)
      as ->; [|reflexivity].
    unfold no_signal_sustained.
    cbn [push_hist track_no_signal no_signal_since_ms_ cfg_].
    rewrite Hcfg1. unfold bad in Hr'. rewrite Hr', Hon.
    apply Z.eqb_neq in Ht. rewrite Ht. cbn iota. rewrite Ht. simpl.
    apply Z.geb_le. lia. }
  destruct (update_alarm d1 r) as [Ha _]; [rewrite Hraw; discriminate|].
  now rewrite Ha.
Qed.

(** *** Steady normal readings *)

Lemma update_steady (lo : Z) (d : t) (r : BpmReading) :
  steady lo d -> normal_reading r -> lo <= bpm r < lo + 35 ->
  snd (update d r) = None /\ steady lo (fst (update d r)).
Proof.
  intros (Hcfg & Hact & Hwf & Hband) [Hu Hn] Hr.
  pose proof (usable_not_bad r Hu ltac:(lia)) as Hbad.
  destruct (pushed_ring d r Hwf) as (Hwf' & Hc' & _).
  assert (forall i, 0 <= i < hist_count_ (pushed d r) ->
                    lo <= hist_bpm (entry (pushed d r) i) < lo + 35) as Hband'.
  { intros i Hi. destruct (Z.eq_dec i 0) as [->|Hne].
    - destruct Hwf as (A & B & _). rewrite (pushed_newest d r A B).
      exact Hr.
    - replace i with (i - 1 + 1) by lia.
      destruct Hwf as (A & B & C).
      rewrite (pushed_entry_succ d r (i - 1)) by (unfold ring_wf; lia).
      apply Hband. lia. }
  assert (snd (raw_candidate d r) = NONE) as Hraw.
  { rewrite raw_candidate_usable.
    - destruct (detect_rapid_change (pushed d r)) eqn:Ed; [|reflexivity].
      apply detect_rapid_change_spec in Ed; [|now rewrite pushed_cfg].
      destruct Ed as (i & Hi & _ & Hj & _).
      pose proof (Hband' 0 ltac:(lia)). pose proof (Hband' i ltac:(lia)).
      rewrite jump_exact in Hj by lia. unfold true_jump in Hj. lia.
    - now rewrite Hcfg.
    - unfold no_signal_sustained, pushed.
      cbn [push_hist track_no_signal no_signal_since_ms_].
      rewrite Hcfg, Hbad. reflexivity.
    - unfold brady_tachy. rewrite pushed_cfg, Hcfg.
      cbn [brady_bpm tachy_bpm default_Config].
      assert ((bpm r >? 0) && (bpm r <? 45) = false) as ->
        by (apply andb_false_intro2, Z.ltb_ge; lia).
      assert ((bpm r >? 130) = false) as ->
        by (destruct (Z.gtb_spec (bpm r) 130); [lia|reflexivity]).
      reflexivity. }
  assert (snd (held_candidate d r) = NONE) as Hheld.
  { rewrite held_candidate_unfold, Hraw. unfold hysteresis.
    rewrite raw_candidate_active, Hact. reflexivity. }
  pose proof (update_edge d r) as He. cbv zeta in He.
  rewrite Hheld, Hact in He.
  destruct (update_ring_wf d r Hwf) as (Hwf'' & Hc'' & _ & He'').
  destruct (snd (update d r)) as [ev|].
  - destruct He as (Hne & _). congruence.
  - destruct He as (_ & Ha). split; [reflexivity|].
    split; [now rewrite update_cfg|]. split; [exact Ha|].
    split; [exact Hwf''|].
    intros i Hi. rewrite He''. apply Hband'. rewrite Hc'. lia.
Qed.

Lemma run_steady (lo : Z) (rs : list BpmReading) : forall d,
  steady lo d ->
  Forall normal_reading rs ->
  Forall (fun r => lo <= bpm r < lo + 35) rs ->
  Forall (fun o => o = None) (snd (run d rs)) /\
  active_alarm_ (fst (run d rs)) = NONE.
Proof.
  induction rs as [|r rs IH]; intros d Hs Hn Hb.
  - split; [constructor|apply Hs].
  - inversion Hn as [|? ? Hn1 Hn']; subst.
    inversion Hb as [|? ? Hb1 Hb']; subst.
    destruct (update_steady lo d r Hs Hn1 Hb1) as [Hev Hs'].
    rewrite run_cons. cbn [fst snd].
    destruct (IH _ Hs' Hn' Hb') as [H1 H2].
    split; [constructor; assumption|exact H2].
Qed.

(** Steady normal readings raise nothing: a new default detector fed
    usable readings of a bpm in [[45, 130]], all within a band less than 35
    bpm wide, returns no event and keeps no alarm active, whatever the
    times of the readings. *)
Theorem steady_normal_rate_raises_nothing :
  forall (lo : Z) (rs : list BpmReading),
    Forall normal_reading rs ->
    Forall (fun r => lo <= bpm r < lo + 35) rs ->
    Forall (fun o => o = None) (snd (run init rs)) /\
    active_alarm_ (fst (run init rs)) = NONE.
Proof.
  intros lo rs Hn Hb. apply (run_steady lo rs init); try assumption.
  unfold steady, ring_wf. cbn. repeat split; try lia.
Qed.

Lemma steady_normal_rate_raises_nothing_witness :
  let q := of_int 1 in
  let rs := [mkBpmReading 70 q true 0; mkBpmReading 90 q true 1000;
             mkBpmReading 60 q true 2000] in
  Forall (fun o => o = None) (snd (run init rs)) /\
  active_alarm_ (fst (run init rs)) = NONE.
Proof.
  intros q rs.
  apply (steady_normal_rate_raises_nothing 60 rs);
    repeat constructor; cbn; lia.
Defined.

End AlarmFacts.

(** ** The tasks *)

Module TasksFacts.

Import HeartMonitorTasks TasksSpec.
Import EstimatorSpec EstimatorFacts.

(** *** median5 *)

Lemma filter_length_impl (f g : Z -> bool) (l : list Z) :
  (forall x, f x = true -> g x = true) ->
  (length (filter f l) <= length (filter g l))%nat.
Proof.
  intros H. induction l as [|x l IH]; [reflexivity|].
  cbn [filter]. destruct (f x) eqn:Ef.
  - rewrite (H x Ef). cbn [length]. lia.
  - destruct (g x); cbn [length]; lia.
Qed.

(** [median5] suppresses up to two spikes: the value returned is one of
    the five, and when at least three of the five lie in [[lo, hi]] so does
    the value returned. *)
Theorem median5_suppresses_spikes :
  forall (a b c d e lo hi : Z),
    In (median5 a b c d e) [a; b; c; d; e] /\
    ((3 <= count_in lo hi [a; b; c; d; e])%nat ->
     lo <= median5 a b c d e <= hi).
Proof.
  intros a b c d e lo hi. unfold median5.
  set (l := [a; b; c; d; e]).
  assert (2 < length (PulseBpm.sort l))%nat as Hk
    by (rewrite PulseFacts.sort_length; cbn; lia).
  split; [apply sort_In, nth_In, Hk|].
  intros Hin.
  destruct (sorted_nth_counts (PulseBpm.sort l) (sort_sorted l) 2%nat Hk)
    as [H1 H2].
  unfold count_lt, count_gt in H1, H2.
  rewrite sort_filter in H1, H2. rewrite PulseFacts.sort_length in H2.
  set (m := nth 2 (PulseBpm.sort l) 0) in *.
  unfold count_in in Hin.
  destruct (Z_lt_ge_dec m lo) as [Hlo|Hlo].
  { pose proof (filter_length_impl
                  (fun x => (lo <=? x) && (x <=? hi)) (fun x => m <? x) l)
      as Hf.
    assert (forall x, (lo <=? x) && (x <=? hi) = true -> (m <? x) = true)
      as Himp.
    { intros x Hx. apply andb_prop in Hx. destruct Hx as [Hx _].
      apply Z.leb_le in Hx. apply Z.ltb_lt. lia. }
    specialize (Hf Himp). cbn [length l] in *. lia. }
  destruct (Z_le_gt_dec m hi) as [Hhi|Hhi]; [lia|].
  pose proof (filter_length_impl
                (fun x => (lo <=? x) && (x <=? hi)) (fun x => x <? m) l)
    as Hf.
  assert (forall x, (lo <=? x) && (x <=? hi) = true -> (x <? m) = true)
    as Himp.
  { intros x Hx. apply andb_prop in Hx. destruct Hx as [_ Hx].
    apply Z.leb_le in Hx. apply Z.ltb_lt. lia. }
  specialize (Hf Himp). lia.
Qed.

(** *** sampler_task *)

Lemma sampler_run_cons (s : Sampler) (x : PulseBpm.Sample)
  (ss : list PulseBpm.Sample) :
  sampler_run s (x :: ss) =
  (fst (sampler_run (fst (sampler_step s (PulseBpm.s_raw x)
                            (PulseBpm.s_t_ms x))) ss),
   snd (sampler_step s (PulseBpm.s_raw x) (PulseBpm.s_t_ms x))
   :: snd (sampler_run (fst (sampler_step s (PulseBpm.s_raw x)
                               (PulseBpm.s_t_ms x))) ss)).
Proof.
  cbn [sampler_run].
  destruct (sampler_step s _ _) as [s1 o]. cbn [fst snd].
  destruct (sampler_run s1 ss); reflexivity.
Qed.

Lemma sampler_init_ok (raw0 now : Z) :
  PulseSpec.int_range raw0 -> sampler_ok (sampler_init raw0 now).
Proof.
  intros H. split.
  - exists []. apply PulseFacts.reset_inv.
  - now apply SignalFacts.reset_signal_inv.
Qed.

(** One iteration: the estimator stays in order, and a reading written to
    the queue comes from [update] in the [RUNNING] state. *)
Lemma sampler_step_ok (s : Sampler) (raw t : Z) :
  sampler_ok s -> PulseSpec.int_range raw ->
  sampler_ok (fst (sampler_step s raw t)) /\
  forall rd, snd (sampler_step s raw t) = Some rd ->
    state s = RUNNING /\ contact_transient s raw = false /\
    t_ms rd = t /\
    40 <= bpm rd <= 180 /\
    leb zero (quality rd) = true /\ leb (quality rd) (of_int 1) = true /\
    stable rd = (3 <=? PulseBpm.ibi_count_
                         (estimator (fst (sampler_step s raw t)))).
Proof.
  intros [[acc Hacc] Hsig] Hraw.
  assert (sampler_ok (set_estimator (set_last_raw s raw)
                        (PulseBpm.reset raw) RUNNING) /\
          sampler_ok (set_estimator (settle s raw t)
                        (PulseBpm.reset raw) RUNNING)) as [Hr1 Hr2].
  { split; (split; [exists []; apply PulseFacts.reset_inv
                   |now apply SignalFacts.reset_signal_inv]). }
  assert (sampler_ok (settle s raw t) /\ sampler_ok (set_last_raw s raw))
    as [Hk1 Hk2] by (split; (split; [now exists acc|exact Hsig])).
  unfold sampler_step.
  destruct (state s) eqn:Est.
  - destruct (t >=? warmup_until s); cbn [fst snd];
      (split; [assumption|discriminate]).
  - destruct (contact_transient s raw).
    + change (state (settle s raw t)) with SETTLING. cbv iota.
      destruct (t >=? settling_until (settle s raw t)); cbn [fst snd];
        (split; [assumption|discriminate]).
    + change (state (set_last_raw s raw)) with (state s). rewrite Est.
      destruct (t >=? settling_until (set_last_raw s raw)); cbn [fst snd];
        (split; [assumption|discriminate]).
  - destruct (contact_transient s raw) eqn:Ect.
    + change (state (settle s raw t)) with SETTLING. cbv iota.
      destruct (t >=? settling_until (settle s raw t)); cbn [fst snd];
        (split; [assumption|discriminate]).
    + change (state (set_last_raw s raw)) with (state s). rewrite Est.
      change (estimator (set_last_raw s raw)) with (estimator s).
      pose proof (PulseFacts.update_inv (estimator s) acc raw t 0 zero Hacc)
        as Hu.
      pose proof (update_bpm_range (estimator s) acc raw t 0 zero Hacc)
        as Hb.
      pose proof (SignalFacts.update_quality_unit (estimator s) raw t 0 zero
                    Hsig Hraw) as Hq.
      pose proof (SignalFacts.update_signal_inv (estimator s) raw t 0 zero
                    Hsig Hraw) as Hs'.
      pose proof (update_kind (estimator s) raw t 0 zero) as Hk.
      cbv zeta in Hu, Hb, Hq, Hk.
      destruct (PulseBpm.update (estimator s) raw t 0 zero)
        as [[[e res] b] q].
      cbn [fst snd] in *.
      split.
      * split; [|exact Hs'].
        destruct Hu as [[_ Hi]|(_ & Hi & _)]; eexists; exact Hi.
      * intros rd Hrd.
        assert (res <> PulseBpm.NONE) as Hne
          by (intros ->; discriminate).
        specialize (Hb Hne).
        destruct Hu as [[E _]|(_ & Hi & _)]; [contradiction|].
        destruct Hk as [Hk|Hk]; [contradiction|].
        pose proof (PulseSpec.inv_count _ _ Hacc) as Hc.
        pose proof (PulseSpec.inv_count _ _ Hi) as Hc'.
        cbn [length] in Hc'.
        assert (rd = mkBpmReading b q
                       (PulseBpm.Result_eqb res PulseBpm.STABLE) t) as ->
          by (destruct res; congruence).
        cbn [t_ms bpm quality stable].
        repeat split; try tauto; try lia.
        change (estimator (set_estimator (set_last_raw s raw) e RUNNING))
          with e.
        rewrite Hk, Hc', Hc.
        destruct (Z.ltb_spec (Z.of_nat (length acc) + 1) 3);
          destruct (Z.leb_spec 3 (Z.of_nat (S (length acc))));
          try reflexivity; lia.
Qed.

Lemma sampler_run_ok (ss : list PulseBpm.Sample) : forall s,
  sampler_ok s ->
  Forall (fun x => PulseSpec.int_range (PulseBpm.s_raw x)) ss ->
  sampler_ok (fst (sampler_run s ss)).
Proof.
  induction ss as [|x ss IH]; intros s Hs Hss; [exact Hs|].
  inversion Hss as [|? ? Hx Hss']; subst.
  rewrite sampler_run_cons. cbn [fst]. apply IH; [|exact Hss'].
  now apply sampler_step_ok.
Qed.

(** A reading the sampler publishes is sound.  The task has read [int]
    values; when an iteration writes a reading to the queue, the task was
    [RUNNING] and the sample no contact transient, the reading carries the
    time of the sample, a bpm of [[40, 180]] and a quality of [[0, 1]], and
    it is flagged stable exactly from the third beat after the last
    [reset] on. *)
Theorem published_reading_sound :
  forall (raw0 now0 : Z) (ss : list PulseBpm.Sample) (raw t : Z)
         (rd : BpmReading),
    PulseSpec.int_range raw0 ->
    Forall (fun x => PulseSpec.int_range (PulseBpm.s_raw x)) ss ->
    PulseSpec.int_range raw ->
    let s := fst (sampler_run (sampler_init raw0 now0) ss) in
    snd (sampler_step s raw t) = Some rd ->
    state s = RUNNING /\ contact_transient s raw = false /\
    t_ms rd = t /\
    40 <= bpm rd <= 180 /\
    leb zero (quality rd) = true /\ leb (quality rd) (of_int 1) = true /\
    stable rd = (3 <=? PulseBpm.ibi_count_
                         (estimator (fst (sampler_step s raw t)))).
Proof.
  intros raw0 now0 ss raw t rd H0 Hss Hraw s Hrd.
  pose proof (sampler_run_ok ss _ (sampler_init_ok raw0 now0 H0) Hss) as Hok.
  exact (proj2 (sampler_step_ok _ raw t Hok Hraw) rd Hrd).
Qed.

Lemma int_range_checked (ss : list PulseBpm.Sample) :
  forallb (fun x => (- 2 ^ 31 <=? PulseBpm.s_raw x)
                    && (PulseBpm.s_raw x <? 2 ^ 31)) ss = true ->
  Forall (fun x => PulseSpec.int_range (PulseBpm.s_raw x)) ss.
Proof.
  intros H. rewrite forallb_forall in H. apply Forall_forall.
  intros x Hx. specialize (H x Hx). apply andb_prop in H.
  destruct H as [H1 H2]. apply Z.leb_le in H1. apply Z.ltb_lt in H2.
  split; assumption.
Qed.

Lemma published_reading_sound_witness :
  let s := fst (sampler_run (sampler_init 2000 0) boot_then_wave) in
  let rd := mkBpmReading 84 (S754_finite false 12098986 (-24)) false 3940 in
  state s = RUNNING /\ 40 <= bpm rd <= 180 /\
  leb zero (quality rd) = true /\ leb (quality rd) (of_int 1) = true.
Proof.
  intros s rd.
  destruct (published_reading_sound 2000 0 boot_then_wave
              (PulseSpec.tri 700 400 940) 3940 rd)
    as (H1 & _ & _ & H4 & H5 & H6 & _).
  - unfold PulseSpec.int_range. lia.
  - apply int_range_checked. vm_compute. reflexivity.
  - vm_compute. split; [discriminate|reflexivity].
  - vm_compute. reflexivity.
  - repeat split; try assumption; apply H4.
Defined.

Lemma sampler_step_quiet (T t0 : Z) (s : Sampler) (raw t : Z) :
  quiet_before T t0 s -> t0 <= t ->
  (forall rd, snd (sampler_step s raw t) = Some rd -> T <= t_ms rd) /\
  quiet_before T t (fst (sampler_step s raw t)).
Proof.
  unfold quiet_before, sampler_step, SETTLING_TIME_MS. intros Hq Ht.
  destruct (state s) eqn:Est.
  - destruct (Z.geb_spec t (warmup_until s)); cbn [fst snd];
      (split; [discriminate|]).
    + change (state (settle s raw t)) with SETTLING.
      change (settling_until (settle s raw t)) with (t + SETTLING_TIME_MS).
      unfold SETTLING_TIME_MS. lia.
    + change (state (set_last_raw s raw)) with (state s). rewrite Est.
      exact Hq.
  - destruct (contact_transient s raw).
    + change (state (settle s raw t)) with SETTLING. cbv iota.
      change (settling_until (settle s raw t)) with (t + SETTLING_TIME_MS).
      unfold SETTLING_TIME_MS.
      destruct (Z.geb_spec t (t + 1500)); [lia|]. cbn [fst snd].
      split; [discriminate|].
      change (state (settle s raw t)) with SETTLING.
      change (settling_until (settle s raw t)) with (t + SETTLING_TIME_MS).
      unfold SETTLING_TIME_MS. lia.
    + change (state (set_last_raw s raw)) with (state s). rewrite Est.
      change (settling_until (set_last_raw s raw)) with (settling_until s).
      destruct (Z.geb_spec t (settling_until s)); cbn [fst snd];
        (split; [discriminate|]).
      * cbn [set_estimator state]. lia.
      * change (state (set_last_raw s raw)) with (state s). rewrite Est.
        change (settling_until (set_last_raw s raw)) with (settling_until s).
        lia.
  - destruct (contact_transient s raw).
    + change (state (settle s raw t)) with SETTLING. cbv iota.
      change (settling_until (settle s raw t)) with (t + SETTLING_TIME_MS).
      unfold SETTLING_TIME_MS.
      destruct (Z.geb_spec t (t + 1500)); [lia|]. cbn [fst snd].
      split; [discriminate|].
      change (state (settle s raw t)) with SETTLING.
      change (settling_until (settle s raw t)) with (t + SETTLING_TIME_MS).
      unfold SETTLING_TIME_MS. lia.
    + change (state (set_last_raw s raw)) with (state s). rewrite Est.
      destruct (PulseBpm.update _ raw t 0 zero) as [[[e res] b] q].
      cbn [fst snd set_estimator state].
      split; [|lia].
      intros rd Hrd. destruct res; try discriminate;
        injection Hrd as <-; cbn [t_ms]; lia.
Qed.

Lemma sampler_run_quiet (T : Z) (ss : list PulseBpm.Sample) : forall t0 s,
  quiet_before T t0 s -> ascending t0 ss ->
  none_before T (snd (sampler_run s ss)).
Proof.
  unfold none_before.
  induction ss as [|x ss IH]; intros t0 s Hq Ha; [constructor|].
  destruct Ha as [Ht Ha].
  destruct (sampler_step_quiet T t0 s (PulseBpm.s_raw x) (PulseBpm.s_t_ms x)
              Hq Ht) as [H1 H2].
  rewrite sampler_run_cons. cbn [snd]. constructor; [exact H1|].
  now apply (IH (PulseBpm.s_t_ms x)).
Qed.

(** Nothing is published while the task warms up and settles: the task
    started at time [now0] and acquisition times never decrease; then every
    reading written to the queue has a time of [now0 + 3000] or later. *)
Theorem sampler_warms_up :
  forall (raw0 now0 t0 : Z) (ss : list PulseBpm.Sample),
    ascending t0 ss ->
    none_before (now0 + WARMUP_MS + SETTLING_TIME_MS)
                (snd (sampler_run (sampler_init raw0 now0) ss)).
Proof.
  intros raw0 now0 t0 ss Ha.
  apply (sampler_run_quiet _ ss t0); [|exact Ha].
  unfold quiet_before. cbn [sampler_init state warmup_until]. lia.
Qed.

Lemma sampler_warms_up_witness :
  none_before 3000
    (snd (sampler_run (sampler_init 2000 0)
            [PulseBpm.mkSample 2000 1500; PulseBpm.mkSample 2000 2990])).
Proof.
  apply (sampler_warms_up 2000 0 0). cbn. lia.
Defined.

(** A contact transient silences the task for the settling time and makes
    it start over: past the warm-up, an acquisition that is near zero or
    more than 600 away from the one before writes nothing to the queue; as
    long as times do not decrease no reading is written with a time less
    than 1500 ms after it; and an iteration of the settling state leaves
    the estimator alone or, to leave that state, resets it on the raw value
    of that iteration. *)
Theorem contact_transient_restarts :
  forall (s : Sampler) (raw t : Z) (ss : list PulseBpm.Sample),
    state s <> BOOT_WARMUP ->
    contact_transient s raw = true ->
    ascending t ss ->
    let s1 := fst (sampler_step s raw t) in
    snd (sampler_step s raw t) = None /\
    state s1 = SETTLING /\
    none_before (t + SETTLING_TIME_MS) (snd (sampler_run s1 ss)) /\
    forall (s' : Sampler) (raw' t' : Z),
      state s' = SETTLING ->
      let s2 := fst (sampler_step s' raw' t') in
      snd (sampler_step s' raw' t') = None /\
      ((state s2 = SETTLING /\ estimator s2 = estimator s') \/
       (state s2 = RUNNING /\ estimator s2 = PulseBpm.reset raw')).
Proof.
  intros s raw t ss Hst Hct Ha s1.
  assert (sampler_step s raw t = (settle s raw t, None)) as E.
  { unfold sampler_step. rewrite Hct.
    destruct (state s); [contradiction| |];
      change (state (settle s raw t)) with SETTLING; cbv iota;
      change (settling_until (settle s raw t)) with (t + SETTLING_TIME_MS);
      unfold SETTLING_TIME_MS;
      (destruct (Z.geb_spec t (t + 1500)); [lia|reflexivity]). }
  unfold s1. rewrite E. cbn [fst snd].
  split; [reflexivity|]. split; [reflexivity|]. split.
  - apply (sampler_run_quiet _ ss t); [|exact Ha].
    unfold quiet_before. cbn [settle state settling_until]. lia.
  - intros s' raw' t' Hs'. unfold sampler_step. rewrite Hs'.
    destruct (contact_transient s' raw').
    + change (state (settle s' raw' t')) with SETTLING. cbv iota.
      destruct (t' >=? _); cbn [fst snd]; (split; [reflexivity|]);
        [right|left]; split; reflexivity.
    + change (state (set_last_raw s' raw')) with (state s'). rewrite Hs'.
      destruct (t' >=? _); cbn [fst snd]; (split; [reflexivity|]);
        [right|left]; split; try reflexivity. exact Hs'.
Qed.

Lemma contact_transient_restarts_witness :
  let s := fst (sampler_run (sampler_init 2000 0)
                  [PulseBpm.mkSample 2000 1500; PulseBpm.mkSample 2000 3000])
  in
  snd (sampler_step s 10 3010) = None /\
  state (fst (sampler_step s 10 3010)) = SETTLING /\
  none_before 4510
    (snd (sampler_run (fst (sampler_step s 10 3010))
            [PulseBpm.mkSample 2000 3020; PulseBpm.mkSample 2000 4500])).
Proof.
  intros s.
  destruct (contact_transient_restarts s 10 3010
              [PulseBpm.mkSample 2000 3020; PulseBpm.mkSample 2000 4500])
    as (H1 & H2 & H3 & _).
  - vm_compute. discriminate.
  - vm_compute. reflexivity.
  - cbn. lia.
  - repeat split; assumption.
Defined.

(** *** detector_task *)

Import HrAnomalyDetector DetectorSpec AlarmSpec.

Lemma detector_run_cons (s : DetectorTask) (tnow : Z)
  (peek : option BpmReading) (ticks : list (Z * option BpmReading)) :
  detector_run s ((tnow, peek) :: ticks) =
  (fst (detector_run (fst (detector_step s tnow peek)) ticks),
   snd (detector_step s tnow peek)
   :: snd (detector_run (fst (detector_step s tnow peek)) ticks)).
Proof.
  cbn [detector_run].
  destruct (detector_step s tnow peek) as [s1 ev]. cbn [fst snd].
  destruct (detector_run s1 ticks); reflexivity.
Qed.

Lemma detector_step_unfold (s : DetectorTask) (tnow : Z)
  (peek : option BpmReading) :
  let l := fst (latest s peek) in
  let have := snd (latest s peek) in
  detector (fst (detector_step s tnow peek))
  = fst (update (detector s) (tick_input have l tnow)) /\
  snd (detector_step s tnow peek)
  = snd (update (detector s) (tick_input have l tnow)).
Proof.
  unfold detector_step. destruct (latest s peek) as [l have].
  cbn [fst snd]. destruct (update _ _) as [d ev]. split; reflexivity.
Qed.

Lemma stale_input (have : bool) (l : BpmReading) (tnow : Z) :
  have = false \/ 3000 < tnow - t_ms l ->
  tick_input have l tnow = no_reading tnow.
Proof.
  unfold tick_input, no_reading. intros [-> | H]; [reflexivity|].
  destruct (negb have); [reflexivity|].
  destruct (Z.gtb_spec (tnow - t_ms l) 3000); [reflexivity|lia].
Qed.

Lemma detector_run_stale (ticks : list (Z * option BpmReading)) : forall s,
  all_stale s ticks ->
  detector (fst (detector_run s ticks))
  = fst (run (detector s) (map (fun tk => no_reading (fst tk)) ticks)).
Proof.
  induction ticks as [|[tnow peek] ticks IH]; intros s Hs; [reflexivity|].
  destruct Hs as [H1 H2].
  rewrite detector_run_cons. cbn [fst map]. rewrite DetectorFacts.run_cons.
  cbn [fst]. rewrite (IH _ H2).
  destruct (detector_step_unfold s tnow peek) as [E _].
  rewrite E, (stale_input _ _ _ H1). reflexivity.
Qed.

Lemma no_reading_bad (tnow : Z) : bad (no_reading tnow).
Proof. reflexivity. Qed.

(** With no fresh reading the detector task raises [NO_SIGNAL]: the
    detector of the task is default-configured with no no-signal onset
    pending; from a tick at a time other than 0 on, every tick finds the
    queue empty or holding a reading more than 3000 ms old; then after a
    tick 3000 ms or more after that first one the active alarm is
    [NO_SIGNAL]. *)
Theorem stale_reading_raises_no_signal :
  forall (s : DetectorTask) (tick1 tick : Z * option BpmReading)
         (rest : list (Z * option BpmReading)),
    cfg_ (detector s) = default_Config ->
    no_signal_since_ms_ (detector s) = 0 ->
    fst tick1 <> 0 ->
    all_stale s (tick1 :: rest ++ [tick]) ->
    3000 <= fst tick - fst tick1 ->
    active_alarm_
      (detector (fst (detector_run s (tick1 :: rest ++ [tick]))))
    = NO_SIGNAL.
Proof.
  intros s tick1 tick rest Hcfg Hns Ht1 Hstale Hlong.
  rewrite (detector_run_stale _ s Hstale).
  cbn [map]. rewrite map_app. cbn [map].
  apply AlarmFacts.bad_streak_no_signal; try assumption.
  apply Forall_forall. intros r Hr.
  destruct Hr as [<-|Hr]; [apply no_reading_bad|].
  apply in_app_or in Hr. destruct Hr as [Hr|[<-|[]]];
    [|apply no_reading_bad].
  apply in_map_iff in Hr. destruct Hr as (tk & <- & _).
  apply no_reading_bad.
Qed.

Lemma stale_reading_raises_no_signal_witness :
  let old := mkBpmReading 72 (of_int 1) true 1000 in
  active_alarm_
    (detector (fst (detector_run detector_task_init
                      [(5000, Some old); (6500, None); (8000, Some old)])))
  = NO_SIGNAL.
Proof.
  intros old.
  apply (stale_reading_raises_no_signal detector_task_init
           (5000, Some old) (8000, Some old) [(6500, None)]).
  - reflexivity.
  - reflexivity.
  - cbn. lia.
  - cbn. repeat split; right; lia.
  - cbn. lia.
Defined.

(** The detector task raises a critical alarm only on a fresh, stable
    reading: when a tick returns an event of kind [BRADYCARDIA],
    [TACHYCARDIA] or [RAPID_CHANGE], the task holds a reading, that reading
    is at most 3000 ms old and stable, and the event carries its bpm and
    quality and the time of the tick. *)
Theorem critical_alarm_needs_fresh_reading :
  forall (s : DetectorTask) (tnow : Z) (peek : option BpmReading)
         (ev : AlarmEvent),
    snd (detector_step s tnow peek) = Some ev ->
    is_critical_alarm (ev_type ev) = true ->
    let l := fst (latest s peek) in
    snd (latest s peek) = true /\
    tnow - t_ms l <= 3000 /\
    stable l = true /\
    ev_bpm ev = bpm l /\ ev_quality ev = quality l /\ ev_t_ms ev = tnow.
Proof.
  intros s tnow peek ev Hev Hcrit l.
  destruct (detector_step_unfold s tnow peek) as [_ E]. cbv zeta in E.
  rewrite E in Hev. fold l in Hev.
  destruct (AlarmFacts.update_event_kind _ _ _ Hev) as [Eev _].
  pose proof (AlarmFacts.raw_candidate_kind (detector s)
                (tick_input (snd (latest s peek)) l tnow)) as Hk.
  rewrite Eev in Hcrit. cbn [ev_type] in Hcrit.
  assert (stable (tick_input (snd (latest s peek)) l tnow) = true) as Hst.
  { destruct (snd (raw_candidate (detector s) _));
      try discriminate Hcrit; destruct Hk as [Hu _];
      unfold usable in Hu; apply andb_prop in Hu; apply Hu. }
  rewrite Eev. cbn [ev_bpm ev_quality ev_t_ms].
  unfold tick_input in *.
  destruct (snd (latest s peek)); cbn [negb] in *; [|discriminate Hst].
  destruct (Z.gtb_spec (tnow - t_ms l) 3000); [discriminate Hst|].
  cbn [stable bpm quality t_ms] in *.
  repeat split; try assumption; lia.
Qed.

Lemma critical_alarm_needs_fresh_reading_witness :
  let q := of_int 1 in
  let s := fst (detector_step detector_task_init 100
                  (Some (mkBpmReading 150 q true 100))) in
  let peek := Some (mkBpmReading 152 q true 5000) in
  snd (latest s peek) = true /\
  5100 - t_ms (fst (latest s peek)) <= 3000 /\
  stable (fst (latest s peek)) = true.
Proof.
  intros q s peek.
  destruct (critical_alarm_needs_fresh_reading s 5100 peek
              (mkAlarmEvent TACHYCARDIA 152 q 5100))
    as (H1 & H2 & H3 & _); [reflexivity|reflexivity|].
  repeat split; assumption.
Defined.

End TasksFacts.

(** ** The display driver *)

Module LcdFacts.

Import Lcd2004 LcdSpec.


Lemma same_setup_trans (a b c : t) :
  same_setup a b -> same_setup b c -> same_setup a c.
Proof.
  intros (A1 & A2 & A3 & A4) (B1 & B2 & B3 & B4).
  repeat split; congruence.
Qed.

Lemma sends_ret (l : t) : sends (ret ESP_OK) l [].
Proof.
  intros l0 w Hs. exists 0%nat, l0, w. cbn.
  repeat split; try apply Hs; try lia.
  - now rewrite app_nil_r.
  - intros i Hi. lia.
Qed.

Lemma sends_expander_write (l : t) (data : Z) :
  sends (expander_write data) l [wire (backlight_ l) data].
Proof.
  intros l0 w (A1 & A2 & A3 & A4).
  exists 1%nat. eexists. eexists. split; [|split; [|split; [|split]]].
  - unfold expander_write, bind, set_tx_byte, i2c_master_transmit.
    cbn [outcome tx_byte_]. rewrite Nat.add_0_r. reflexivity.
  - repeat split; assumption.
  - cbn. lia.
  - cbn [sent firstn]. unfold wire. rewrite A4. reflexivity.
  - split; [reflexivity|]. split; [intros i Hi; lia|cbn; lia].
Qed.

(** [m ;; k] sends the bytes of [m], then those of [k]. *)
Lemma sends_seq (m k : M esp_err_t) (l : t) (b1 b2 : list Z) :
  sends m l b1 -> sends k l b2 -> sends (m ;; k) l (b1 ++ b2).
Proof.
  intros Hm Hk l0 w Hs.
  destruct (Hm l0 w Hs) as (n1 & l1 & w1 & E1 & S1 & L1 & T1 & R1 & O1 & F1).
  unfold and_then, bind. rewrite E1.
  destruct (outcome w n1 =? ESP_OK) eqn:Eo.
  - apply Z.eqb_eq in Eo.
    assert (n1 = length b1) as En1.
    { destruct (Nat.eq_dec n1 (length b1)) as [|Hne]; [assumption|].
      exfalso. apply F1; [lia|exact Eo]. }
    destruct (Hk l1 w1 S1)
      as (n2 & l2 & w2 & E2 & S2 & L2 & T2 & R2 & O2 & F2).
    assert (length (sent w1) = (length (sent w) + n1)%nat) as Hlen.
    { rewrite T1, length_app, length_firstn, Nat.min_l; [reflexivity|exact L1]. }
    exists (n1 + n2)%nat, l2, w2.
    split; [|split; [exact S2|split; [|split; [|split; [|split]]]]].
    + rewrite E2. f_equal.
      destruct n2 as [|j]; cbn [outcome].
      * rewrite Nat.add_0_r. symmetry. exact Eo.
      * rewrite R1, Hlen.
        replace (n1 + S j)%nat with (S (n1 + j)) by lia. cbn [outcome].
        f_equal. lia.
    + rewrite length_app. lia.
    + rewrite T2, T1, En1, firstn_all, <- app_assoc. f_equal.
      symmetry. apply firstn_app_2.
    + congruence.
    + intros i Hi.
      destruct (Nat.lt_ge_cases i (n1 - 1)) as [H|H]; [now apply O1|].
      destruct (Nat.eq_dec (S i) n1) as [H1|H1].
      * destruct n1 as [|j]; [lia|]. cbn [outcome] in Eo.
        replace i with j by lia. exact Eo.
      * specialize (O2 (i - n1)%nat ltac:(lia)).
        rewrite R1, Hlen in O2.
        replace (length (sent w) + n1 + (i - n1))%nat
          with (length (sent w) + i)%nat in O2 by lia.
        exact O2.
    + intros Hlt. rewrite length_app in Hlt.
      specialize (F2 ltac:(lia)).
      destruct n2 as [|j]; [cbn in F2; congruence|].
      replace (n1 + S j)%nat with (S (n1 + j)) by lia. cbn [outcome] in *.
      rewrite R1, Hlen in F2.
      replace (length (sent w) + (n1 + j))%nat
        with (length (sent w) + n1 + j)%nat by lia.
      exact F2.
  - apply Z.eqb_neq in Eo.
    exists n1, l1, w1. unfold ret.
    split; [reflexivity|]. split; [exact S1|].
    split; [rewrite length_app; lia|].
    split; [|split; [exact R1|split; [exact O1|intros _; exact Eo]]].
    rewrite T1. f_equal.
    rewrite firstn_app.
    replace (n1 - length b1)%nat with 0%nat by lia.
    cbn [firstn]. now rewrite app_nil_r.
Qed.

Lemma sends_write4bits (l : t) (v : Z) :
  sends (write4bits v) l (frame (backlight_ l) v).
Proof.
  unfold write4bits, pulseEnable, frame.
  apply (sends_seq _ _ l [_] [_; _]); [apply sends_expander_write|].
  apply (sends_seq _ _ l [_] [_]); [apply sends_expander_write|].
  apply (sends_seq _ _ l [_] []); [apply sends_expander_write|].
  apply sends_ret.
Qed.

Lemma sends_send (l : t) (value mode : Z) :
  sends (send value mode) l (send_bytes (backlight_ l) value mode).
Proof.
  unfold send, send_bytes.
  apply sends_seq; apply sends_write4bits.
Qed.

Lemma sends_print_chars (l : t) (cs : list Z) :
  sends (print_chars cs) l (print_bytes (backlight_ l) cs).
Proof.
  induction cs as [|c cs IH]; [apply sends_ret|].
  cbn [print_chars print_bytes flat_map].
  apply sends_seq; [apply sends_send|exact IH].
Qed.

Lemma sends_setCursor (l : t) (col row : Z) :
  sends (setCursor col row) l (cursor_bytes l col row).
Proof.
  intros l0 w Hs. pose proof Hs as (A1 & A2 & A3 & A4).
  unfold setCursor. rewrite A2, A3.
  apply (sends_send l (u8 (Z.lor LCD_SETDDRAMADDR (ddram l col row))) 0
           l0 w Hs).
Qed.

(** *** What the display receives *)



















(** The byte boundary is needed.  A [send] of 65 whose fourth transmission
    fails returns [ESP_FAIL] with the first nibble latched; from there a
    [send] of 66 that succeeds leaves the display with the byte 68, made of
    the two high nibbles, and half a byte. *)
Remark half_sent_byte_shifts_the_next :
  let '(err1, s1) := send 65 MASK_RS (make 39 20 4, fails_at 3 []) in
  let '(err2, (_, w2)) := send 66 MASK_RS s1 in
  err1 = ESP_FAIL /\ ~ in_phase (sent (snd s1)) /\
  err2 = ESP_OK /\ received (sent w2) = [(true, 68)] /\
  length (latched 0 (sent w2)) = 3%nat.
Proof.
  vm_compute. split; [reflexivity|]. split; [|repeat split; reflexivity].
  intros [H _]. discriminate H.
Qed.

(** *** The public operations *)

Lemma sends_printLine (l : t) (row : Z) (s : option (list Z)) :
  sends (printLine row s) l
        (cursor_bytes l 0 row ++ print_bytes (backlight_ l) (line_buf s)).
Proof.
  unfold printLine. apply sends_seq; [apply sends_setCursor|].
  apply sends_print_chars.
Qed.

Lemma sends_createChar (l : t) (location : Z) (charmap : list Z) :
  sends (createChar location charmap) l
        (send_bytes (backlight_ l)
           (u8 (Z.lor LCD_SETCGRAMADDR (Z.shiftl (Z.land location 7) 3))) 0
         ++ print_bytes (backlight_ l) (firstn 8 charmap)).
Proof.
  unfold createChar. apply sends_seq; [apply sends_send|].
  apply sends_print_chars.
Qed.

(** Every operation stops at the first transmission that fails and returns
    its result: [clear], [setCursor], [print], [printLine], [createChar]
    and [writeChar] hand the bus a prefix of the bytes of a complete run,
    in which every transmission but the last one succeeded; they return
    the result of that last transmission, and stop short of the complete
    run only if it is not [ESP_OK].  A null string prints nothing. *)
Theorem driver_stops_at_first_failure :
  forall (l : t),
    let bl := backlight_ l in
    sends clear l (send_bytes bl LCD_CLEARDISPLAY 0) /\
    (forall col row, sends (setCursor col row) l (cursor_bytes l col row)) /\
    (forall cs, sends (print (Some cs)) l (print_bytes bl cs)) /\
    sends (print None) l [] /\
    (forall row s,
       sends (printLine row s) l
             (cursor_bytes l 0 row ++ print_bytes bl (line_buf s))) /\
    (forall location charmap,
       sends (createChar location charmap) l
             (send_bytes bl
                (u8 (Z.lor LCD_SETCGRAMADDR
                           (Z.shiftl (Z.land location 7) 3))) 0
              ++ print_bytes bl (firstn 8 charmap))) /\
    (forall ch, sends (writeChar ch) l (send_bytes bl ch MASK_RS)).
Proof.
  intros l bl. split; [apply sends_send|].
  split; [apply sends_setCursor|].
  split; [intros cs; apply sends_print_chars|].
  split; [apply sends_ret|].
  split; [apply sends_printLine|].
  split; [apply sends_createChar|].
  intros ch. apply sends_send.
Qed.
















End LcdFacts.

(** ** The Wi-Fi event handler *)

Module WifiFacts.

Import WifiTelemetry WifiSpec.

Lemma count_cons {A : Type} (f : A -> bool) (x : A) (l : list A) :
  count f (x :: l) = (if f x then 1 else 0) + count f l.
Proof. unfold count. cbn [filter]. destruct (f x); cbn [length]; lia. Qed.

Lemma count_app {A : Type} (f : A -> bool) (l1 l2 : list A) :
  count f (l1 ++ l2) = count f l1 + count f l2.
Proof. unfold count. rewrite filter_app, length_app. lia. Qed.

Lemma handle_all_cons (n : Z) (e : Event) (es : list Event) :
  handle_all n (e :: es) =
  (fst (handle_all (fst (wifi_event_handler n e)) es),
   snd (wifi_event_handler n e)
   ++ snd (handle_all (fst (wifi_event_handler n e)) es)).
Proof.
  cbn [handle_all]. destruct (wifi_event_handler n e) as [n1 a1].
  cbn [fst snd]. destruct (handle_all n1 es); reflexivity.
Qed.

Lemma handle_all_app (es1 es2 : list Event) : forall n,
  handle_all n (es1 ++ es2) =
  (fst (handle_all (fst (handle_all n es1)) es2),
   snd (handle_all n es1) ++ snd (handle_all (fst (handle_all n es1)) es2)).
Proof.
  induction es1 as [|e es1 IH]; intros n.
  - cbn [app handle_all fst snd]. now destruct (handle_all n es2).
  - cbn [app]. rewrite !handle_all_cons, IH. cbn [fst snd].
    now rewrite app_assoc.
Qed.

(** While no address is obtained, the retries add up to the cap. *)
Lemma retries_without_ip (es : list Event) : forall n,
  0 <= n <= WIFI_MAX_RETRY ->
  ~ In IP_EVENT_STA_GOT_IP es ->
  let d := count is_disconnect es in
  let acts := snd (handle_all n es) in
  fst (handle_all n es) = Z.min (n + d) WIFI_MAX_RETRY /\
  count is_connect acts = count is_start es + (Z.min (n + d) WIFI_MAX_RETRY - n) /\
  count is_fail acts = n + d - Z.min (n + d) WIFI_MAX_RETRY.
Proof.
  unfold WIFI_MAX_RETRY.
  induction es as [|e es IH]; intros n Hn Hip.
  - cbn. unfold count. cbn. lia.
  - assert (~ In IP_EVENT_STA_GOT_IP es) as Hip'
      by (intros H; apply Hip; now right).
    assert (forall f : Action -> bool, count f [] = 0) as Hnil
      by reflexivity.
    rewrite handle_all_cons. cbn [fst snd].
    rewrite !count_app, !count_cons.
    assert (0 <= count is_disconnect es) by (unfold count; lia).
    destruct e; cbn [wifi_event_handler is_disconnect is_start fst snd].
    + destruct (IH n Hn Hip') as (I1 & I2 & I3).
      rewrite !count_cons, !Hnil, I1, I2, I3. cbn [is_connect is_fail]. lia.
    + unfold WIFI_MAX_RETRY. destruct (Z.ltb_spec n 10); cbn [fst snd].
      * destruct (IH (n + 1) ltac:(lia) Hip') as (I1 & I2 & I3).
        rewrite !count_cons, !Hnil, I1, I2, I3. cbn [is_connect is_fail].
        lia.
      * destruct (IH n Hn Hip') as (I1 & I2 & I3).
        rewrite !count_cons, !Hnil, I1, I2, I3. cbn [is_connect is_fail].
        lia.
    + exfalso. apply Hip. now left.
    + destruct (IH n Hn Hip') as (I1 & I2 & I3).
      rewrite !Hnil, I1, I2, I3. lia.
Qed.

Lemma retry_bounds (es : list Event) : forall n,
  0 <= n <= WIFI_MAX_RETRY -> 0 <= fst (handle_all n es) <= WIFI_MAX_RETRY.
Proof.
  unfold WIFI_MAX_RETRY.
  induction es as [|e es IH]; intros n Hn; [exact Hn|].
  rewrite handle_all_cons. cbn [fst]. apply IH.
  destruct e; cbn [wifi_event_handler fst]; try lia.
  unfold WIFI_MAX_RETRY. destruct (Z.ltb_spec n 10); cbn [fst]; lia.
Qed.

(** At most ten reconnection attempts in a row.  The handler starts with
    [s_retry_num = 0] and sees the events [pre], the last of which (if any)
    is an address obtained, then the events [es], none of which is an
    address obtained and [d] of which are disconnections.  Over [es] it
    calls [esp_wifi_connect] once per start event and once for each of the
    first ten disconnections, sets the fail bit at every disconnection
    after the tenth, and leaves [s_retry_num] at [min(d, 10)];
    [s_retry_num] is never outside [[0, 10]]. *)
Theorem reconnects_at_most_ten_times :
  forall (pre es : list Event),
    pre = [] \/ (exists pre', pre = pre' ++ [IP_EVENT_STA_GOT_IP]) ->
    ~ In IP_EVENT_STA_GOT_IP es ->
    let n0 := fst (handle_all 0 pre) in
    let d := count is_disconnect es in
    let acts := snd (handle_all n0 es) in
    n0 = 0 /\
    fst (handle_all 0 (pre ++ es)) = Z.min d WIFI_MAX_RETRY /\
    count is_connect acts = count is_start es + Z.min d WIFI_MAX_RETRY /\
    count is_fail acts = d - Z.min d WIFI_MAX_RETRY /\
    forall es', 0 <= fst (handle_all 0 es') <= WIFI_MAX_RETRY.
Proof.
  intros pre es Hpre Hip n0 d acts.
  assert (n0 = 0) as E0.
  { unfold n0. destruct Hpre as [-> | [pre' ->]]; [reflexivity|].
    rewrite handle_all_app. cbn [fst]. reflexivity. }
  split; [exact E0|].
  destruct (retries_without_ip es 0 ltac:(unfold WIFI_MAX_RETRY; lia) Hip)
    as (I1 & I2 & I3).
  fold d in I1, I2, I3.
  unfold acts. rewrite handle_all_app. fold n0. rewrite E0. cbn [fst].
  rewrite I1, I2, I3.
  repeat split; try lia.
  - apply retry_bounds. unfold WIFI_MAX_RETRY. lia.
  - apply retry_bounds. unfold WIFI_MAX_RETRY. lia.
Qed.

Lemma reconnects_at_most_ten_times_witness :
  let es := repeat WIFI_EVENT_STA_DISCONNECTED 12 in
  fst (handle_all 0 ([IP_EVENT_STA_GOT_IP] ++ es)) = 10 /\
  count is_fail (snd (handle_all 0 es)) = 2.
Proof.
  intros es.
  destruct (reconnects_at_most_ten_times [IP_EVENT_STA_GOT_IP] es)
    as (_ & H1 & _ & H2 & _).
  - right. exists []. reflexivity.
  - cbn. intuition discriminate.
  - split; [exact H1|exact H2].
Defined.

End WifiFacts.
